(** * Lua-Wrapper: a shallow embedding of [Lua.hpp]

    The header wraps the stack-based C API of a Lua interpreter (LuaJIT in
    the configuration that the header selects) in three classes: [state],
    [table_index] and [local].  This development embeds

    - the part of the interpreter that the wrapper drives: the value stack,
      the registry with the reference allocator of the auxiliary library,
      the global table, tables, and protected calls;
    - the host heap that holds the buffers of stateless strings;
    - the three classes, method by method, in a state-and-exception monad.

    The build options fixed by the header are LUA_WRAPPER_IMPLEMENTATION_LUAJIT,
    LUA_WRAPPER_STATELESS_STRINGS, LUA_WRAPPER_TABLE_RETURN and
    LUA_WRAPPER_SMART_FUNCTIONS; LUA_WRAPPER_INDEXABLE_LOCALS is not defined. *)

From Stdlib Require Import ZArith Lia Bool List.
From Stdlib Require Import Strings.String Strings.Ascii Strings.Byte.
From Stdlib Require Import Floats.SpecFloat.
From stdpp Require Import base option list gmap strings fin_maps.

Local Open Scope Z_scope.

(* ===================================================================== *)
(** * Numbers: [lua_Number] is an IEEE-754 binary64, [lua_Integer] is the
      64-bit signed [ptrdiff_t] of LuaJIT on a 64-bit host *)
(* ===================================================================== *)

Module Double.

Definition prec : Z := 53.
Definition emax : Z := 1024.

Definition t := spec_float.

(** [m * 2^e], rounded to nearest even *)
Definition make (m e : Z) : t := binary_normalize prec emax m e false.

(** [static_cast<lua_Number>(i)] *)
Definition of_Z (i : Z) : t := make i 0.

Definition add (x y : t) : t := SFadd prec emax x y.

(** C's [==] on doubles *)
Definition eqb (x y : t) : bool := SFeqb x y.

(** The integer part, rounding toward zero; [None] for NaN and infinities *)
Definition trunc (x : t) : option Z :=
  match x with
  | S754_zero _ => Some 0
  | S754_finite sg m e =>
      let a := Z.shiftl (Z.pos m) e in
      Some (if sg then - a else a)
  | _ => None
  end.

(** The 64 bits of the IEEE-754 encoding, as an unsigned number *)
Definition bits (x : t) : Z :=
  let sign (sg : bool) := if sg then Z.shiftl 1 63 else 0 in
  match x with
  | S754_zero sg => sign sg
  | S754_infinity sg => Z.lor (sign sg) (Z.shiftl 2047 52)
  | S754_nan => Z.lor (Z.shiftl 2047 52) (Z.shiftl 1 51)
  | S754_finite sg m e =>
      if Z.pos (digits2_pos m) =? prec
      then Z.lor (sign sg)
             (Z.lor (Z.shiftl (e + 1075) 52) (Z.land (Z.pos m) (Z.ones 52)))
      else Z.lor (sign sg) (Z.pos m)
  end.

Definition isnan (x : t) : bool :=
  match x with S754_nan => true | _ => false end.

End Double.

Definition lua_Number := Double.t.
Definition lua_Integer := Z.

(** Two's complement wrap-around of the C integer types in use *)
Definition wrap_unsigned (w : Z) (x : Z) : Z := x mod 2 ^ w.
Definition wrap_signed (w : Z) (x : Z) : Z :=
  let u := x mod 2 ^ w in
  if u <? 2 ^ (w - 1) then u else u - 2 ^ w.

Definition to_uint32 : Z -> Z := wrap_unsigned 32.
Definition to_int : Z -> Z := wrap_signed 32.
Definition to_int64 : Z -> Z := wrap_signed 64.

(** [(lua_Integer)d]: truncation; out of range, the x86-64 conversion
    instruction yields the "integer indefinite" value [-2^63]. *)
Definition double_to_integer (d : lua_Number) : lua_Integer :=
  match Double.trunc d with
  | Some z => if (- 2 ^ 63 <=? z) && (z <? 2 ^ 63) then z else - 2 ^ 63
  | None => - 2 ^ 63
  end.

Module Platform.
Inductive Endianness := Big | Little.
End Platform.

(* ===================================================================== *)
(** * The interpreter, as far as the wrapper drives it *)
(* ===================================================================== *)

(** Addresses of C functions and raw [void*] pointers; [0] is null. *)
Definition lua_CFunction := Z.
Definition void_ptr := Z.

(** Values of the scripting language.  Closures, full userdata, coroutines
    and tables are garbage-collected objects named by an address. *)
Inductive lval :=
  | LNil
  | LBoolean (b : bool)
  | LNumber (n : lua_Number)
  | LString (str : string)
  | LFunction (c : nat)
  | LCFunction (f : lua_CFunction)
  | LUserdata (u : nat)
  | LLightuserdata (p : void_ptr)
  | LThread (c : nat)
  | LTable (a : nat).

(** Raw equality, the one table keys are compared with.  A C function
    stands for its address: the closures that separate pushes of one C
    function make, which the interpreter tells apart, are one value here,
    so the statements about the keys of tables leave C functions out. *)
Definition lval_raweq (x y : lval) : bool :=
  match x, y with
  | LNil, LNil => true
  | LBoolean a, LBoolean b => Bool.eqb a b
  | LNumber a, LNumber b => Double.eqb a b
  | LString a, LString b => String.eqb a b
  | LFunction a, LFunction b => Nat.eqb a b
  | LCFunction a, LCFunction b => Z.eqb a b
  | LUserdata a, LUserdata b => Nat.eqb a b
  | LLightuserdata a, LLightuserdata b => Z.eqb a b
  | LThread a, LThread b => Nat.eqb a b
  | LTable a, LTable b => Nat.eqb a b
  | _, _ => false
  end.

Definition typename (v : lval) : string :=
  match v with
  | LNil => "nil"
  | LBoolean _ => "boolean"
  | LNumber _ => "number"
  | LString _ => "string"
  | LFunction _ | LCFunction _ => "function"
  | LUserdata _ | LLightuserdata _ => "userdata"
  | LThread _ => "thread"
  | LTable _ => "table"
  end.

(** A table is an association list without nil values and with at most one
    entry per key. *)
Definition table_body := list (lval * lval).

Fixpoint tab_get (k : lval) (tb : table_body) : lval :=
  match tb with
  | [] => LNil
  | (k', v) :: tb' => if lval_raweq k k' then v else tab_get k tb'
  end.

Fixpoint tab_remove (k : lval) (tb : table_body) : table_body :=
  match tb with
  | [] => []
  | (k', v) :: tb' =>
      if lval_raweq k k' then tab_remove k tb' else (k', v) :: tab_remove k tb'
  end.

Definition tab_set (k v : lval) (tb : table_body) : table_body :=
  match v with
  | LNil => tab_remove k tb
  | _ => (k, v) :: tab_remove k tb
  end.

(** The collectable part of an interpreter: what a running function can
    reach and change. *)
Record lua_heap := {
  registry : gmap Z lval;
  globals : gmap string lval;
  tables : gmap nat table_body;
  next_table : nat
}.

(** What calling a function does: it returns values or raises an error
    value, and may change the heap on the way. *)
Inductive call_result :=
  | CallReturn (results : list lval)
  | CallError (err : lval).

Definition function_body := list lval -> lua_heap -> call_result * lua_heap.

(** One interpreter instance ([lua_State]).  [stack] has its top first;
    [pcalls] counts the protected calls made so far (a ghost field). *)
Record lua_State := {
  stack : list lval;
  heap : lua_heap;
  closures : gmap nat function_body;
  pcalls : nat
}.

Definition set_stack (stk : list lval) (st : lua_State) : lua_State :=
  {| stack := stk; heap := heap st; closures := closures st; pcalls := pcalls st |}.

Definition set_heap (h : lua_heap) (st : lua_State) : lua_State :=
  {| stack := stack st; heap := h; closures := closures st; pcalls := pcalls st |}.

Definition set_registry (r : gmap Z lval) (h : lua_heap) : lua_heap :=
  {| registry := r; globals := globals h; tables := tables h;
     next_table := next_table h |}.

Definition set_globals (g : gmap string lval) (h : lua_heap) : lua_heap :=
  {| registry := registry h; globals := g; tables := tables h;
     next_table := next_table h |}.

Definition set_tables (t : gmap nat table_body) (h : lua_heap) : lua_heap :=
  {| registry := registry h; globals := globals h; tables := t;
     next_table := next_table h |}.

Definition push (v : lval) (st : lua_State) : lua_State :=
  set_stack (v :: stack st) st.

(** The tag of a handle: [enum class type] of [local]. *)
Module type.
Inductive t :=
  | nil | boolean | number | integer | string | stateless_string
  | function | cfunction | userdata | lightuserdata | thread | table.

Definition eqb (a b : t) : bool :=
  match a, b with
  | nil, nil | boolean, boolean | number, number | integer, integer
  | string, string | stateless_string, stateless_string
  | function, function | cfunction, cfunction | userdata, userdata
  | lightuserdata, lightuserdata | thread, thread | table, table => true
  | _, _ => false
  end.
End type.

(** What the header takes from its surroundings and does not define:
    [Platform::checkEndianness()], the interpreter's coercions between
    strings and numbers, the code behind C function pointers, and the
    contents of members that a constructor leaves uninitialised. *)
Record environment := {
  checkEndianness : Platform.Endianness;
  str2number : string -> option lua_Number;
  number2str : lua_Number -> string;
  cfunction_body : lua_CFunction -> function_body;
  indeterminate_type : type.t;
  indeterminate_cargs : Z
}.

Definition LUA_REGISTRYINDEX : Z := -10000.
Definition LUA_GLOBALSINDEX : Z := -10002.
Definition LUA_MULTRET : Z := -1.
Definition LUA_REFNIL : Z := -1.
Definition LUA_ERRRUN : Z := 2.
Definition FREELIST_REF : Z := 0.

(** Outcome of one API call on one interpreter: it returns, or the
    interpreter raises an error value (which unwinds to the innermost
    protected call), or the call is outside the API's contract. *)
Inductive lua_result (A : Type) :=
  | LuaOk (a : A) (st : lua_State)
  | LuaRaise (err : lval) (st : lua_State)
  | LuaUB.
Arguments LuaOk {A} a st.
Arguments LuaRaise {A} err st.
Arguments LuaUB {A}.

Module Interp.
Section WithEnvironment.
Context (env : environment).

(** Position of a stack index counted from the top, for the acceptable
    indices: [-1] is the top, [1] the bottom. *)
Definition index2pos (st : lua_State) (idx : Z) : option nat :=
  let n := Z.of_nat (length (stack st)) in
  if (idx <? 0) && (- n <=? idx) then Some (Z.to_nat (- idx - 1))
  else if (0 <? idx) && (idx <=? n) then Some (Z.to_nat (n - idx))
  else None.

Definition index2adr (st : lua_State) (idx : Z) : option lval :=
  p ← index2pos st idx; stack st !! p.

Definition query {A : Type} (f : lval -> A) (idx : Z) (st : lua_State)
  : lua_result A :=
  match index2adr st idx with
  | Some v => LuaOk (f v) st
  | None => LuaUB
  end.

Definition gettop (st : lua_State) : lua_result Z :=
  LuaOk (Z.of_nat (length (stack st))) st.

(** [lua_pop(L, n)] *)
Definition pop (n : Z) (st : lua_State) : lua_result unit :=
  if (0 <=? n) && (n <=? Z.of_nat (length (stack st)))
  then LuaOk tt (set_stack (drop (Z.to_nat n) (stack st)) st)
  else LuaUB.

Definition pushvalue (idx : Z) (st : lua_State) : lua_result unit :=
  match index2adr st idx with
  | Some v => LuaOk tt (push v st)
  | None => LuaUB
  end.

Definition pushlval (v : lval) (st : lua_State) : lua_result unit :=
  LuaOk tt (push v st).

(** Numbers of LuaJIT are doubles: [lua_pushinteger] stores the
    conversion of its argument. *)
Definition pushinteger (i : lua_Integer) : lua_State -> lua_result unit :=
  pushlval (LNumber (Double.of_Z i)).

(** ** Type tests *)

Definition isnil (v : lval) : bool :=
  match v with LNil => true | _ => false end.
Definition isboolean (v : lval) : bool :=
  match v with LBoolean _ => true | _ => false end.
(** a number, or a string that converts to one *)
Definition isnumber (v : lval) : bool :=
  match v with
  | LNumber _ => true
  | LString str => bool_decide (is_Some (str2number env str))
  | _ => false
  end.
(** a string, or a number (which always converts to one) *)
Definition isstring (v : lval) : bool :=
  match v with LString _ | LNumber _ => true | _ => false end.
Definition isfunction (v : lval) : bool :=
  match v with LFunction _ | LCFunction _ => true | _ => false end.
Definition iscfunction (v : lval) : bool :=
  match v with LCFunction _ => true | _ => false end.
Definition isuserdata (v : lval) : bool :=
  match v with LUserdata _ | LLightuserdata _ => true | _ => false end.
Definition islightuserdata (v : lval) : bool :=
  match v with LLightuserdata _ => true | _ => false end.
Definition isthread (v : lval) : bool :=
  match v with LThread _ => true | _ => false end.
Definition istable (v : lval) : bool :=
  match v with LTable _ => true | _ => false end.

(** ** Conversions *)

Definition toboolean (v : lval) : bool :=
  match v with LNil | LBoolean false => false | _ => true end.

Definition tonumber (v : lval) : lua_Number :=
  match v with
  | LNumber n => n
  | LString str => default (Double.of_Z 0) (str2number env str)
  | _ => Double.of_Z 0
  end.

Definition tointeger (v : lval) : lua_Integer :=
  match v with
  | LNumber n => double_to_integer n
  | LString str =>
      match str2number env str with
      | Some n => double_to_integer n
      | None => 0
      end
  | _ => 0
  end.

Definition tocfunction (v : lval) : lua_CFunction :=
  match v with LCFunction f => f | _ => 0 end.

Definition touserdata (v : lval) : void_ptr :=
  match v with
  | LLightuserdata p => p
  | LUserdata u => Z.of_nat u
  | _ => 0
  end.

(** [lua_tostring]: a number on the stack is converted in place; the
    result is [NULL] ([None]) for anything but strings and numbers. *)
Definition tostring (idx : Z) (st : lua_State) : lua_result (option string) :=
  match index2pos st idx with
  | Some p =>
      match stack st !! p with
      | Some (LString str) => LuaOk (Some str) st
      | Some (LNumber n) =>
          let str := number2str env n in
          LuaOk (Some str) (set_stack (<[p := LString str]> (stack st)) st)
      | Some _ => LuaOk None st
      | None => LuaUB
      end
  | None => LuaUB
  end.

(** ** Tables *)

Definition createtable (st : lua_State) : lua_result unit :=
  let h := heap st in
  let a := next_table h in
  let h' := {| registry := registry h; globals := globals h;
               tables := <[a := []]> (tables h);
               next_table := S a |} in
  LuaOk tt (push (LTable a) (set_heap h' st)).

Definition index_error (v : lval) : lval :=
  LString ("attempt to index a " ++ typename v ++ " value").

(** [lua_gettable(L, idx)]: the key on top is replaced by [t[key]].  No
    value of the model carries a metatable. *)
Definition gettable (idx : Z) (st : lua_State) : lua_result unit :=
  match index2adr st idx, stack st with
  | Some (LTable a), k :: rest =>
      match tables (heap st) !! a with
      | Some tb => LuaOk tt (set_stack (tab_get k tb :: rest) st)
      | None => LuaUB
      end
  | Some v, _ :: _ => LuaRaise (index_error v) st
  | _, _ => LuaUB
  end.

(** [lua_settable(L, idx)]: [t[key] = value] with the value on top and the
    key below it; both are popped. *)
Definition settable (idx : Z) (st : lua_State) : lua_result unit :=
  match index2adr st idx, stack st with
  | Some (LTable a), v :: k :: rest =>
      match tables (heap st) !! a with
      | Some tb =>
          match k with
          | LNil => LuaRaise (LString "table index is nil") st
          | _ =>
              if match k with LNumber n => Double.isnan n | _ => false end
              then LuaRaise (LString "table index is NaN") st
              else
                LuaOk tt
                  (set_stack rest
                     (set_heap
                        (set_tables (<[a := tab_set k v tb]> (tables (heap st)))
                           (heap st)) st))
          end
      | None => LuaUB
      end
  | Some t, _ :: _ :: _ => LuaRaise (index_error t) st
  | _, _ => LuaUB
  end.

(** ** The registry, through [lua_rawgeti] and the reference allocator of
    the auxiliary library (the one of Lua 5.1, which LuaJIT shares) *)

Definition registry_get (n : Z) (st : lua_State) : lval :=
  default LNil (registry (heap st) !! n).

Definition registry_set (n : Z) (v : lval) (st : lua_State) : lua_State :=
  let r := registry (heap st) in
  set_heap
    (set_registry (match v with LNil => delete n r | _ => <[n := v]> r end)
       (heap st)) st.

(** [lua_rawgeti(L, LUA_REGISTRYINDEX, n)] *)
Definition rawgeti_registry (n : Z) (st : lua_State) : lua_result unit :=
  LuaOk tt (push (registry_get n st) st).

(** [lua_objlen] on the registry: a border of its array part *)
Fixpoint border (r : gmap Z lval) (fuel : nat) (n : Z) : Z :=
  match fuel with
  | O => n
  | S fuel' =>
      match r !! (n + 1) with
      | Some _ => border r fuel' (n + 1)
      | None => n
      end
  end.

Definition registry_objlen (st : lua_State) : Z :=
  let r := registry (heap st) in border r (size r) 0.

(** [luaL_ref(L, LUA_REGISTRYINDEX)]:
    nil on top is popped and gets [LUA_REFNIL]; otherwise the first slot of
    the free list (headed by [t[FREELIST_REF]]) is taken, or a new slot
    past the end, and the top is stored there and popped. *)
Definition ref (st : lua_State) : lua_result Z :=
  match stack st with
  | [] => LuaUB
  | LNil :: rest => LuaOk LUA_REFNIL (set_stack rest st)
  | v :: rest =>
      let free := to_int (tointeger (registry_get FREELIST_REF st)) in
      if free =? 0 then
        let r := to_int (registry_objlen st + 1) in
        LuaOk r (registry_set r v (set_stack rest st))
      else
        let st1 := registry_set FREELIST_REF (registry_get free st) st in
        LuaOk free (registry_set free v (set_stack rest st1))
  end.

(** [luaL_unref(L, LUA_REGISTRYINDEX, ref)]: for [ref >= 0] the slot is
    linked in front of the free list. *)
Definition unref (r : Z) (st : lua_State) : lua_result unit :=
  if 0 <=? r then
    let st1 := registry_set r (registry_get FREELIST_REF st) st in
    LuaOk tt (registry_set FREELIST_REF (LNumber (Double.of_Z r)) st1)
  else LuaOk tt st.

(** ** Globals *)

(** [lua_getglobal(L, name)], for a name without an embedded NUL *)
Definition getglobal (name : string) (st : lua_State) : lua_result unit :=
  LuaOk tt (push (default LNil (globals (heap st) !! name)) st).

(** [lua_setglobal(L, name)]: pops the top and stores it under [name], a
    name without an embedded NUL *)
Definition setglobal (name : string) (st : lua_State) : lua_result unit :=
  match stack st with
  | v :: rest =>
      let g := globals (heap st) in
      LuaOk tt
        (set_stack rest
           (set_heap
              (set_globals
                 (match v with LNil => delete name g | _ => <[name := v]> g end)
                 (heap st)) st))
  | [] => LuaUB
  end.

(** ** Protected calls *)

Definition call_error (v : lval) : lval :=
  LString ("attempt to call a " ++ typename v ++ " value").

Definition body_of (st : lua_State) (f : lval) : option function_body :=
  match f with
  | LFunction c => closures st !! c
  | LCFunction p => Some (cfunction_body env p)
  | v => Some (fun _ h => (CallError (call_error v), h))
  end.

(** [lua_pcall(L, nargs, LUA_MULTRET, 0)]: the function and its [nargs]
    arguments are replaced by all results, first result lowest, or by the
    error value. *)
Definition pcall (nargs : Z) (st : lua_State) : lua_result Z :=
  let n := Z.to_nat nargs in
  if (0 <=? nargs) && (nargs <? Z.of_nat (length (stack st))) then
    match stack st !! n with
    | Some f =>
        match body_of st f with
        | Some body =>
            let args := rev (take n (stack st)) in
            let rest := drop (S n) (stack st) in
            let '(res, h') := body args (heap st) in
            let st' := {| stack := rest; heap := h';
                          closures := closures st;
                          pcalls := S (pcalls st) |} in
            match res with
            | CallReturn rs => LuaOk 0 (set_stack (rev rs ++ rest) st')
            | CallError e => LuaOk LUA_ERRRUN (set_stack (e :: rest) st')
            end
        | None => LuaUB
        end
    | None => LuaUB
    end
  else LuaUB.

End WithEnvironment.
End Interp.

(* ===================================================================== *)
(** * Host objects: pointers, the three classes, the C heap *)
(* ===================================================================== *)

(** [lua_State*] and [state*]; [None] is [nullptr]. *)
Definition lua_State_ptr := option nat.
Definition state_ptr := option nat.

(** [char*] into a [malloc]ed block: the block and a byte offset into it. *)
Definition char_ptr := (nat * Z)%type.

(** [class state] *)
Record state := { state_L : lua_State_ptr }.

(** [class table_index] *)
Record table_index := {
  ti_s : state_ptr;
  ti_tblRef : Z;
  ti_idxRef : Z
}.

(** The anonymous union [local::value].  Exactly one member is active;
    [v_indeterminate] is a union that was never written. *)
Inductive value_union :=
  | v_indeterminate
  | v_boolean (b : bool)
  | v_number (n : lua_Number)
  | v_integer (i : lua_Integer)
  | v_cfunction (f : lua_CFunction)
  | v_lightuserdata (p : void_ptr)
  | v_ref (r : Z)
  | v_string (p : char_ptr).

(** [class local] *)
Record local := {
  local_s : state_ptr;
  local_L : lua_State_ptr;
  local_t : type.t;
  local_value : value_union;
  local_tindex : table_index;
  local_cargs : Z
}.

Definition with_t (t : type.t) (l : local) : local :=
  {| local_s := local_s l; local_L := local_L l; local_t := t;
     local_value := local_value l; local_tindex := local_tindex l;
     local_cargs := local_cargs l |}.

Definition with_value (v : value_union) (l : local) : local :=
  {| local_s := local_s l; local_L := local_L l; local_t := local_t l;
     local_value := v; local_tindex := local_tindex l;
     local_cargs := local_cargs l |}.

Definition with_tindex (ti : table_index) (l : local) : local :=
  {| local_s := local_s l; local_L := local_L l; local_t := local_t l;
     local_value := local_value l; local_tindex := ti;
     local_cargs := local_cargs l |}.

Definition with_cargs (n : Z) (l : local) : local :=
  {| local_s := local_s l; local_L := local_L l; local_t := local_t l;
     local_value := local_value l; local_tindex := local_tindex l;
     local_cargs := n |}.

(** Everything the host program can reach: the interpreters behind
    [lua_State*], the [state] objects behind [state*], the [local] objects
    that are named by address, and the blocks handed out by [malloc]. *)
Record world := {
  interps : gmap nat lua_State;
  next_interp : nat;
  states : gmap nat state;
  locals : gmap nat local;
  blocks : gmap nat (list byte);
  next_block : nat
}.

Definition set_interps (i : gmap nat lua_State) (w : world) : world :=
  {| interps := i; next_interp := next_interp w; states := states w;
     locals := locals w; blocks := blocks w; next_block := next_block w |}.

Definition set_locals (l : gmap nat local) (w : world) : world :=
  {| interps := interps w; next_interp := next_interp w; states := states w;
     locals := l; blocks := blocks w; next_block := next_block w |}.

Definition set_blocks (b : gmap nat (list byte)) (w : world) : world :=
  {| interps := interps w; next_interp := next_interp w; states := states w;
     locals := locals w; blocks := b; next_block := next_block w |}.

(** C++ exceptions thrown by the wrapper *)
Inductive exception :=
  | logic_error (what : string)
  | runtime_error (what : string).

(** How a piece of host code ends: it returns, it leaves by a C++ exception,
    the interpreter raises an error outside every protected call, or its
    behaviour is undefined. *)
Inductive outcome (A : Type) :=
  | Ok (a : A) (w : world)
  | Throw (e : exception) (w : world)
  | LuaError (err : lval) (w : world)
  | Undefined.
Arguments Ok {A} a w.
Arguments Throw {A} e w.
Arguments LuaError {A} err w.
Arguments Undefined {A}.

Definition M (A : Type) : Type := world -> outcome A.

Definition ret {A : Type} (a : A) : M A := fun w => Ok a w.

Definition bind {A B : Type} (m : M A) (k : A -> M B) : M B :=
  fun w =>
    match m w with
    | Ok a w' => k a w'
    | Throw e w' => Throw e w'
    | LuaError err w' => LuaError err w'
    | Undefined => Undefined
    end.

Definition throw {A : Type} (e : exception) : M A := fun w => Throw e w.

Definition undefined {A : Type} : M A := fun _ => Undefined.

(** Scope exit: [cleanup] (a destructor) runs when [m] returns and when it
    throws.  A destructor that does not return normally while an exception
    unwinds ends the program; an interpreter error skips destructors. *)
Definition finally {A : Type} (m : M A) (cleanup : M unit) : M A :=
  fun w =>
    match m w with
    | Ok a w' => bind cleanup (fun _ => ret a) w'
    | Throw e w' =>
        match cleanup w' with
        | Ok _ w'' => Throw e w''
        | _ => Undefined
        end
    | LuaError err w' => LuaError err w'
    | Undefined => Undefined
    end.

Declare Scope cpp_scope.
Delimit Scope cpp_scope with cpp.
Notation "x <- m ;; k" := (bind m (fun x => k))
  (at level 100, m at next level, right associativity) : cpp_scope.
Notation "m ;; k" := (bind m (fun _ => k))
  (at level 100, right associativity) : cpp_scope.
Local Open Scope cpp_scope.

(** The world after interpreter [p] moved to [st] *)
Definition put_interp (p : nat) (st : lua_State) (w : world) : world :=
  set_interps (<[p := st]> (interps w)) w.

(** Running an API call on the interpreter behind [L] *)
Definition lua {A : Type} (L : lua_State_ptr) (f : lua_State -> lua_result A)
  : M A :=
  fun w =>
    match L with
    | None => Undefined
    | Some p =>
        match interps w !! p with
        | None => Undefined
        | Some st =>
            match f st with
            | LuaOk a st' => Ok a (put_interp p st' w)
            | LuaRaise err st' => LuaError err (put_interp p st' w)
            | LuaUB => Undefined
            end
        end
    end.

(** [*s] for a [state*] *)
Definition deref_state (s : state_ptr) : M state :=
  fun w =>
    match s with
    | None => Undefined
    | Some a =>
        match states w !! a with
        | Some st => Ok st w
        | None => Undefined
        end
    end.

(** ** The C heap *)

Definition byte_of_Z (z : Z) : byte :=
  default x00 (Byte.of_N (Z.to_N (z mod 256))).

Definition Z_of_byte (b : byte) : Z := Z.of_N (Byte.to_N b).

(** [std::malloc(n)]: a fresh block of [n] bytes *)
Definition malloc (n : Z) : M char_ptr :=
  fun w =>
    let b := next_block w in
    Ok (b, 0)
      {| interps := interps w; next_interp := next_interp w;
         states := states w; locals := locals w;
         blocks := <[b := replicate (Z.to_nat n) x00]> (blocks w);
         next_block := S b |}.

(** [std::free(p)]: [p] must be the base of a live block *)
Definition free (p : char_ptr) : M unit :=
  fun w =>
    match blocks w !! p.1 with
    | Some _ =>
        if p.2 =? 0 then Ok tt (set_blocks (delete p.1 (blocks w)) w)
        else Undefined
    | None => Undefined
    end.

Definition load_bytes (p : char_ptr) (n : nat) : M (list byte) :=
  fun w =>
    match blocks w !! p.1 with
    | Some bs =>
        if (0 <=? p.2) && (p.2 + Z.of_nat n <=? Z.of_nat (length bs))
        then Ok (take n (drop (Z.to_nat p.2) bs)) w
        else Undefined
    | None => Undefined
    end.

Definition store_bytes (p : char_ptr) (new : list byte) : M unit :=
  fun w =>
    match blocks w !! p.1 with
    | Some bs =>
        if (0 <=? p.2) && (p.2 + Z.of_nat (length new) <=? Z.of_nat (length bs))
        then
          let o := Z.to_nat p.2 in
          Ok tt
            (set_blocks
               (<[p.1 := take o bs ++ new ++ drop (o + length new) bs]> (blocks w))
               w)
        else Undefined
    | None => Undefined
    end.

(** The characters from [p] up to the terminating NUL *)
Fixpoint until_nul (bs : list byte) : option (list byte) :=
  match bs with
  | [] => None
  | b :: bs' =>
      if Byte.eqb b x00 then Some []
      else option_map (cons b) (until_nul bs')
  end.

Definition load_cstring (p : char_ptr) : M string :=
  fun w =>
    match blocks w !! p.1 with
    | Some bs =>
        if (0 <=? p.2) && (p.2 <=? Z.of_nat (length bs)) then
          match until_nul (drop (Z.to_nat p.2) bs) with
          | Some cs => Ok (string_of_list_byte cs) w
          | None => Undefined
          end
        else Undefined
    | None => Undefined
    end.

(** The bytes of a C string literal, with the terminating NUL *)
Definition cstring_bytes (str : string) : list byte :=
  list_byte_of_string str ++ [x00].

(** [std::strlen] of a literal *)
Definition strlen (str : string) : Z := Z.of_nat (String.length str).

(** A [uint32_t] in memory, in the byte order of the host *)
Definition encode32 (e : Platform.Endianness) (x : Z) : list byte :=
  let le := [byte_of_Z x; byte_of_Z (x / 2 ^ 8);
             byte_of_Z (x / 2 ^ 16); byte_of_Z (x / 2 ^ 24)] in
  match e with Platform.Little => le | Platform.Big => rev le end.

Definition decode32 (e : Platform.Endianness) (bs : list byte) : Z :=
  let le := match e with Platform.Little => bs | Platform.Big => rev bs end in
  fold_right (fun b acc => Z_of_byte b + 256 * acc) 0 le.

(* ===================================================================== *)
(** * The wrapper *)
(* ===================================================================== *)

Section Wrapper.
Context (env : environment).

(** ** The C API, on a [lua_State*] *)

Definition lua_gettop (L : lua_State_ptr) : M Z := lua L Interp.gettop.
Definition lua_pop (L : lua_State_ptr) (n : Z) : M unit := lua L (Interp.pop n).
Definition lua_pushvalue (L : lua_State_ptr) (idx : Z) : M unit :=
  lua L (Interp.pushvalue idx).
Definition lua_pushnil (L : lua_State_ptr) : M unit :=
  lua L (Interp.pushlval LNil).
Definition lua_pushboolean (L : lua_State_ptr) (b : bool) : M unit :=
  lua L (Interp.pushlval (LBoolean b)).
Definition lua_pushnumber (L : lua_State_ptr) (n : lua_Number) : M unit :=
  lua L (Interp.pushlval (LNumber n)).
Definition lua_pushinteger (L : lua_State_ptr) (i : lua_Integer) : M unit :=
  lua L (Interp.pushinteger i).
(** [lua_pushstring] takes a C string: the model pushes the whole string,
    which is what the C code reads when the string has no embedded NUL.
    The same holds for the names that [lua_getglobal] and [lua_setglobal]
    take. *)
Definition lua_pushstring (L : lua_State_ptr) (str : string) : M unit :=
  lua L (Interp.pushlval (LString str)).
(** [lua_pushcfunction] makes a closure of its own on every call; the model
    pushes the address of the function (see [lval_raweq]). *)
Definition lua_pushcfunction (L : lua_State_ptr) (f : lua_CFunction) : M unit :=
  lua L (Interp.pushlval (LCFunction f)).
Definition lua_pushlightuserdata (L : lua_State_ptr) (p : void_ptr) : M unit :=
  lua L (Interp.pushlval (LLightuserdata p)).

Definition lua_isnil L idx := lua L (Interp.query Interp.isnil idx).
Definition lua_isboolean L idx := lua L (Interp.query Interp.isboolean idx).
Definition lua_isnumber L idx := lua L (Interp.query (Interp.isnumber env) idx).
Definition lua_isstring L idx := lua L (Interp.query Interp.isstring idx).
Definition lua_isfunction L idx := lua L (Interp.query Interp.isfunction idx).
Definition lua_iscfunction L idx := lua L (Interp.query Interp.iscfunction idx).
Definition lua_isuserdata L idx := lua L (Interp.query Interp.isuserdata idx).
Definition lua_islightuserdata L idx :=
  lua L (Interp.query Interp.islightuserdata idx).
Definition lua_isthread L idx := lua L (Interp.query Interp.isthread idx).
Definition lua_istable L idx := lua L (Interp.query Interp.istable idx).

Definition lua_toboolean L idx := lua L (Interp.query Interp.toboolean idx).
Definition lua_tonumber L idx := lua L (Interp.query (Interp.tonumber env) idx).
Definition lua_tointeger L idx := lua L (Interp.query (Interp.tointeger env) idx).
Definition lua_tocfunction L idx := lua L (Interp.query Interp.tocfunction idx).
Definition lua_touserdata L idx := lua L (Interp.query Interp.touserdata idx).
Definition lua_tostring L idx := lua L (Interp.tostring env idx).

Definition lua_createtable (L : lua_State_ptr) (narr nrec : Z) : M unit :=
  lua L Interp.createtable.
Definition lua_gettable L idx := lua L (Interp.gettable idx).
Definition lua_settable L idx := lua L (Interp.settable idx).
Definition lua_getglobal L name := lua L (Interp.getglobal name).
Definition lua_setglobal L name := lua L (Interp.setglobal name).

(** [lua_rawgeti(L, LUA_REGISTRYINDEX, n)], [luaL_ref(L, LUA_REGISTRYINDEX)]
    and [luaL_unref(L, LUA_REGISTRYINDEX, ref)]: the wrapper uses the three
    on the registry only. *)
Definition lua_rawgeti_registry L n := lua L (Interp.rawgeti_registry n).
Definition luaL_ref_registry L := lua L (Interp.ref env).
Definition luaL_unref_registry L r := lua L (Interp.unref r).

Definition lua_pcall (L : lua_State_ptr) (nargs nresults errfunc : Z) : M Z :=
  lua L (Interp.pcall env nargs).

(** [luaL_newstate()] *)
Definition empty_heap : lua_heap :=
  {| registry := ∅; globals := ∅; tables := ∅; next_table := 0 |}.

Definition luaL_newstate : M lua_State_ptr :=
  fun w =>
    let p := next_interp w in
    Ok (Some p)
      {| interps := <[p := {| stack := []; heap := empty_heap;
                               closures := ∅; pcalls := 0 |}]> (interps w);
         next_interp := S p; states := states w; locals := locals w;
         blocks := blocks w; next_block := next_block w |}.

(** [lua_close(L)] *)
Definition lua_close (L : lua_State_ptr) : M unit :=
  fun w =>
    match L with
    | Some p =>
        match interps w !! p with
        | Some _ => Ok tt (set_interps (delete p (interps w)) w)
        | None => Undefined
        end
    | None => Undefined
    end.

(** ** Reading the union.  Reading a member other than the active one is
    undefined. *)
Definition read_ref (v : value_union) : M Z :=
  match v with v_ref r => ret r | _ => undefined end.
Definition read_string (v : value_union) : M char_ptr :=
  match v with v_string p => ret p | _ => undefined end.
Definition read_boolean (v : value_union) : M bool :=
  match v with v_boolean b => ret b | _ => undefined end.
Definition read_number (v : value_union) : M lua_Number :=
  match v with v_number n => ret n | _ => undefined end.
Definition read_integer (v : value_union) : M lua_Integer :=
  match v with v_integer i => ret i | _ => undefined end.
Definition read_cfunction (v : value_union) : M lua_CFunction :=
  match v with v_cfunction f => ret f | _ => undefined end.
Definition read_lightuserdata (v : value_union) : M void_ptr :=
  match v with v_lightuserdata p => ret p | _ => undefined end.

(** ** [state]: construction, move, destruction *)

(** [state::state()] *)
Definition state_ctor : M state :=
  L <- luaL_newstate ;; ret {| state_L := L |}.

(** [state::state(state &&s)]: the new object and what is left of [s] *)
Definition state_move (src : state) : state * state :=
  ({| state_L := state_L src |}, {| state_L := None |}).

(** [state::~state()] *)
Definition state_dtor (this : state) : M unit :=
  match state_L this with
  | Some _ => lua_close (state_L this)
  | None => ret tt
  end.

(** ** [table_index]: the members that [local] needs *)

(** [table_index::table_index()] *)
Definition table_index_default : table_index :=
  {| ti_s := None; ti_tblRef := LUA_REFNIL; ti_idxRef := LUA_REFNIL |}.

(** [table_index::~table_index()] *)
Definition table_index_dtor (this : table_index) : M unit :=
  if negb (ti_idxRef this =? LUA_REFNIL) then
    st <- deref_state (ti_s this) ;;
    luaL_unref_registry (state_L st) (ti_idxRef this)
  else ret tt.

(** [table_index::operator=(const table_index &rhs)] *)
Definition table_index_assign (this rhs : table_index) : M table_index :=
  (if negb (ti_idxRef this =? LUA_REFNIL) then
     st <- deref_state (ti_s this) ;;
     luaL_unref_registry (state_L st) (ti_idxRef this)
   else ret tt) ;;
  match ti_s rhs with
  | Some _ =>
      st <- deref_state (ti_s rhs) ;;
      lua_rawgeti_registry (state_L st) (ti_idxRef rhs) ;;
      r <- luaL_ref_registry (state_L st) ;;
      ret {| ti_s := ti_s rhs; ti_tblRef := ti_tblRef rhs; ti_idxRef := r |}
  | None =>
      ret {| ti_s := None; ti_tblRef := LUA_REFNIL; ti_idxRef := LUA_REFNIL |}
  end.

(** [table_index::check_valid()] *)
Definition table_index_check_valid (this : table_index) : M unit :=
  match ti_s this with
  | None => throw (logic_error "Attempted to use an invalid table_index object")
  | Some _ => ret tt
  end.

(** ** [local]: stateless strings *)

Definition sizeof_uint32 : Z := 4.

(** [local::get_string_refc(char *s)] *)
Definition get_string_refc (s : char_ptr) : char_ptr :=
  (s.1, s.2 - sizeof_uint32).

Definition load_uint32 (p : char_ptr) : M Z :=
  bs <- load_bytes p 4 ;; ret (decode32 (checkEndianness env) bs).

Definition store_uint32 (p : char_ptr) (x : Z) : M unit :=
  store_bytes p (encode32 (checkEndianness env) x).

(** [local::create_string(const char *s)] *)
Definition create_string (s : string) : M char_ptr :=
  let slen := strlen s in
  ns <- malloc (sizeof_uint32 + slen + 1) ;;
  store_uint32 ns 1 ;;
  let ns := (ns.1, ns.2 + sizeof_uint32) in
  store_bytes ns (cstring_bytes s) ;;
  ret ns.

(** [local::copy_string(char *s)] *)
Definition copy_string (s : char_ptr) : M char_ptr :=
  let refc := get_string_refc s in
  c <- load_uint32 refc ;;
  store_uint32 refc (to_uint32 (c + 1)) ;;
  ret s.

(** [local::release_string(char *s)] *)
Definition release_string (s : char_ptr) : M unit :=
  let refc := get_string_refc s in
  c <- load_uint32 refc ;;
  let c' := to_uint32 (c - 1) in
  store_uint32 refc c' ;;
  if c' =? 0 then free refc else ret tt.

(** ** [local]: predicates on the tag *)

Definition is_nil (l : local) : bool := type.eqb (local_t l) type.nil.
Definition is_boolean (l : local) : bool := type.eqb (local_t l) type.boolean.
Definition is_number (l : local) : bool :=
  type.eqb (local_t l) type.number || type.eqb (local_t l) type.integer.
Definition is_integer (l : local) : bool := type.eqb (local_t l) type.integer.
Definition is_string (l : local) : bool := type.eqb (local_t l) type.string.
Definition is_function (l : local) : bool :=
  type.eqb (local_t l) type.function || type.eqb (local_t l) type.cfunction.
Definition is_cfunction (l : local) : bool :=
  type.eqb (local_t l) type.cfunction.
Definition is_userdata (l : local) : bool :=
  type.eqb (local_t l) type.userdata || type.eqb (local_t l) type.lightuserdata.
Definition is_lightuserdata (l : local) : bool :=
  type.eqb (local_t l) type.lightuserdata.
Definition is_thread (l : local) : bool := type.eqb (local_t l) type.thread.
Definition is_table (l : local) : bool := type.eqb (local_t l) type.table.

(** [local::is_ref_type()] *)
Definition is_ref_type (l : local) : bool :=
  type.eqb (local_t l) type.string || type.eqb (local_t l) type.function
  || type.eqb (local_t l) type.userdata || type.eqb (local_t l) type.thread
  || type.eqb (local_t l) type.table.

(** ** [local]: checks *)

(** [local::check_state()] *)
Definition check_state (this : local) : M unit :=
  match local_s this with
  | None =>
      throw (logic_error
        "Cannot operate on a reference-type local that is not attached to a state")
  | Some _ => ret tt
  end.

(** [local::check_state_consistancy(lua_State *L)] *)
Definition check_state_consistancy (this : local) (L : lua_State_ptr) : M unit :=
  if bool_decide (local_L this ≠ None) && bool_decide (local_L this ≠ L)
  then throw (logic_error "Inconsistant state between locals")
  else ret tt.

(** [local::check_is_function()] *)
Definition check_is_function (this : local) : M unit :=
  if negb (type.eqb (local_t this) type.function)
  then throw (logic_error "Cannot call a local that is not a function")
  else ret tt.

(** [local::check_is_table()] *)
Definition check_is_table (this : local) : M unit :=
  if negb (type.eqb (local_t this) type.table)
  then throw (logic_error "Cannot index a local that is not a table")
  else ret tt.

(** ** [local]: constructors that do not touch an interpreter.  Members
    that a constructor does not initialise hold indeterminate values. *)

Definition mk_local (s : state_ptr) (L : lua_State_ptr) (t : type.t)
    (v : value_union) : local :=
  {| local_s := s; local_L := L; local_t := t; local_value := v;
     local_tindex := table_index_default;
     local_cargs := indeterminate_cargs env |}.

(** [local::local()] *)
Definition local_default : local := mk_local None None type.nil v_indeterminate.

(** [local::local(state &s)]: the tag is left uninitialised. *)
Definition local_of_state (s : state_ptr) : M local :=
  st <- deref_state s ;;
  ret (mk_local s (state_L st) (indeterminate_type env) v_indeterminate).

(** [local::local(bool b)] *)
Definition local_of_bool (b : bool) : local :=
  mk_local None None type.boolean (v_boolean b).

(** [local::local(lua_Number n)] *)
Definition local_of_number (n : lua_Number) : local :=
  mk_local None None type.number (v_number n).

(** [local::local(const char *str)] *)
Definition local_of_cstr (str : string) : M local :=
  p <- create_string str ;;
  ret (mk_local None None type.stateless_string (v_string p)).

(** [local::local(lua_CFunction f)] *)
Definition local_of_cfunction (f : lua_CFunction) : local :=
  mk_local None None type.cfunction (v_cfunction f).

(** [local::local(void *p)] *)
Definition local_of_pointer (p : void_ptr) : local :=
  mk_local None None type.lightuserdata (v_lightuserdata p).

(** [local::local(state &s, bool b)] *)
Definition local_of_state_bool (s : state_ptr) (b : bool) : M local :=
  st <- deref_state s ;;
  ret (mk_local s (state_L st) type.boolean (v_boolean b)).

(** [local::local(state &s, lua_Number n)] *)
Definition local_of_state_number (s : state_ptr) (n : lua_Number) : M local :=
  st <- deref_state s ;;
  ret (mk_local s (state_L st) type.number (v_number n)).

(** [local::local(local &&lcl)]: the new object and what is left of the
    source.  The proxy member of the new object is default-constructed. *)
Definition local_move (lcl : local) : local * local :=
  ({| local_s := local_s lcl; local_L := local_L lcl; local_t := local_t lcl;
      local_value := local_value lcl; local_tindex := table_index_default;
      local_cargs := 0 |},
   with_t type.nil lcl).

(** ** [local]: the registry anchor *)

(** [local::push_ref_value()] *)
Definition push_ref_value (this : local) : M unit :=
  r <- read_ref (local_value this) ;;
  lua_rawgeti_registry (local_L this) r.

(** [local::load_ref_value_no_type(int idx)] *)
Definition load_ref_value_no_type (this : local) (idx : Z) : M local :=
  lua_pushvalue (local_L this) idx ;;
  r <- luaL_ref_registry (local_L this) ;;
  ret (with_value (v_ref r) this).

(** [local::load_ref_value(int idx)] *)
Definition load_ref_value (this : local) (idx : Z) : M local :=
  let L := local_L this in
  b1 <- lua_isstring L idx ;;
  this <-
    (if b1 : bool then ret (with_t type.string this) else
     b2 <- lua_isfunction L idx ;;
     if b2 : bool then ret (with_t type.function this) else
     b3 <- lua_isuserdata L idx ;;
     if b3 : bool then ret (with_t type.userdata this) else
     b4 <- lua_isthread L idx ;;
     if b4 : bool then ret (with_t type.thread this) else
     b5 <- lua_istable L idx ;;
     if b5 : bool then ret (with_t type.table this) else
     ret this) ;;
  load_ref_value_no_type this idx.

(** [local::load_value(int idx)], the LuaJIT branch *)
Definition load_value (this : local) (idx : Z) : M local :=
  let L := local_L this in
  c1 <- lua_isnil L idx ;;
  if c1 : bool then ret (with_t type.nil this) else
  c2 <- lua_isboolean L idx ;;
  if c2 : bool then
    b <- lua_toboolean L idx ;;
    ret (with_value (v_boolean b) (with_t type.boolean this))
  else
  c3 <- lua_isnumber L idx ;;
  if c3 : bool then
    i <- lua_tointeger L idx ;;
    n <- lua_tonumber L idx ;;
    if Double.eqb (Double.of_Z i) n then
      i' <- lua_tointeger L idx ;;
      ret (with_value (v_integer i') (with_t type.integer this))
    else
      n' <- lua_tonumber L idx ;;
      ret (with_value (v_number n') (with_t type.number this))
  else
  c4 <- lua_iscfunction L idx ;;
  if c4 : bool then
    f <- lua_tocfunction L idx ;;
    ret (with_value (v_cfunction f) (with_t type.cfunction this))
  else
  c5 <- lua_islightuserdata L idx ;;
  if c5 : bool then
    p <- lua_touserdata L idx ;;
    ret (with_value (v_lightuserdata p) (with_t type.lightuserdata this))
  else
  load_ref_value this idx.

(** [local::push_value(lua_State *L)].  The reference kinds push through
    [push_ref_value], which uses [this->L]. *)
Definition push_value (this : local) (L : lua_State_ptr) : M unit :=
  let L := match L with None => local_L this | Some _ => L end in
  match local_t this with
  | type.nil => lua_pushnil L
  | type.boolean => b <- read_boolean (local_value this) ;; lua_pushboolean L b
  | type.number => n <- read_number (local_value this) ;; lua_pushnumber L n
  | type.integer => i <- read_integer (local_value this) ;; lua_pushinteger L i
  | type.string => push_ref_value this
  | type.stateless_string =>
      p <- read_string (local_value this) ;;
      str <- load_cstring p ;;
      lua_pushstring L str
  | type.function => push_ref_value this
  | type.cfunction =>
      f <- read_cfunction (local_value this) ;; lua_pushcfunction L f
  | type.userdata => push_ref_value this
  | type.lightuserdata =>
      p <- read_lightuserdata (local_value this) ;; lua_pushlightuserdata L p
  | type.thread => push_ref_value this
  | type.table => push_ref_value this
  end.

(** ** [local]: the remaining constructors bound to a context *)

(** [local::local(state &s, const char *str)] *)
Definition local_of_state_cstr (s : state_ptr) (str : string) : M local :=
  st <- deref_state s ;;
  let this := mk_local s (state_L st) type.string v_indeterminate in
  lua_pushstring (state_L st) str ;;
  load_ref_value this (-1).

(** [local::local(state &s, lua_CFunction f)] *)
Definition local_of_state_cfunction (s : state_ptr) (f : lua_CFunction)
  : M local :=
  st <- deref_state s ;;
  ret (mk_local s (state_L st) type.cfunction (v_cfunction f)).

(** [local::local(state &s, void *p)] *)
Definition local_of_state_pointer (s : state_ptr) (p : void_ptr) : M local :=
  st <- deref_state s ;;
  ret (mk_local s (state_L st) type.lightuserdata (v_lightuserdata p)).

(** ** [local]: release, copy, destruction *)

(** [local::release()].  [tindex = table_index()] assigns from a
    default-constructed temporary, whose destructor has nothing to do. *)
Definition release (this : local) : M local :=
  this <-
    (if is_table this then
       ti <- table_index_assign (local_tindex this) table_index_default ;;
       ret (with_tindex ti this)
     else ret this) ;;
  (if bool_decide (local_L this ≠ None) && is_ref_type this then
     r <- read_ref (local_value this) ;;
     luaL_unref_registry (local_L this) r
   else if type.eqb (local_t this) type.stateless_string then
     p <- read_string (local_value this) ;;
     release_string p
   else ret tt) ;;
  ret this.

(** [local::~local()]: the body, then the destructor of the member
    [tindex] *)
Definition local_dtor (this : local) : M unit :=
  this <- release this ;;
  table_index_dtor (local_tindex this).

(** [local::copy_value(const local &lcl)] *)
Definition copy_value (this lcl : local) : M local :=
  let this :=
    {| local_s := local_s lcl; local_L := local_L lcl; local_t := local_t lcl;
       local_value := local_value lcl; local_tindex := local_tindex this;
       local_cargs := 0 |} in
  this <-
    (if is_ref_type this then
       push_ref_value this ;;
       this <- load_ref_value_no_type this (-1) ;;
       lua_pop (local_L this) 1 ;;
       ret this
     else ret this) ;;
  if type.eqb (local_t this) type.stateless_string then
    p <- read_string (local_value lcl) ;;
    p' <- copy_string p ;;
    ret (with_value (v_string p') this)
  else ret this.

(** [local::local(const local &lcl)] *)
Definition local_copy (lcl : local) : M local :=
  copy_value
    {| local_s := None; local_L := None; local_t := indeterminate_type env;
       local_value := v_indeterminate; local_tindex := table_index_default;
       local_cargs := indeterminate_cargs env |}
    lcl.

(** [local::operator=(const local &rhs)], for two objects given by value *)
Definition local_assign (this rhs : local) : M local :=
  this <- release this ;;
  copy_value this rhs.

(** The same operator on objects named by their addresses, so that both
    operands may be one object: every access to [rhs] reads the store as
    the assignment left it. *)
Definition load_local (a : nat) : M local :=
  fun w => match locals w !! a with Some l => Ok l w | None => Undefined end.

Definition store_local (a : nat) (l : local) : M unit :=
  fun w => Ok tt (set_locals (<[a := l]> (locals w)) w).

Definition local_assign_at (this rhs : nat) : M unit :=
  self <- load_local this ;;
  self <- release self ;;
  store_local this self ;;
  r <- load_local rhs ;;
  self <- copy_value self r ;;
  store_local this self.

(** A parameter of class type passed by value: the callee works on a copy,
    which is destroyed when the callee returns or throws. *)
Definition by_value {A : Type} (arg : local) (body : local -> M A) : M A :=
  p <- local_copy arg ;;
  finally (body p) (local_dtor p).

(** A variable of class type in a block: destroyed at the end of the
    block. *)
Definition scoped {A : Type} (l : local) (block : M A) : M A :=
  finally block (local_dtor l).

(** ** [local]: numbers *)

(** The two [int]s that overlay a [double] in memory, in address order *)
Definition double_words (d : lua_Number) : list Z :=
  let b := Double.bits d in
  let lo := to_int (Z.land b (Z.ones 32)) in
  let hi := to_int (Z.shiftr b 32) in
  match checkEndianness env with
  | Platform.Little => [lo; hi]
  | Platform.Big => [hi; lo]
  end.

(** [6755399441055744.0], that is [2^52 + 2^51] *)
Definition magic : lua_Number := Double.make 3 51.

(** [local::numberToInteger(lua_Number number)] *)
Definition numberToInteger (number : lua_Number) : lua_Integer :=
  let u := Double.add number magic in
  let i :=
    match checkEndianness env with Platform.Big => 1%nat | _ => 0%nat end in
  nth i (double_words u) 0.

(** [assert(b)] *)
Definition assert (b : bool) : M unit := if b then ret tt else undefined.

(** [local::integerize()] *)
Definition integerize (this : local) : M local :=
  assert (type.eqb (local_t this) type.number
          || type.eqb (local_t this) type.integer) ;;
  if type.eqb (local_t this) type.integer then ret this else
  n <- read_number (local_value this) ;;
  ret (with_t type.integer (with_value (v_integer (numberToInteger n)) this)).

(** ** [local]: mutators *)

(** [local::set_as_nil()] *)
Definition set_as_nil (this : local) : M local :=
  this <- release this ;; ret (with_t type.nil this).

(** [local::set_as_boolean(bool b)] *)
Definition set_as_boolean (this : local) (b : bool) : M local :=
  this <- release this ;;
  ret (with_value (v_boolean b) (with_t type.boolean this)).

(** [local::set_as_number(lua_Number n)] *)
Definition set_as_number (this : local) (n : lua_Number) : M local :=
  this <- release this ;;
  integerize (with_value (v_number n) (with_t type.number this)).

(** [local::set_as_integer(lua_Integer i)] *)
Definition set_as_integer (this : local) (i : lua_Integer) : M local :=
  this <- release this ;;
  ret (with_value (v_integer i) (with_t type.integer this)).

(** [local::set_as_string(const char *s)] *)
Definition set_as_string (this : local) (s : string) : M local :=
  match local_L this with
  | None =>
      this <- release this ;;
      let this := with_t type.stateless_string this in
      let slen := strlen s in
      p <- malloc (slen + 1) ;;
      store_bytes p (cstring_bytes s) ;;
      ret (with_value (v_string p) this)
  | Some _ =>
      check_state this ;;
      this <- release this ;;
      let this := with_t type.string this in
      lua_pushstring (local_L this) s ;;
      this <- load_ref_value_no_type this (-1) ;;
      lua_pop (local_L this) 1 ;;
      ret this
  end.

(** [local::set_as_cfunction(lua_CFunction f)] *)
Definition set_as_cfunction (this : local) (f : lua_CFunction) : M local :=
  this <- release this ;;
  ret (with_value (v_cfunction f) (with_t type.cfunction this)).

(** [local::set_as_function(std::function<void()> f)] *)
Definition set_as_function (this : local) : M local :=
  this <- release this ;; ret (with_t type.function this).

(** [local::set_as_lightuserdata(void *p)] *)
Definition set_as_lightuserdata (this : local) (p : void_ptr) : M local :=
  this <- release this ;;
  ret (with_value (v_lightuserdata p) (with_t type.lightuserdata this)).

(** ** [local]: accessors *)

(** [local::to_boolean()] *)
Definition to_boolean (this : local) : M bool :=
  if type.eqb (local_t this) type.boolean
  then read_boolean (local_value this) else ret false.

(** [local::to_number()] *)
Definition to_number (this : local) : M lua_Number :=
  if type.eqb (local_t this) type.number then read_number (local_value this)
  else if type.eqb (local_t this) type.integer then
    i <- read_integer (local_value this) ;; ret (Double.of_Z i)
  else ret (Double.of_Z 0).

(** [local::to_integer()] *)
Definition to_integer (this : local) : M lua_Integer :=
  if type.eqb (local_t this) type.integer then read_integer (local_value this)
  else if type.eqb (local_t this) type.number then
    n <- read_number (local_value this) ;; ret (numberToInteger n)
  else ret 0.

(** [local::to_string()]; [None] is the null pointer *)
Definition to_string (this : local) : M (option string) :=
  if type.eqb (local_t this) type.string then
    push_ref_value this ;;
    s <- lua_tostring (local_L this) (-1) ;;
    lua_pop (local_L this) 1 ;;
    ret s
  else if type.eqb (local_t this) type.stateless_string then
    p <- read_string (local_value this) ;;
    s <- load_cstring p ;;
    ret (Some s)
  else ret None.

(** [local::to_cfunction()]; [0] is the null pointer *)
Definition to_cfunction (this : local) : M lua_CFunction :=
  if type.eqb (local_t this) type.cfunction
  then read_cfunction (local_value this) else ret 0.

(** [local::to_userdata()] *)
Definition to_userdata (this : local) : M void_ptr :=
  if type.eqb (local_t this) type.userdata then
    push_ref_value this ;;
    p <- lua_touserdata (local_L this) (-1) ;;
    lua_pop (local_L this) 1 ;;
    ret p
  else if type.eqb (local_t this) type.lightuserdata then
    read_lightuserdata (local_value this)
  else ret 0.

(** ** [local]: table access *)

(** [local::table_set(local key, local value)], on its parameters *)
Definition table_set_body (this key value : local) : M unit :=
  let L := local_L this in
  check_is_table this ;;
  check_state_consistancy key L ;;
  check_state_consistancy value L ;;
  push_ref_value this ;;
  push_value key L ;;
  push_value value L ;;
  lua_settable L (-3) ;;
  lua_pop L 1.

Definition table_set (this key value : local) : M unit :=
  by_value key (fun key =>
  by_value value (fun value => table_set_body this key value)).

(** [local::table_set(lua_Integer key, local value)] *)
Definition table_set_integer_body (this : local) (key : lua_Integer)
    (value : local) : M unit :=
  let L := local_L this in
  check_is_table this ;;
  check_state_consistancy value L ;;
  push_ref_value this ;;
  lua_pushinteger L key ;;
  push_value value L ;;
  lua_settable L (-3) ;;
  lua_pop L 1.

Definition table_set_integer (this : local) (key : lua_Integer)
    (value : local) : M unit :=
  by_value value (fun value => table_set_integer_body this key value).

(** [local::table_get(local key)] *)
Definition table_get_body (this key : local) : M local :=
  let L := local_L this in
  check_is_table this ;;
  check_state_consistancy key L ;;
  push_ref_value this ;;
  push_value key L ;;
  lua_gettable L (-2) ;;
  lcl <- local_of_state (local_s this) ;;
  lcl <- load_value lcl (-1) ;;
  lua_pop L 1 ;;
  ret lcl.

Definition table_get (this key : local) : M local :=
  by_value key (fun key => table_get_body this key).

(** [local::table_get(lua_Integer key)] *)
Definition table_get_integer (this : local) (key : lua_Integer) : M local :=
  let L := local_L this in
  check_is_table this ;;
  push_ref_value this ;;
  lua_pushinteger L key ;;
  lua_gettable L (-2) ;;
  lcl <- local_of_state (local_s this) ;;
  lcl <- load_value lcl (-1) ;;
  lua_pop L 1 ;;
  ret lcl.

(** ** [state]: the methods that hand out handles *)

(** [state::create_table(int narr, int nrec)] *)
Definition state_create_table (this : state_ptr) (narr nrec : Z) : M local :=
  st <- deref_state this ;;
  lua_createtable (state_L st) narr nrec ;;
  lcl <- local_of_state this ;;
  let lcl := with_t type.table lcl in
  load_ref_value_no_type lcl (-1).

(** [state::create_string(const char *s)] *)
Definition state_create_string (this : state_ptr) (s : string) : M local :=
  lcl <- local_of_state this ;;
  set_as_string lcl s.

(** [state::get_global(const char *n)] *)
Definition state_get_global (this : state_ptr) (n : string) : M local :=
  st <- deref_state this ;;
  lua_getglobal (state_L st) n ;;
  lcl <- local_of_state this ;;
  lcl <- load_value lcl (-1) ;;
  lua_pop (state_L st) 1 ;;
  ret lcl.

(** [state::set_global(local lcl, const char *n)] *)
Definition state_set_global_body (this : state_ptr) (lcl : local) (n : string)
  : M unit :=
  st <- deref_state this ;;
  lua_setglobal (state_L st) n ;;
  push_value lcl None.

Definition state_set_global (this : state_ptr) (lcl : local) (n : string)
  : M unit :=
  by_value lcl (fun lcl => state_set_global_body this lcl n).

(** ** [table_index]: the remaining members *)

(** [table_index::table_index(state &s, int tblRef, local &idx)] *)
Definition table_index_ctor (s : state_ptr) (tblRef : Z) (idx : local)
  : M table_index :=
  st <- deref_state s ;;
  check_state_consistancy idx (state_L st) ;;
  push_value idx (state_L st) ;;
  r <- luaL_ref_registry (state_L st) ;;
  ret {| ti_s := s; ti_tblRef := tblRef; ti_idxRef := r |}.

(** [table_index::table_index(const table_index &ti)] *)
Definition table_index_copy (ti : table_index) : M table_index :=
  st <- deref_state (ti_s ti) ;;
  lua_rawgeti_registry (state_L st) (ti_idxRef ti) ;;
  r <- luaL_ref_registry (state_L st) ;;
  ret {| ti_s := ti_s ti; ti_tblRef := ti_tblRef ti; ti_idxRef := r |}.

(** [table_index::get_value()] *)
Definition table_index_get_value (this : table_index) : M local :=
  table_index_check_valid this ;;
  if ti_tblRef this =? LUA_REFNIL then
    throw (logic_error
      "Attempt to get the value of a table_index that is not connected to a table")
  else
    st <- deref_state (ti_s this) ;;
    lua_rawgeti_registry (state_L st) (ti_tblRef this) ;;
    lua_rawgeti_registry (state_L st) (ti_idxRef this) ;;
    lua_gettable (state_L st) (-2) ;;
    l <- local_of_state (ti_s this) ;;
    l <- load_value l (-1) ;;
    lua_pop (state_L st) 2 ;;
    ret l.

(** [table_index::operator local()] *)
Definition table_index_to_local (this : table_index) : M local :=
  table_index_get_value this.

(** [table_index::operator=(local rhs)], on its parameter *)
Definition table_index_assign_local_body (this : table_index) (rhs : local)
  : M unit :=
  table_index_check_valid this ;;
  st <- deref_state (ti_s this) ;;
  check_state_consistancy rhs (state_L st) ;;
  lua_rawgeti_registry (state_L st) (ti_tblRef this) ;;
  lua_rawgeti_registry (state_L st) (ti_idxRef this) ;;
  push_value rhs (state_L st) ;;
  lua_settable (state_L st) (-3) ;;
  lua_pop (state_L st) 1.

Definition table_index_assign_local (this : table_index) (rhs : local)
  : M unit :=
  by_value rhs (fun rhs => table_index_assign_local_body this rhs).

(** ** [local]: calls, under LUA_WRAPPER_TABLE_RETURN *)

(** [local::prep_call()] *)
Definition prep_call (this : local) : M local :=
  push_ref_value this ;;
  ret (with_cargs 0 this).

(** [local::push_call_args<local>(local arg)], on its parameter *)
Definition push_call_args_body (this arg : local) : M local :=
  check_state_consistancy arg (local_L this) ;;
  push_value arg (local_L this) ;;
  ret (with_cargs (to_uint32 (local_cargs this + 1)) this).

Definition push_call_arg (this arg : local) : M local :=
  by_value arg (fun arg => push_call_args_body this arg).

(** [local::push_call_args(T arg, Args... args)]: the pack is unfolded one
    argument at a time, left to right, and each argument reaches the
    overload for [local] as a parameter object of its own. *)
Fixpoint push_call_args (this : local) (args : list local) : M local :=
  match args with
  | [] => ret this
  | arg :: args' =>
      this <- push_call_arg this arg ;;
      push_call_args this args'
  end.

(** The body of the loop of [do_call] that fills the result table *)
Definition do_call_store (this tbl : local) (i : Z) : M unit :=
  retv <- local_of_state (local_s this) ;;
  retv <- load_value retv (- i - 1) ;;
  scoped retv (table_set_integer tbl i retv).

(** [for (int i = first; i < retc; i++)], with [n] iterations left *)
Fixpoint do_call_loop (this tbl : local) (first : Z) (n : nat) : M unit :=
  match n with
  | O => ret tt
  | S n' =>
      do_call_store this tbl first ;;
      do_call_loop this tbl (first + 1) n'
  end.

(** [local::do_call()] *)
Definition do_call (this : local) : M local :=
  let L := local_L this in
  prevTop <- lua_gettop L ;;
  status <- lua_pcall L (to_int (local_cargs this)) LUA_MULTRET 0 ;;
  if negb (status =? 0) then
    err <- lua_tostring L (-1) ;;
    lua_pop L 1 ;;
    match err with
    | Some what => throw (runtime_error what)
    | None => undefined
    end
  else
  currTop <- lua_gettop L ;;
  let retc := to_int (to_uint32 (- prevTop + currTop + local_cargs this + 1)) in
  if retc =? 0 then local_of_state (local_s this)
  else if retc =? 1 then
    lcl <- local_of_state (local_s this) ;;
    load_value lcl (-1)
  else
    tbl <- state_create_table (local_s this) retc 0 ;;
    do_call_loop this tbl 0 (Z.to_nat retc) ;;
    lua_pop L retc ;;
    ret tbl.

(** [local::operator()()], [local::operator()(T arg)] and
    [local::operator()(T arg, Args... args)], on their parameters.  The
    result comes with the callee as the call left it ([cargs] is a member
    of the callee). *)
Definition local_call_body (this : local) (args : list local)
  : M (local * local) :=
  match args with
  | [] =>
      this <- prep_call this ;;
      r <- do_call this ;;
      ret (r, this)
  | _ :: _ =>
      check_is_function this ;;
      this <- prep_call this ;;
      this <- push_call_args this args ;;
      r <- do_call this ;;
      ret (r, this)
  end.

(** Arguments are passed by value: every parameter is a copy of the
    caller's object and is destroyed after the call.  In a call with
    several arguments the templates copy the first argument a third time
    and move the last one where the model copies it a second time; a copy
    of a handle of a value kind leaves no trace, so the difference shows
    only for arguments of reference kinds, which the statements about
    calls with arguments leave out. *)
Fixpoint by_values {A : Type} (args : list local) (body : list local -> M A)
  : M A :=
  match args with
  | [] => body []
  | arg :: args' =>
      by_value arg (fun p => by_values args' (fun ps => body (p :: ps)))
  end.

Definition local_call (this : local) (args : list local) : M (local * local) :=
  by_values args (local_call_body this).

End Wrapper.

(* ===================================================================== *)
(** * Observations *)
(* ===================================================================== *)

(** The interpreter behind a [lua_State*] *)
Definition interp_of (w : world) (L : lua_State_ptr) : option lua_State :=
  p ← L; interps w !! p.

(** [lua_gettop] as seen from outside *)
Definition stack_depth (w : world) (L : lua_State_ptr) : option nat :=
  st ← interp_of w L; Some (length (stack st)).

Definition stack_of (w : world) (L : lua_State_ptr) : option (list lval) :=
  st ← interp_of w L; Some (stack st).

(** The value that the registry anchor of a handle refers to *)
Definition referent (l : local) (w : world) : option lval :=
  match local_value l with
  | v_ref r => st ← interp_of w (local_L l); Some (Interp.registry_get r st)
  | _ => None
  end.

(** The body of the table at an address *)
Definition table_at (w : world) (L : lua_State_ptr) (a : nat) : option table_body :=
  st ← interp_of w L; tables (heap st) !! a.

Definition global_at (w : world) (L : lua_State_ptr) (n : string) : option lval :=
  st ← interp_of w L; Some (default LNil (globals (heap st) !! n)).

(** Number of protected calls made on an interpreter *)
Definition pcalls_of (w : world) (L : lua_State_ptr) : option nat :=
  st ← interp_of w L; Some (pcalls st).

(** Number of live [malloc]ed buffers *)
Definition live_buffers (w : world) : nat := size (blocks w).

(* ===================================================================== *)
(** * A host and an interpreter to run the code on *)
(* ===================================================================== *)

Definition num (z : Z) : lval := LNumber (Double.of_Z z).

(** [3.0] and [3.5] *)
Definition three : lua_Number := Double.make 3 0.
Definition three_and_a_half : lua_Number := Double.make 7 (-1).

(** A little-endian host whose interpreter converts no string to a number;
    the uninitialised tag happens to read as [userdata]. *)
Definition sample_env : environment :=
  {| checkEndianness := Platform.Little;
     str2number := fun _ => None;
     number2str := fun _ => "0";
     cfunction_body := fun _ _ h => (CallReturn [], h);
     indeterminate_type := type.userdata;
     indeterminate_cargs := 0 |}.

Definition returning (rs : list lval) : function_body :=
  fun _ h => (CallReturn rs, h).

Definition raising (e : lval) : function_body :=
  fun _ h => (CallError e, h).

(** An interpreter with four closures anchored at references 1 to 4 (they
    return nothing, [7], [10, 20], and raise ["boom"]) and a table anchored
    at reference 5. *)
Definition sample_interp : lua_State :=
  {| stack := [];
     heap := {| registry := {[ 1 := LFunction 0; 2 := LFunction 1;
                               3 := LFunction 2; 4 := LFunction 3;
                               5 := LTable 0 ]};
                globals := ∅;
                tables := {[ 0%nat := [] ]};
                next_table := 1 |};
     closures := {[ 0%nat := returning [];
                    1%nat := returning [num 7];
                    2%nat := returning [num 10; num 20];
                    3%nat := raising (LString "boom") ]};
     pcalls := 0 |}.

(** One [state] object at address 0 that owns interpreter 0, and a second
    one at address 1 that owns interpreter 1, whose registry anchors the
    string ["k"] at reference 1. *)
Definition sample_world : world :=
  {| interps := {[ 0%nat := sample_interp;
                   1%nat := {| stack := [];
                               heap := set_registry {[ 1 := LString "k" ]}
                                         empty_heap;
                               closures := ∅; pcalls := 0 |} ]};
     next_interp := 2;
     states := {[ 0%nat := {| state_L := Some 0%nat |};
                  1%nat := {| state_L := Some 1%nat |} ]};
     locals := ∅;
     blocks := ∅;
     next_block := 0 |}.

(** A handle of the given tag anchored at reference [r] of interpreter 0 *)
Definition anchored (env : environment) (t : type.t) (r : Z) : local :=
  mk_local env (Some 0%nat) (Some 0%nat) t (v_ref r).

Definition L0 : lua_State_ptr := Some 0%nat.
Definition L1 : lua_State_ptr := Some 1%nat.

(* ===================================================================== *)
(** * Predicates used in the statements *)
(* ===================================================================== *)

(** The interpreter [p] went from [st] to a state with stack [stk]; nothing
    else in the world moved. *)
Definition moved (w : world) (p : nat) (stk : list lval) (w' : world) : Prop :=
  exists st', w' = put_interp p st' w /\ stack st' = stk.

(** The tags whose payload is a registry reference *)
Definition ref_kind (t : type.t) : bool :=
  match t with
  | type.string | type.function | type.userdata | type.thread | type.table =>
      true
  | _ => false
  end.

(** The tags whose payload lives in the handle itself *)
Definition value_kind (t : type.t) : bool :=
  match t with
  | type.nil | type.boolean | type.number | type.integer | type.cfunction
  | type.lightuserdata => true
  | _ => false
  end.

(** A handle is attached to interpreter [p]: its [L] points to [p], which is
    alive, and a reference kind holds a registry reference.  A stateless
    string is never attached. *)
Definition attached (w : world) (l : local) (p : nat) : Prop :=
  local_L l = Some p /\ is_Some (interps w !! p) /\
  (value_kind (local_t l) = true \/
   ref_kind (local_t l) = true /\ exists r, local_value l = v_ref r).

(** A handle that [operator()] can push and call: it is attached to the
    live interpreter [A] through a live [state] object, and its reference
    leads to a value whose behaviour under a call is [body] (a function, or
    anything else, which raises the "attempt to call" error). *)
Definition invocable (env : environment) (w : world) (this : local) (A : nat) (st : lua_State)
    (body : function_body) : Prop :=
  local_L this = Some A /\ interps w !! A = Some st
  /\ (exists sa, local_s this = Some sa
                 /\ states w !! sa = Some {| state_L := Some A |})
  /\ exists r, local_value this = v_ref r
               /\ Interp.body_of env st (Interp.registry_get r st) = Some body.


(** Operations of the holders of one stateless-string buffer *)
Inductive pool_op := Retain | Release.

Section PoolOps.
Context (env : environment).

(** Copies and releases of the buffer behind [p], in the given order *)
Fixpoint run_ops (p : char_ptr) (ops : list pool_op) : M unit :=
  match ops with
  | [] => ret tt
  | Retain :: ops' => copy_string env p ;; run_ops p ops'
  | Release :: ops' => release_string env p ;; run_ops p ops'
  end.

(** The reference count after a sequence of operations, from the count [c] *)
Fixpoint count_after (c : Z) (ops : list pool_op) : Z :=
  match ops with
  | [] => c
  | Retain :: ops' => count_after (c + 1) ops'
  | Release :: ops' => count_after (c - 1) ops'
  end.

(** No operation of the sequence releases the last holder, and the count
    stays below [2^32]. *)
Fixpoint stays_live (c : Z) (ops : list pool_op) : bool :=
  match ops with
  | [] => true
  | Retain :: ops' => (c + 1 <? 2 ^ 32) && stays_live (c + 1) ops'
  | Release :: ops' => (1 <? c) && stays_live (c - 1) ops'
  end.

(** The block of a stateless string: the count, then the characters and
    the terminating NUL *)
Definition buffer (c : Z) (str : string) : list byte :=
  encode32 (checkEndianness env) c ++ cstring_bytes str.

End PoolOps.

(** The exception of [check_state_consistancy] *)
Definition inconsistent : exception :=
  logic_error "Inconsistant state between locals".


(* ===================================================================== *)
(** * What anchoring and classification compute *)
(* ===================================================================== *)

Section Classification.
Context (env : environment).

(** The reference that [luaL_ref] hands out for the next value that is not
    nil: the head of the free list, or the slot past the end *)
Definition next_ref (st : lua_State) : Z :=
  let free := to_int (Interp.tointeger env (Interp.registry_get FREELIST_REF st)) in
  if free =? 0 then to_int (Interp.registry_objlen st + 1) else free.

(** A number that survives the conversion to [lua_Integer] and back *)
Definition integral (n : lua_Number) : bool :=
  Double.eqb (Double.of_Z (double_to_integer n)) n.

(** The tag of a value of the interpreter, by the value alone *)
Definition tag_of (v : lval) : type.t :=
  match v with
  | LNil => type.nil
  | LBoolean _ => type.boolean
  | LNumber n => if integral n then type.integer else type.number
  | LString str =>
      match str2number env str with
      | Some n => if integral n then type.integer else type.number
      | None => type.string
      end
  | LFunction _ => type.function
  | LCFunction _ => type.cfunction
  | LUserdata _ => type.userdata
  | LLightuserdata _ => type.lightuserdata
  | LThread _ => type.thread
  | LTable _ => type.table
  end.

(** The payload that goes with the tag: [old] is the payload the handle had
    before, [r] the reference that the registry hands out *)
Definition payload_of (v : lval) (old : value_union) (r : Z) : value_union :=
  let numeric n := if integral n then v_integer (double_to_integer n)
                   else v_number n in
  match v with
  | LNil => old
  | LBoolean b => v_boolean b
  | LNumber n => numeric n
  | LString str =>
      match str2number env str with
      | Some n => numeric n
      | None => v_ref r
      end
  | LCFunction f => v_cfunction f
  | LLightuserdata p => v_lightuserdata p
  | LFunction _ | LUserdata _ | LThread _ | LTable _ => v_ref r
  end.

End Classification.

(** [st'] is [st] but for the registry slot [r] and the head of the free
    list. *)
Definition anchors_at (r : Z) (st st' : lua_State) : Prop :=
  stack st' = stack st
  /\ tables (heap st') = tables (heap st)
  /\ globals (heap st') = globals (heap st)
  /\ next_table (heap st') = next_table (heap st)
  /\ closures st' = closures st
  /\ pcalls st' = pcalls st
  /\ forall m, m <> r -> m <> FREELIST_REF ->
       Interp.registry_get m st' = Interp.registry_get m st.

(** The value that [push_value] pushes for a handle whose payload lives in
    the handle itself, when the tag and the active member of the union
    agree *)
Definition pushed_value (l : local) : option lval :=
  match local_t l, local_value l with
  | type.nil, _ => Some LNil
  | type.boolean, v_boolean b => Some (LBoolean b)
  | type.number, v_number n => Some (LNumber n)
  | type.integer, v_integer i => Some (LNumber (Double.of_Z i))
  | type.cfunction, v_cfunction f => Some (LCFunction f)
  | type.lightuserdata, v_lightuserdata p => Some (LLightuserdata p)
  | _, _ => None
  end.

(** A handle that passes [check_state_consistancy] against [L] *)
Definition consistent_with (l : local) (L : lua_State_ptr) : Prop :=
  local_L l = None \/ local_L l = L.

(** A key that [lua_settable] accepts *)
Definition valid_key (k : lval) : bool :=
  match k with
  | LNil => false
  | LNumber n => negb (Double.isnan n)
  | _ => true
  end.

(** The parameter object that the copy constructor makes of an argument
    whose payload lives in the handle itself *)
Definition parameter (arg : local) : local :=
  {| local_s := local_s arg; local_L := local_L arg; local_t := local_t arg;
     local_value := local_value arg; local_tindex := table_index_default;
     local_cargs := 0 |}.

(** The exception of [check_is_table] *)
Definition not_a_table : exception :=
  logic_error "Cannot index a local that is not a table".

(** A handle of kind table that leads to the table at address [a] *)
Definition table_handle (w : world) (this : local) (A : nat) (st : lua_State)
    (a : nat) (tb : table_body) : Prop :=
  local_t this = type.table /\ local_L this = Some A
  /\ interps w !! A = Some st
  /\ (exists r, local_value this = v_ref r
                /\ Interp.registry_get r st = LTable a)
  /\ tables (heap st) !! a = Some tb.

(** The [state] object behind a handle is alive and owns interpreter [A] *)
Definition state_alive (w : world) (s : state_ptr) (A : nat) : Prop :=
  exists sa, s = Some sa /\ states w !! sa = Some {| state_L := Some A |}.

(** A literal without an embedded NUL: what [std::strlen] and the model's
    [strlen] agree on *)
Definition no_nul (str : string) : bool :=
  forallb (fun b => negb (Byte.eqb b x00)) (list_byte_of_string str).

(** A proxy bound to the table at address [a] under the key [k]: its
    context is alive, and its two references lead to the table and to the
    key. *)
Definition bound_proxy (w : world) (ti : table_index) (A : nat)
    (st : lua_State) (a : nat) (tb : table_body) (k : lval) : Prop :=
  state_alive w (ti_s ti) A /\ interps w !! A = Some st
  /\ ti_tblRef ti <> LUA_REFNIL
  /\ Interp.registry_get (ti_tblRef ti) st = LTable a
  /\ tables (heap st) !! a = Some tb
  /\ Interp.registry_get (ti_idxRef ti) st = k.

(* ===================================================================== *)
(** * Members of [local] that the sections above did not need *)
(* ===================================================================== *)

Section Lengths.
Context (env : environment).

(** The size of the block of a full userdata, which the interpreter
    records when the block is made *)
Context (udata_size : nat -> Z).

(** A border of a table: the first [n] with [t[n + 1]] nil *)
Fixpoint table_border_from (tb : table_body) (fuel : nat) (n : Z) : Z :=
  match fuel with
  | O => n
  | S fuel' =>
      match tab_get (LNumber (Double.of_Z (n + 1))) tb with
      | LNil => n
      | _ => table_border_from tb fuel' (n + 1)
      end
  end.

Definition table_border (tb : table_body) : Z :=
  table_border_from tb (length tb) 0.

(** [lua_objlen(L, idx)]: the length of a string, the size of a userdata,
    a border of a table; a number is converted to a string in place; [0]
    for anything else. *)
Definition objlen (idx : Z) (st : lua_State) : lua_result Z :=
  match Interp.index2pos st idx with
  | Some p =>
      match stack st !! p with
      | Some (LString str) => LuaOk (strlen str) st
      | Some (LNumber n) =>
          let str := number2str env n in
          LuaOk (strlen str) (set_stack (<[p := LString str]> (stack st)) st)
      | Some (LUserdata u) => LuaOk (udata_size u) st
      | Some (LTable a) =>
          match tables (heap st) !! a with
          | Some tb => LuaOk (table_border tb) st
          | None => LuaUB
          end
      | Some _ => LuaOk 0 st
      | None => LuaUB
      end
  | None => LuaUB
  end.

Definition lua_objlen (L : lua_State_ptr) (idx : Z) : M Z :=
  lua L (objlen idx).

(** [local::length()] *)
Definition local_length (this : local) : M Z :=
  if type.eqb (local_t this) type.table || type.eqb (local_t this) type.string
  then
    push_ref_value this ;;
    n <- lua_objlen (local_L this) (-1) ;;
    lua_pop (local_L this) 1 ;;
    ret n
  else if type.eqb (local_t this) type.stateless_string then
    p <- read_string (local_value this) ;;
    s <- load_cstring p ;;
    ret (strlen s)
  else ret 0.

(** [local::duplicate_ref()]: the reference it returns, and the handle *)
Definition duplicate_ref (this : local) : M (Z * local) :=
  assert (is_ref_type this) ;;
  r <- read_ref (local_value this) ;;
  lua_rawgeti_registry (local_L this) r ;;
  r' <- luaL_ref_registry env (local_L this) ;;
  ret (r', with_value (v_ref r') this).

End Lengths.

(** The exception of [table_index::check_valid] *)
Definition invalid_proxy : exception :=
  logic_error "Attempted to use an invalid table_index object".


(** The exception of [check_is_function] *)
Definition not_a_function : exception :=
  logic_error "Cannot call a local that is not a function".

(** The sample world with the value [v] on the stack of interpreter 0 *)
Definition with_top (v : lval) : world :=
  put_interp 0 (push v sample_interp) sample_world.

(** The sample interpreter with the global [n] bound to [v] *)
Definition interp_with_global (n : string) (v : lval) : lua_State :=
  set_heap (set_globals {[ n := v ]} (heap sample_interp)) sample_interp.

Definition with_global (n : string) (v : lval) : world :=
  put_interp 0 (interp_with_global n v) sample_world.

(** The sample interpreter with the body [tb] for its table *)
Definition interp_with_table (tb : table_body) : lua_State :=
  set_heap (set_tables {[ 0%nat := tb ]} (heap sample_interp)) sample_interp.

Definition with_table (tb : table_body) : world :=
  put_interp 0 (interp_with_table tb) sample_world.

(** A boolean handle that belongs to interpreter [p] *)
Definition flag_of (p : nat) (b : bool) : local :=
  mk_local sample_env (Some p) (Some p) type.boolean (v_boolean b).

(** A proxy of the sample world for the table at reference 5, under the key
    anchored at reference 1 *)
Definition sample_proxy : table_index :=
  {| ti_s := Some 0%nat; ti_tblRef := 5; ti_idxRef := 1 |}.

(* ===================================================================== *)
(** * Reasoning about runs *)
(* ===================================================================== *)

Local Open Scope cpp_scope.

Lemma bind_Ok {A B : Type} (m : M A) (k : A -> M B) (w w' : world) (a : A) :
  m w = Ok a w' -> bind m k w = k a w'.
Proof. intros H. unfold bind. now rewrite H. Qed.

Lemma bind_Throw {A B : Type} (m : M A) (k : A -> M B) (w w' : world) e :
  m w = Throw e w' -> bind m k w = Throw e w'.
Proof. intros H. unfold bind. now rewrite H. Qed.

Lemma bind_LuaError {A B : Type} (m : M A) (k : A -> M B) (w w' : world) e :
  m w = LuaError e w' -> bind m k w = LuaError e w'.
Proof. intros H. unfold bind. now rewrite H. Qed.

Lemma bind_ret {A B : Type} (a : A) (k : A -> M B) (w : world) :
  bind (ret a) k w = k a w.
Proof. reflexivity. Qed.

Lemma bind_assoc {A B C : Type} (m : M A) (k1 : A -> M B) (k2 : B -> M C) w :
  bind (bind m k1) k2 w = bind m (fun a => bind (k1 a) k2) w.
Proof. unfold bind. destruct (m w); reflexivity. Qed.

Lemma finally_Throw {A : Type} (m : M A) (c : M unit) (w w1 w2 : world) e :
  m w = Throw e w1 -> c w1 = Ok tt w2 -> finally m c w = Throw e w2.
Proof. intros Hm Hc. unfold finally. now rewrite Hm, Hc. Qed.

Lemma finally_Ok {A : Type} (m : M A) (c : M unit) (w w1 w2 : world) (a : A) :
  m w = Ok a w1 -> c w1 = Ok tt w2 -> finally m c w = Ok a w2.
Proof. intros Hm Hc. unfold finally, bind. now rewrite Hm, Hc. Qed.

Lemma deref_state_Ok (w : world) (sa : nat) (st : state) :
  states w !! sa = Some st -> deref_state (Some sa) w = Ok st w.
Proof. intros H. unfold deref_state. now rewrite H. Qed.

(** ** Worlds that differ in one interpreter *)

Lemma put_interp_lookup (p : nat) (st : lua_State) (w : world) :
  interps (put_interp p st w) !! p = Some st.
Proof. unfold put_interp. simpl. apply lookup_insert_eq. Qed.

Lemma put_interp_lookup_ne (p q : nat) (st : lua_State) (w : world) :
  p <> q -> interps (put_interp p st w) !! q = interps w !! q.
Proof. intros H. unfold put_interp. simpl. now apply lookup_insert_ne. Qed.

Lemma put_interp_put (p : nat) (st1 st2 : lua_State) (w : world) :
  put_interp p st2 (put_interp p st1 w) = put_interp p st2 w.
Proof. unfold put_interp, set_interps. simpl. now rewrite insert_insert_eq. Qed.

Lemma put_interp_states (p : nat) (st : lua_State) (w : world) :
  states (put_interp p st w) = states w.
Proof. reflexivity. Qed.

Lemma put_interp_blocks (p : nat) (st : lua_State) (w : world) :
  blocks (put_interp p st w) = blocks w.
Proof. reflexivity. Qed.

Lemma lua_Ok {A : Type} (p : nat) (f : lua_State -> lua_result A)
    (w : world) (st st' : lua_State) (a : A) :
  interps w !! p = Some st -> f st = LuaOk a st' ->
  lua (Some p) f w = Ok a (put_interp p st' w).
Proof. intros Hp Hf. unfold lua. now rewrite Hp, Hf. Qed.

Lemma lua_Raise {A : Type} (p : nat) (f : lua_State -> lua_result A)
    (w : world) (st st' : lua_State) (e : lval) :
  interps w !! p = Some st -> f st = LuaRaise e st' ->
  lua (Some p) f w = LuaError e (put_interp p st' w).
Proof. intros Hp Hf. unfold lua. now rewrite Hp, Hf. Qed.


Lemma moved_lookup w p stk w' :
  moved w p stk w' -> exists st', interps w' !! p = Some st' /\ stack st' = stk.
Proof.
  intros (st' & -> & Hs). exists st'. split; [apply put_interp_lookup | exact Hs].
Qed.

Lemma moved_step w p stk w1 st2 :
  moved w p stk w1 -> moved w p (stack st2) (put_interp p st2 w1).
Proof.
  intros (st1 & -> & _). exists st2. split; [apply put_interp_put | reflexivity].
Qed.

Lemma moved_stack_depth w p st stk w' L :
  interps w !! p = Some st -> length stk = length (stack st) ->
  moved w p stk w' -> stack_depth w' L = stack_depth w L.
Proof.
  intros Hp Hlen (st' & -> & Hs). unfold stack_depth, interp_of.
  destruct L as [q|]; simpl; [|reflexivity].
  destruct (decide (p = q)) as [<-|Hne].
  - rewrite lookup_insert_eq, Hp. simpl. now rewrite Hs, Hlen.
  - now rewrite lookup_insert_ne.
Qed.

(** ** Stepping through host code *)

Ltac norm := repeat (rewrite bind_assoc || rewrite bind_ret).

Ltac fields :=
  cbn [local_s local_L local_t local_value local_tindex local_cargs
       ti_s ti_tblRef ti_idxRef state_L
       with_t with_value with_tindex with_cargs].

(** One API call at the head of the run, on the interpreter found by
    hypothesis or left by the previous step; [tac] computes the call. *)
Ltac lua_step tac :=
  norm;
  erewrite bind_Ok;
    [| eapply lua_Ok;
       [first [eassumption | apply put_interp_lookup] | tac]];
  rewrite ?put_interp_put.

(** ** Stack effect of the API calls *)

Section InterpFacts.
Context (env : environment).

Lemma index2adr_top st v rest :
  stack st = v :: rest -> Interp.index2adr st (-1) = Some v.
Proof.
  intros H. unfold Interp.index2adr, Interp.index2pos. rewrite H.
  assert (Hn : (- Z.of_nat (length (v :: rest)) <=? -1) = true).
  { apply Z.leb_le. simpl length. lia. }
  rewrite Hn. reflexivity.
Qed.

Lemma query_top {A : Type} (f : lval -> A) st v rest :
  stack st = v :: rest -> Interp.query f (-1) st = LuaOk (f v) st.
Proof.
  intros H. unfold Interp.query. now rewrite (index2adr_top _ _ _ H).
Qed.

Lemma pushvalue_top st v rest :
  stack st = v :: rest -> Interp.pushvalue (-1) st = LuaOk tt (push v st).
Proof.
  intros H. unfold Interp.pushvalue. now rewrite (index2adr_top _ _ _ H).
Qed.

Lemma pop_one st v rest :
  stack st = v :: rest -> Interp.pop 1 st = LuaOk tt (set_stack rest st).
Proof.
  intros H. unfold Interp.pop. rewrite H.
  destruct (Z.leb_spec 1 (Z.of_nat (length (v :: rest)))) as [_|Hlt].
  - reflexivity.
  - simpl length in Hlt. lia.
Qed.

Lemma registry_set_stack n v st :
  stack (Interp.registry_set n v st) = stack st.
Proof. reflexivity. Qed.

Lemma ref_stack st v rest :
  stack st = v :: rest ->
  exists r st', Interp.ref env st = LuaOk r st' /\ stack st' = rest.
Proof.
  intros H. unfold Interp.ref. rewrite H.
  destruct v;
    try (destruct (to_int _ =? 0); eexists _, _; split; reflexivity).
  eexists _, _; split; reflexivity.
Qed.

Lemma unref_stack r st :
  exists st', Interp.unref r st = LuaOk tt st' /\ stack st' = stack st.
Proof.
  unfold Interp.unref. destruct (0 <=? r); eexists; split; reflexivity.
Qed.

End InterpFacts.




Section WrapperFacts.
Context (env : environment).

Lemma is_ref_type_ref_kind (l : local) :
  is_ref_type l = ref_kind (local_t l).
Proof. unfold is_ref_type. now destruct (local_t l). Qed.

Lemma table_index_dtor_default (w : world) :
  table_index_dtor table_index_default w = Ok tt w.
Proof. reflexivity. Qed.

Lemma table_index_assign_default (w : world) :
  table_index_assign env table_index_default table_index_default w
  = Ok table_index_default w.
Proof. reflexivity. Qed.

(** Copying a handle of a reference kind re-anchors its value and leaves
    the stack of its interpreter as it was. *)
Lemma copy_value_anchor (this0 lcl : local) (w : world) p st r :
  ref_kind (local_t lcl) = true -> local_value lcl = v_ref r ->
  local_L lcl = Some p -> interps w !! p = Some st ->
  exists r' w',
    copy_value env this0 lcl w =
      Ok {| local_s := local_s lcl; local_L := Some p;
            local_t := local_t lcl; local_value := v_ref r';
            local_tindex := local_tindex this0; local_cargs := 0 |} w'
    /\ moved w p (stack st) w'.
Proof.
  intros Hk Hv HL Hp. destruct lcl as [s L t v ti c]. simpl in *. subst L v.
  unfold copy_value. rewrite is_ref_type_ref_kind. fields. rewrite Hk.
  unfold push_ref_value, load_ref_value_no_type. fields. cbn [read_ref].
  unfold lua_rawgeti_registry, lua_pushvalue, luaL_ref_registry, lua_pop.
  lua_step ltac:(reflexivity).
  lua_step ltac:(eapply pushvalue_top; reflexivity).
  destruct (ref_stack env
              (push (Interp.registry_get r st)
                 (push (Interp.registry_get r st) st)) _ _ eq_refl)
    as (r' & st' & Href & Hst').
  lua_step ltac:(exact Href).
  fields.
  lua_step ltac:(eapply pop_one; exact Hst').
  norm. fields.
  assert (Hs : type.eqb t type.stateless_string = false)
    by (destruct t; try discriminate; reflexivity).
  rewrite Hs. exists r'. eexists. split; [reflexivity|].
  eexists. split; reflexivity.
Qed.

(** Copying a handle of a value kind touches nothing. *)
Lemma copy_value_plain (this0 lcl : local) (w : world) :
  value_kind (local_t lcl) = true ->
  copy_value env this0 lcl w =
    Ok {| local_s := local_s lcl; local_L := local_L lcl;
          local_t := local_t lcl; local_value := local_value lcl;
          local_tindex := local_tindex this0; local_cargs := 0 |} w.
Proof.
  intros Hk. unfold copy_value. rewrite is_ref_type_ref_kind. fields.
  destruct (local_t lcl); try discriminate; reflexivity.
Qed.

(** Destroying an attached handle of a reference kind whose proxy is the
    default one frees its reference and leaves the stack as it was. *)
Lemma local_dtor_anchor (l : local) (w : world) p st r :
  ref_kind (local_t l) = true -> local_value l = v_ref r ->
  local_L l = Some p -> local_tindex l = table_index_default ->
  interps w !! p = Some st ->
  exists w', local_dtor env l w = Ok tt w' /\ moved w p (stack st) w'.
Proof.
  intros Hk Hv HL Hti Hp. destruct l as [s L t v ti c]. simpl in *.
  subst L v ti.
  destruct (unref_stack r st) as (st' & Hun & Hst').
  assert (Hrun :
    (if bool_decide (Some p ≠ (None : lua_State_ptr)) && ref_kind t
     then r0 <- read_ref (v_ref r) ;; luaL_unref_registry (Some p) r0
     else if type.eqb t type.stateless_string
          then p0 <- read_string (v_ref r) ;; release_string env p0
          else ret tt) w = Ok tt (put_interp p st' w)).
  { rewrite Hk. rewrite bool_decide_true by discriminate. cbn [andb read_ref].
    norm. unfold luaL_unref_registry. now apply lua_Ok with (st := st). }
  unfold local_dtor, release. unfold is_table at 1. fields.
  destruct (type.eqb t type.table) eqn:Ht.
  - norm. erewrite bind_Ok; [| apply table_index_assign_default].
    norm. fields. rewrite is_ref_type_ref_kind. fields.
    erewrite bind_Ok; [| exact Hrun]. norm. fields.
    exists (put_interp p st' w). split; [reflexivity|].
    exists st'. split; [reflexivity | exact Hst'].
  - norm. fields. rewrite is_ref_type_ref_kind. fields.
    erewrite bind_Ok; [| exact Hrun]. norm. fields.
    exists (put_interp p st' w). split; [reflexivity|].
    exists st'. split; [reflexivity | exact Hst'].
Qed.

(** Destroying a handle of a value kind whose proxy is the default one
    touches nothing. *)
Lemma local_dtor_plain (l : local) (w : world) :
  value_kind (local_t l) = true -> local_tindex l = table_index_default ->
  local_dtor env l w = Ok tt w.
Proof.
  intros Hk Hti. destruct l as [s L t v ti c]. simpl in *. subst ti.
  destruct t; try discriminate;
    unfold local_dtor, release, is_table, is_ref_type; fields;
    cbn [type.eqb orb]; norm; fields; cbn [type.eqb orb];
    rewrite andb_false_r; reflexivity.
Qed.

End WrapperFacts.

(* ===================================================================== *)
(** * Table access across interpreters *)
(* ===================================================================== *)

Section CrossContext.
Context (env : environment).


(** The body of [table_get] stops at the consistency check when the key
    belongs to another interpreter; nothing has been pushed by then. *)
Lemma table_get_body_foreign (this key : local) (w : world) (A B : nat) :
  local_t this = type.table -> local_L this = Some A ->
  local_L key = Some B -> A <> B ->
  table_get_body env this key w = Throw inconsistent w.
Proof.
  intros Ht HA HB Hne. unfold table_get_body, check_is_table.
  rewrite Ht, HA. cbn [type.eqb negb]. norm.
  unfold check_state_consistancy. rewrite HB.
  rewrite bool_decide_true by discriminate.
  rewrite bool_decide_true by (intros [= ->]; now apply Hne).
  reflexivity.
Qed.

(** C4. For two distinct runtime contexts A and B, a table handle of A and
    a key handle attached to B: [table_get] fails with the cross-context
    error ("Inconsistant state between locals"), and the stack depth of
    every interpreter is what it was before the call. *)
Theorem table_get_rejects_foreign_key
    (w : world) (this key : local) (A B : nat) :
  local_t this = type.table -> local_L this = Some A ->
  attached w key B -> A <> B ->
  exists w',
    table_get env this key w = Throw inconsistent w'
    /\ forall L, stack_depth w' L = stack_depth w L.
Proof.
  intros Ht HA (HB & [st Hst] & Hkind) Hne.
  unfold table_get, by_value, local_copy.
  destruct Hkind as [Hv | [Hr [r Hval]]].
  - erewrite bind_Ok; [| now apply copy_value_plain].
    exists w. split; [| reflexivity].
    eapply finally_Throw.
    + now apply table_get_body_foreign with (A := A) (B := B).
    + now apply local_dtor_plain.
  - destruct (copy_value_anchor env
                {| local_s := None; local_L := None;
                   local_t := indeterminate_type env;
                   local_value := v_indeterminate;
                   local_tindex := table_index_default;
                   local_cargs := indeterminate_cargs env |}
                key w B st r Hr Hval HB Hst)
      as (r' & w1 & Hcopy & Hmoved).
    erewrite bind_Ok; [| exact Hcopy].
    destruct (moved_lookup _ _ _ _ Hmoved) as (st1 & Hst1 & Hstack1).
    destruct (local_dtor_anchor env
                {| local_s := local_s key; local_L := Some B;
                   local_t := local_t key; local_value := v_ref r';
                   local_tindex := table_index_default; local_cargs := 0 |}
                w1 B st1 r' Hr eq_refl eq_refl eq_refl Hst1)
      as (w2 & Hdtor & Hmoved2).
    exists w2. split.
    + eapply finally_Throw; [| exact Hdtor].
      now apply table_get_body_foreign with (A := A) (B := B).
    + intros L. destruct Hmoved as (sa & -> & Hsa).
      destruct Hmoved2 as (sb & -> & Hsb). rewrite put_interp_put.
      apply moved_stack_depth with (p := B) (st := st) (stk := stack sb).
      * exact Hst.
      * now rewrite Hsb, Hstack1.
      * eexists. split; reflexivity.
Qed.

End CrossContext.

(* ===================================================================== *)
(** * Moves *)
(* ===================================================================== *)

Section Moves.
Context (env : environment).

Lemma release_nil (l : local) (w : world) :
  local_t l = type.nil -> release env l w = Ok l w.
Proof.
  intros Ht. unfold release, is_table, is_ref_type. rewrite Ht.
  cbn [type.eqb orb]. norm. rewrite Ht. cbn [type.eqb orb].
  rewrite andb_false_r. reflexivity.
Qed.

(** C10. Move-construction hands the payload over: the moved-from handle
    has the tag nil, so its [release] and its destruction change nothing
    in any interpreter or buffer; the destination holds the same context,
    tag and payload and pushes the same value as the original did.  The
    moved-from [state] holds a null interpreter pointer, so its destructor
    closes nothing, and the destination holds the interpreter.  (The proxy
    member of a handle is the default one throughout this configuration;
    it is not part of the payload and is not moved.) *)
Theorem move_transfers_ownership (w : world) (lcl : local) (st : state) :
  local_tindex lcl = table_index_default ->
  let dst := fst (local_move lcl) in
  let src := snd (local_move lcl) in
  let dst_state := fst (state_move st) in
  let src_state := snd (state_move st) in
  local_t src = type.nil
  /\ release env src w = Ok src w
  /\ local_dtor env src w = Ok tt w
  /\ local_s dst = local_s lcl /\ local_L dst = local_L lcl
  /\ local_t dst = local_t lcl /\ local_value dst = local_value lcl
  /\ (forall L, push_value dst L w = push_value lcl L w)
  /\ referent dst w = referent lcl w
  /\ state_L src_state = None
  /\ state_L dst_state = state_L st
  /\ state_dtor src_state w = Ok tt w.
Proof.
  intros Hti dst src dst_state src_state.
  assert (Hsrc : release env src w = Ok src w) by now apply release_nil.
  repeat split; try reflexivity; try exact Hsrc.
  unfold local_dtor. erewrite bind_Ok; [| exact Hsrc].
  subst src. unfold local_move. cbn [snd]. fields. rewrite Hti.
  reflexivity.
Qed.

End Moves.

(* ===================================================================== *)
(** * The call protocol without arguments *)
(* ===================================================================== *)

Section Calls.
Context (env : environment).

(** A type test or a conversion of the value on top of the stack *)
Ltac query :=
  lua_step ltac:(eapply query_top; first [eassumption | reflexivity]).

Ltac tests :=
  cbn [Interp.isnil Interp.isboolean Interp.isnumber Interp.isstring
       Interp.isfunction Interp.iscfunction Interp.isuserdata
       Interp.islightuserdata Interp.isthread Interp.istable].

(** Loading the value on top of the stack into a handle anchors it when it
    is of a reference kind, and leaves the stack as it was: nothing is
    popped. *)
Lemma load_ref_value_no_type_top (this : local) (w : world) A st v rest :
  local_L this = Some A -> interps w !! A = Some st -> stack st = v :: rest ->
  exists r st',
    load_ref_value_no_type env this (-1) w
      = Ok (with_value (v_ref r) this) (put_interp A st' w)
    /\ stack st' = stack st.
Proof.
  intros HL Hp Hs. unfold load_ref_value_no_type. rewrite HL.
  unfold lua_pushvalue, luaL_ref_registry.
  lua_step ltac:(eapply pushvalue_top; exact Hs).
  destruct (ref_stack env (push v st) v (stack st) eq_refl) as (r & st' & Href & Hst').
  lua_step ltac:(exact Href).
  norm. exists r, st'. split; [reflexivity | exact Hst'].
Qed.

Lemma load_ref_value_top (this : local) (w : world) A st v rest :
  local_L this = Some A -> interps w !! A = Some st -> stack st = v :: rest ->
  exists l' st',
    load_ref_value env this (-1) w = Ok l' (put_interp A st' w)
    /\ stack st' = stack st
    /\ local_s l' = local_s this /\ local_L l' = Some A.
Proof.
  intros HL Hp Hs. unfold load_ref_value. rewrite HL.
  unfold lua_isstring, lua_isfunction, lua_isuserdata, lua_isthread, lua_istable.
  assert (Htail : forall t0 W, interps W !! A = Some st ->
    exists l' st',
      load_ref_value_no_type env (with_t t0 this) (-1) W = Ok l' (put_interp A st' W)
      /\ stack st' = stack st /\ local_s l' = local_s this /\ local_L l' = Some A).
  { intros t0 W HW.
    destruct (load_ref_value_no_type_top (with_t t0 this) W A st v rest HL HW Hs)
      as (r & st' & Hrun & Hst').
    eexists _, st'. split; [exact Hrun|]. split_and!; [exact Hst' | reflexivity | exact HL]. }
  assert (Htail0 : forall W, interps W !! A = Some st ->
    exists l' st',
      load_ref_value_no_type env this (-1) W = Ok l' (put_interp A st' W)
      /\ stack st' = stack st /\ local_s l' = local_s this /\ local_L l' = Some A).
  { intros W HW.
    destruct (load_ref_value_no_type_top this W A st v rest HL HW Hs)
      as (r & st' & Hrun & Hst').
    eexists _, st'. split; [exact Hrun|]. split_and!; [exact Hst' | reflexivity | exact HL]. }
  destruct v; repeat (query; tests); norm;
    (lazymatch goal with
     | |- context [load_ref_value_no_type env (with_t ?t0 this)] =>
         destruct (Htail t0 (put_interp A st w) (put_interp_lookup _ _ _))
           as (l' & st' & Hrun & Hrest)
     | |- _ =>
         destruct (Htail0 (put_interp A st w) (put_interp_lookup _ _ _))
           as (l' & st' & Hrun & Hrest)
     end);
    rewrite Hrun, put_interp_put; exists l', st'; (split; [reflexivity | exact Hrest]).
Qed.

Lemma load_value_top (lcl : local) (w : world) A st v rest :
  local_L lcl = Some A -> interps w !! A = Some st -> stack st = v :: rest ->
  exists l' st',
    load_value env lcl (-1) w = Ok l' (put_interp A st' w)
    /\ stack st' = stack st
    /\ local_s l' = local_s lcl /\ local_L l' = Some A.
Proof.
  intros HL Hp Hs.
  assert (Href : exists l' st',
    load_ref_value env lcl (-1) (put_interp A st w) = Ok l' (put_interp A st' w)
    /\ stack st' = stack st /\ local_s l' = local_s lcl /\ local_L l' = Some A).
  { destruct (load_ref_value_top lcl (put_interp A st w) A st v rest HL
                (put_interp_lookup _ _ _) Hs) as (l' & st' & Hrun & Hrest).
    rewrite put_interp_put in Hrun. eauto. }
  unfold load_value. rewrite HL.
  unfold lua_isnil, lua_isboolean, lua_isnumber, lua_iscfunction, lua_islightuserdata,
    lua_toboolean, lua_tointeger, lua_tonumber, lua_tocfunction, lua_touserdata.
  destruct v.
  - query. tests. norm. eexists _, _. split; [reflexivity|]. split_and!; [reflexivity | reflexivity | exact HL].
  - do 2 (query; tests). query. norm. eexists _, _. split; [reflexivity|]. split_and!; [reflexivity | reflexivity | exact HL].
  - do 3 (query; tests). do 2 query.
    destruct (Double.eqb _ _); query; norm; eexists _, _; (split; [reflexivity|]);
      split_and!; [reflexivity | reflexivity | exact HL | reflexivity | reflexivity | exact HL].
  - do 3 (query; tests). destruct (bool_decide _).
    + do 2 query. destruct (Double.eqb _ _); query; norm; eexists _, _; (split; [reflexivity|]);
      split_and!; [reflexivity | reflexivity | exact HL | reflexivity | reflexivity | exact HL].
    + do 2 (query; tests). norm. exact Href.
  - do 5 (query; tests). norm. exact Href.
  - do 4 (query; tests). query. norm. eexists _, _. split; [reflexivity|]. split_and!; [reflexivity | reflexivity | exact HL].
  - do 5 (query; tests). norm. exact Href.
  - do 5 (query; tests). query. norm. eexists _, _. split; [reflexivity|]. split_and!; [reflexivity | reflexivity | exact HL].
  - do 5 (query; tests). norm. exact Href.
  - do 5 (query; tests). norm. exact Href.
Qed.

Lemma index2pos_top st v rest :
  stack st = v :: rest -> Interp.index2pos st (-1) = Some 0%nat.
Proof.
  intros H. unfold Interp.index2pos. rewrite H.
  assert (Hn : (- Z.of_nat (length (v :: rest)) <=? -1) = true).
  { apply Z.leb_le. simpl length. lia. }
  rewrite Hn. reflexivity.
Qed.

(** A protected call without arguments replaces the function on top of the
    stack by its results, or by the error value. *)
Lemma pcall_no_arguments st f body res h' :
  Interp.body_of env st f = Some body -> body [] (heap st) = (res, h') ->
  Interp.pcall env 0 (push f st) =
    LuaOk (match res with CallReturn _ => 0 | CallError _ => LUA_ERRRUN end)
      {| stack := match res with
                  | CallReturn rs => rev rs ++ stack st
                  | CallError e => e :: stack st
                  end;
         heap := h'; closures := closures st; pcalls := S (pcalls st) |}.
Proof.
  intros Hbody Hres. unfold Interp.pcall.
  assert (Hn : (0 <? Z.of_nat (length (stack (push f st)))) = true).
  { apply Z.ltb_lt. simpl. lia. }
  rewrite Hn. cbn [Z.leb Z.compare andb].
  change (Z.to_nat 0) with 0%nat.
  change (stack (push f st)) with (f :: stack st).
  change (closures (push f st)) with (closures st).
  change (pcalls (push f st)) with (pcalls st).
  cbn [lookup list_lookup firstn skipn rev app].
  replace (Interp.body_of env (push f st) f) with (Some body)
    by (rewrite <- Hbody; destruct f; reflexivity).
  change (heap (push f st)) with (heap st). rewrite Hres, drop_0. destruct res; reflexivity.
Qed.

(** The number of results that [do_call] computes from the two depths *)
Lemma retc_value (n k : nat) :
  (Z.of_nat k < 2 ^ 31) ->
  to_int (to_uint32 (- Z.of_nat (S n) + Z.of_nat (k + n) + 0 + 1)) = Z.of_nat k.
Proof.
  intros Hk. replace (- Z.of_nat (S n) + Z.of_nat (k + n) + 0 + 1) with (Z.of_nat k) by lia.
  unfold to_int, to_uint32, wrap_signed, wrap_unsigned.
  rewrite Z.mod_mod by lia. rewrite Z.mod_small by lia.
  destruct (Z.ltb_spec (Z.of_nat k) (2 ^ (32 - 1))); [reflexivity | lia].
Qed.

(** Whatever the function and the interpreter: a call without arguments
    that returns exactly one value leaves that value on the stack, one slot
    above the depth before the call. *)
Lemma call_one_result (w : world) (this : local) A st body v h' :
  invocable env w this A st body ->
  body [] (heap st) = (CallReturn [v], h') ->
  exists res this' w',
    local_call env this [] w = Ok (res, this') w'
    /\ stack_of w' (Some A) = Some (v :: stack st).
Proof.
  intros (HL & Hp & (sa & Hs & Hsa) & r & Hval & Hbody) Hres.
  unfold local_call, by_values, local_call_body, prep_call, push_ref_value.
  rewrite Hval, HL. cbn [read_ref]. unfold lua_rawgeti_registry.
  lua_step ltac:(reflexivity). norm.
  unfold do_call. fields. rewrite HL.
  unfold lua_gettop, lua_pcall.
  lua_step ltac:(reflexivity).
  lua_step ltac:(apply (pcall_no_arguments _ _ _ _ _ Hbody Hres)).
  cbn [Z.eqb negb].
  lua_step ltac:(reflexivity).
  cbn [stack rev app]. 
  change (length (stack (push (Interp.registry_get r st) st))) with (S (length (stack st))).
  change (length (v :: stack st)) with (1 + length (stack st))%nat.
  rewrite (retc_value (length (stack st)) 1) by (simpl; lia).
  change (Z.of_nat 1) with 1. cbn [Z.eqb Pos.eqb].
  unfold local_of_state. rewrite Hs. norm.
  erewrite bind_Ok; [| unfold deref_state; rewrite put_interp_states, Hsa; reflexivity].
  norm. fields.
  match goal with |- context [bind (load_value env ?l (-1)) _ (put_interp A ?s0 w)] =>
    destruct (load_value_top l (put_interp A s0 w) A s0 v (stack st) eq_refl
                (put_interp_lookup _ _ _) eq_refl) as (l' & st' & Hload & Hst' & _)
  end.
  rewrite put_interp_put in Hload.
  erewrite bind_Ok; [| exact Hload]. norm.
  eexists _, _, _. split; [reflexivity|].
  unfold stack_of, interp_of. simpl. rewrite lookup_insert_eq. simpl. now rewrite Hst'.
Qed.

Lemma tostring_top_string st msg rest :
  stack st = LString msg :: rest -> Interp.tostring env (-1) st = LuaOk (Some msg) st.
Proof.
  intros H. unfold Interp.tostring. rewrite (index2pos_top _ _ _ H), H. reflexivity.
Qed.

(** A call without arguments that returns nothing restores the depth; the
    handle it yields carries the uninitialised tag. *)
Lemma call_no_result (w : world) (this : local) A st body h' :
  invocable env w this A st body ->
  body [] (heap st) = (CallReturn [], h') ->
  exists res w',
    local_call env this [] w = Ok (res, with_cargs 0 this) w'
    /\ local_t res = indeterminate_type env
    /\ stack_of w' (Some A) = Some (stack st).
Proof.
  intros (HL & Hp & (sa & Hs & Hsa) & r & Hval & Hbody) Hres.
  unfold local_call, by_values, local_call_body, prep_call, push_ref_value.
  rewrite Hval, HL. cbn [read_ref]. unfold lua_rawgeti_registry.
  lua_step ltac:(reflexivity). norm.
  unfold do_call. fields. rewrite HL.
  unfold lua_gettop, lua_pcall.
  lua_step ltac:(reflexivity).
  lua_step ltac:(apply (pcall_no_arguments _ _ _ _ _ Hbody Hres)).
  cbn [Z.eqb negb].
  lua_step ltac:(reflexivity).
  cbn [stack rev app].
  change (length (stack (push (Interp.registry_get r st) st))) with (S (length (stack st))).
  change (length (stack st)) with (0 + length (stack st))%nat at 2.
  rewrite (retc_value (length (stack st)) 0) by (simpl; lia).
  change (Z.of_nat 0) with 0. cbn [Z.eqb].
  unfold local_of_state. rewrite Hs. norm.
  erewrite bind_Ok; [| unfold deref_state; rewrite put_interp_states, Hsa; reflexivity].
  norm. eexists _, _. split; [reflexivity|]. split; [reflexivity|].
  unfold stack_of, interp_of. simpl. now rewrite lookup_insert_eq.
Qed.

(** A call without arguments that raises a string surfaces it as a
    [runtime_error] and restores the depth. *)
Lemma call_raises (w : world) (this : local) A st body msg h' :
  invocable env w this A st body ->
  body [] (heap st) = (CallError (LString msg), h') ->
  exists w',
    local_call env this [] w = Throw (runtime_error msg) w'
    /\ stack_of w' (Some A) = Some (stack st)
    /\ pcalls_of w' (Some A) = Some (S (pcalls st)).
Proof.
  intros (HL & Hp & (sa & Hs & Hsa) & r & Hval & Hbody) Hres.
  unfold local_call, by_values, local_call_body, prep_call, push_ref_value.
  rewrite Hval, HL. cbn [read_ref]. unfold lua_rawgeti_registry.
  lua_step ltac:(reflexivity). norm.
  unfold do_call. fields. rewrite HL.
  unfold lua_gettop, lua_pcall, lua_tostring, lua_pop.
  lua_step ltac:(reflexivity).
  lua_step ltac:(apply (pcall_no_arguments _ _ _ _ _ Hbody Hres)).
  change (negb (LUA_ERRRUN =? 0)) with true. cbv iota.
  lua_step ltac:(eapply tostring_top_string; reflexivity).
  lua_step ltac:(eapply pop_one; reflexivity).
  norm. eexists. split; [reflexivity|].
  unfold stack_of, pcalls_of, interp_of. simpl. now rewrite lookup_insert_eq.
Qed.

(** The overload without parameters has no check of the tag: a handle of
    any tag whose reference leads to a value that is not a function reaches
    the protected call, and the error of the interpreter comes back as a
    [runtime_error]. *)
Lemma call_without_arguments_reaches_pcall
    (w : world) (this : local) A st sa r :
  local_L this = Some A -> interps w !! A = Some st ->
  local_s this = Some sa -> states w !! sa = Some {| state_L := Some A |} ->
  local_value this = v_ref r ->
  Interp.isfunction (Interp.registry_get r st) = false ->
  exists w',
    local_call env this [] w
    = Throw (runtime_error
               ("attempt to call a "
                ++ typename (Interp.registry_get r st) ++ " value")) w'
    /\ stack_of w' (Some A) = Some (stack st)
    /\ pcalls_of w' (Some A) = Some (S (pcalls st)).
Proof.
  intros HL Hp Hs Hsa Hval Hnf.
  apply call_raises
    with (body := fun _ h => (CallError (Interp.call_error (Interp.registry_get r st)), h))
         (h' := heap st); [| reflexivity].
  split_and!; [exact HL | exact Hp | eauto |].
  exists r. split; [exact Hval|].
  destruct (Interp.registry_get r st); try discriminate; reflexivity.
Qed.

End Calls.

(* ===================================================================== *)
(** * Calls that are refused, globals, table slots, self-assignment *)
(* ===================================================================== *)



Section Protocol.
Context (env : environment).

(** With at least one argument, a handle whose tag is not [function] is
    refused before anything is pushed. *)
Lemma call_body_rejects_non_function
    (this arg : local) (args : list local) (w : world) :
  local_t this <> type.function ->
  local_call_body env this (arg :: args) w
  = Throw (logic_error "Cannot call a local that is not a function") w.
Proof.
  intros Ht. unfold local_call_body, check_is_function.
  destruct (local_t this); try reflexivity. now destruct Ht.
Qed.

(** [set_global] stores the value that was on top of the stack, whatever it
    is, and leaves the value of the handle on the stack. *)
Lemma set_global_effect (w : world) sa A st v rest (b : bool) (n : string) :
  states w !! sa = Some {| state_L := Some A |} ->
  interps w !! A = Some st -> stack st = v :: rest ->
  exists w',
    state_set_global env (Some sa)
      (mk_local env (Some sa) (Some A) type.boolean (v_boolean b)) n w = Ok tt w'
    /\ global_at w' (Some A) n = Some v
    /\ stack_of w' (Some A) = Some (LBoolean b :: rest).
Proof.
  intros Hsa Hp Hs. unfold state_set_global, by_value, local_copy.
  erewrite bind_Ok; [| apply copy_value_plain; reflexivity].
  unfold mk_local. fields.
  assert (Hset : Interp.setglobal n st =
            LuaOk tt (set_stack rest (set_heap (set_globals
               (match v with LNil => delete n (globals (heap st))
                | _ => <[n := v]> (globals (heap st)) end) (heap st)) st))).
  { unfold Interp.setglobal. rewrite Hs. reflexivity. }
  eexists. split.
  - eapply finally_Ok; [| now apply local_dtor_plain].
    unfold state_set_global_body.
    erewrite bind_Ok; [| apply deref_state_Ok; exact Hsa]. fields.
    unfold lua_setglobal. lua_step ltac:(exact Hset).
    unfold push_value. fields. cbn [read_boolean]. norm.
    unfold lua_pushboolean. eapply lua_Ok; [apply put_interp_lookup | reflexivity].
  - rewrite put_interp_put. unfold global_at, stack_of, interp_of. simpl.
    rewrite lookup_insert_eq. simpl. split; [| reflexivity].
    destruct v; simpl; rewrite ?lookup_delete_eq, ?lookup_insert_eq; reflexivity.
Qed.

(** On an empty stack [lua_setglobal] has nothing to pop. *)
Lemma set_global_empty_stack (w : world) sa A st (h : local) (n : string) :
  states w !! sa = Some {| state_L := Some A |} ->
  interps w !! A = Some st -> stack st = [] ->
  state_set_global_body (Some sa) h n w = Undefined.
Proof.
  intros Hsa Hp Hs. unfold state_set_global_body.
  erewrite bind_Ok; [| apply deref_state_Ok; eassumption]. fields.
  unfold lua_setglobal, bind, lua. rewrite Hp. unfold Interp.setglobal. now rewrite Hs.
Qed.

(** A default-constructed proxy refuses conversion and assignment. *)
Lemma default_proxy_read (w : world) :
  table_index_to_local env table_index_default w
  = Throw (logic_error "Attempted to use an invalid table_index object") w.
Proof. reflexivity. Qed.

Lemma default_proxy_write (rhs : local) (w : world) :
  table_index_assign_local_body table_index_default rhs w
  = Throw (logic_error "Attempted to use an invalid table_index object") w.
Proof. reflexivity. Qed.

(** A proxy with a context and without a container refuses conversion. *)
Lemma unbound_proxy_read (ti : table_index) (w : world) :
  ti_s ti <> None -> ti_tblRef ti = LUA_REFNIL ->
  table_index_to_local env ti w
  = Throw (logic_error
      "Attempt to get the value of a table_index that is not connected to a table") w.
Proof.
  intros Hs Ht. unfold table_index_to_local, table_index_get_value, table_index_check_valid.
  destruct (ti_s ti); [| now destruct Hs]. rewrite Ht. reflexivity.
Qed.

Lemma index2adr_third st a b c rest :
  stack st = a :: b :: c :: rest -> Interp.index2adr st (-3) = Some c.
Proof.
  intros H. unfold Interp.index2adr, Interp.index2pos. rewrite H.
  assert (Hn : (- Z.of_nat (length (a :: b :: c :: rest)) <=? -3) = true).
  { apply Z.leb_le. simpl length. lia. }
  rewrite Hn. reflexivity.
Qed.

(** Assignment through a proxy with a context and without a container
    reaches [lua_settable] with nil as the table. *)
Lemma unbound_proxy_write (ti : table_index) (w : world) sa A st (b : bool) :
  ti_s ti = Some sa -> ti_tblRef ti = LUA_REFNIL ->
  states w !! sa = Some {| state_L := Some A |} ->
  interps w !! A = Some st ->
  registry (heap st) !! LUA_REFNIL = None ->
  exists w',
    table_index_assign_local_body ti (local_of_bool env b) w
    = LuaError (LString "attempt to index a nil value") w'
    /\ stack_of w' (Some A)
       = Some (LBoolean b :: Interp.registry_get (ti_idxRef ti) st :: LNil :: stack st).
Proof.
  intros Hs Ht Hsa Hp Hreg.
  unfold table_index_assign_local_body, table_index_check_valid. rewrite Hs, Ht. norm.
  erewrite bind_Ok; [| apply deref_state_Ok; eassumption]. fields.
  unfold check_state_consistancy, local_of_bool, mk_local. fields.
  rewrite bool_decide_false by (intros H; now apply H). cbn [andb]. norm.
  unfold lua_rawgeti_registry, push_value. fields. cbn [read_boolean].
  unfold lua_pushboolean, lua_settable.
  do 3 lua_step ltac:(reflexivity).
  eexists. split.
  - apply bind_LuaError. eapply lua_Raise; [apply put_interp_lookup|].
    unfold Interp.settable. erewrite index2adr_third by reflexivity.
    unfold Interp.registry_get. rewrite Hreg. reflexivity.
  - rewrite put_interp_put. unfold stack_of, interp_of. simpl.
    rewrite lookup_insert_eq. reflexivity.
Qed.

(** [set_as_number] yields the tag integer for every number. *)
Lemma set_as_number_integer (n : lua_Number) (w : world) :
  exists h, set_as_number env (local_default env) n w = Ok h w
            /\ local_t h = type.integer
            /\ local_value h = v_integer (numberToInteger env n).
Proof. eexists. split; [reflexivity|]. split; reflexivity. Qed.


(** Freeing a reference while the free list is empty empties its slot. *)
Lemma unref_empty_free_list (r : Z) (st : lua_State) :
  0 < r -> registry (heap st) !! FREELIST_REF = None ->
  exists st',
    Interp.unref r st = LuaOk tt st'
    /\ stack st' = stack st
    /\ Interp.registry_get r st' = LNil
    /\ registry (heap st') !! LUA_REFNIL = registry (heap st) !! LUA_REFNIL.
Proof.
  intros Hr Hfree. unfold Interp.unref.
  destruct (Z.leb_spec 0 r) as [_|]; [| lia].
  eexists. split; [reflexivity|]. split; [reflexivity|].
  unfold Interp.registry_get, Interp.registry_set, FREELIST_REF, LUA_REFNIL in *.
  cbn [heap set_heap registry set_registry]. rewrite Hfree. cbn [default].
  split.
  - rewrite lookup_insert_ne by lia. now rewrite lookup_delete_eq.
  - rewrite lookup_insert_ne by lia. now rewrite lookup_delete_ne by lia.
Qed.

(** Whatever the interpreter, as long as its free list is empty: a handle
    of a reference kind assigned to itself ends with the reference
    [LUA_REFNIL] and refers to nil. *)
Lemma self_assignment_empty_free_list (h : local) (w : world) A st r :
  ref_kind (local_t h) = true -> local_value h = v_ref r -> 0 < r ->
  local_L h = Some A -> local_tindex h = table_index_default ->
  interps w !! A = Some st ->
  registry (heap st) !! FREELIST_REF = None ->
  registry (heap st) !! LUA_REFNIL = None ->
  exists h' w',
    local_assign env h h w = Ok h' w'
    /\ local_t h' = local_t h
    /\ local_value h' = v_ref LUA_REFNIL
    /\ referent h' w' = Some LNil
    /\ stack_of w' (Some A) = Some (stack st).
Proof.
  intros Hk Hv Hr HL Hti Hp Hfree Hnil.
  destruct h as [s L t v ti c]. simpl in *. subst L v ti.
  destruct (unref_empty_free_list r st Hr Hfree) as (st1 & Hun & Hst1 & Hget & Hnil1).
  assert (Hrel : release env
            {| local_s := s; local_L := Some A; local_t := t; local_value := v_ref r;
               local_tindex := table_index_default; local_cargs := c |} w
          = Ok {| local_s := s; local_L := Some A; local_t := t; local_value := v_ref r;
                  local_tindex := table_index_default; local_cargs := c |}
               (put_interp A st1 w)).
  { assert (Hrun :
      (if bool_decide (Some A ≠ (None : lua_State_ptr)) && ref_kind t
       then r0 <- read_ref (v_ref r) ;; luaL_unref_registry (Some A) r0
       else if type.eqb t type.stateless_string
            then p0 <- read_string (v_ref r) ;; release_string env p0
            else ret tt) w = Ok tt (put_interp A st1 w)).
    { rewrite Hk. rewrite bool_decide_true by discriminate. cbn [andb read_ref].
      norm. unfold luaL_unref_registry. now apply lua_Ok with (st := st). }
    unfold release. unfold is_table at 1. fields.
    destruct (type.eqb t type.table) eqn:Ht.
    - norm. erewrite bind_Ok; [| apply table_index_assign_default].
      norm. fields. rewrite is_ref_type_ref_kind. fields.
      erewrite bind_Ok; [| exact Hrun]. reflexivity.
    - norm. fields. rewrite is_ref_type_ref_kind. fields.
      erewrite bind_Ok; [| exact Hrun]. reflexivity. }
  unfold local_assign. erewrite bind_Ok; [| exact Hrel].
  unfold copy_value. rewrite is_ref_type_ref_kind. fields. rewrite Hk.
  unfold push_ref_value, load_ref_value_no_type. fields. cbn [read_ref].
  unfold lua_rawgeti_registry, lua_pushvalue, luaL_ref_registry, lua_pop.
  lua_step ltac:(unfold Interp.rawgeti_registry; rewrite Hget; reflexivity).
  lua_step ltac:(eapply pushvalue_top; reflexivity).
  lua_step ltac:(reflexivity).
  fields.
  lua_step ltac:(eapply pop_one; reflexivity).
  norm. fields.
  assert (Hs : type.eqb t type.stateless_string = false)
    by (destruct t; try discriminate; reflexivity).
  rewrite Hs. eexists _, _. split; [reflexivity|]. fields.
  split_and!; try reflexivity.
  - unfold referent, interp_of. simpl. rewrite lookup_insert_eq. simpl.
    unfold Interp.registry_get. simpl. unfold LUA_REFNIL in *. now rewrite Hnil1, Hnil.
  - unfold stack_of, interp_of. simpl. rewrite lookup_insert_eq. simpl. now rewrite Hst1.
Qed.
End Protocol.

(* ===================================================================== *)
(** * The buffers of stateless strings *)
(* ===================================================================== *)

(** ** The count in memory *)

Lemma Z_of_byte_of_Z (z : Z) : Z_of_byte (byte_of_Z z) = z mod 256.
Proof.
  unfold Z_of_byte, byte_of_Z.
  assert (Hr : 0 <= z mod 256 < 256) by (apply Z.mod_pos_bound; lia).
  destruct (Byte.of_N (Z.to_N (z mod 256))) as [b|] eqn:Hb.
  - apply Byte.to_of_N in Hb. simpl. rewrite Hb. apply Z2N.id. lia.
  - apply Byte.of_N_None_iff in Hb. lia.
Qed.

Lemma length_encode32 e x : length (encode32 e x) = 4%nat.
Proof. destruct e; reflexivity. Qed.

Lemma decode32_encode32 e x : 0 <= x < 2 ^ 32 -> decode32 e (encode32 e x) = x.
Proof.
  intros Hx.
  assert (H : fold_right (fun b acc => Z_of_byte b + 256 * acc) 0
                [byte_of_Z x; byte_of_Z (x / 2 ^ 8); byte_of_Z (x / 2 ^ 16);
                 byte_of_Z (x / 2 ^ 24)] = x).
  { cbn [fold_right]. rewrite !Z_of_byte_of_Z.
    change (2 ^ 8) with 256. change (2 ^ 16) with 65536. change (2 ^ 24) with 16777216.
    change (2 ^ 32) with 4294967296 in Hx.
    Z.div_mod_to_equations. lia. }
  destruct e; unfold decode32, encode32.
  - rewrite rev_involutive. exact H.
  - exact H.
Qed.

Section Pool.
Context (env : environment).

(** ** Reading and writing the count of a buffer made by [create_string] *)

Lemma load_refcount (w : world) b c str :
  blocks w !! b = Some (buffer env c str) -> 0 <= c < 2 ^ 32 ->
  load_uint32 env (get_string_refc (b, 4)) w = Ok c w.
Proof.
  intros Hb Hc. unfold load_uint32, get_string_refc, load_bytes, bind. cbn [fst snd].
  rewrite Hb. change (4 - sizeof_uint32) with 0.
  unfold buffer. rewrite length_app, length_encode32.
  destruct (Z.leb_spec (0 + Z.of_nat 4) (Z.of_nat (4 + length (cstring_bytes str)))); [| lia].
  cbn [Z.leb Z.compare andb Z.to_nat]. rewrite drop_0.
  rewrite take_app_length' by (symmetry; apply length_encode32).
  unfold ret. now rewrite decode32_encode32.
Qed.

Lemma store_refcount (w : world) b c c' str :
  blocks w !! b = Some (buffer env c str) ->
  store_uint32 env (get_string_refc (b, 4)) c' w
  = Ok tt (set_blocks (<[b := buffer env c' str]> (blocks w)) w).
Proof.
  intros Hb. unfold store_uint32, get_string_refc, store_bytes. cbn [fst snd].
  rewrite Hb. change (4 - sizeof_uint32) with 0.
  unfold buffer. rewrite length_app, !length_encode32.
  destruct (Z.leb_spec (0 + Z.of_nat 4) (Z.of_nat (4 + length (cstring_bytes str)))); [| lia].
  cbn [Z.leb Z.compare andb Z.to_nat]. cbn [take firstn app Nat.add].
  rewrite drop_app_length' by (symmetry; apply length_encode32). reflexivity.
Qed.

Lemma set_blocks_lookup (m : gmap nat (list byte)) (w : world) :
  blocks (set_blocks m w) = m.
Proof. reflexivity. Qed.

Lemma copy_string_spec (w : world) b c str :
  blocks w !! b = Some (buffer env c str) -> 0 <= c -> c + 1 < 2 ^ 32 ->
  copy_string env (b, 4) w
  = Ok (b, 4) (set_blocks (<[b := buffer env (c + 1) str]> (blocks w)) w).
Proof.
  intros Hb H0 H1. unfold copy_string.
  erewrite bind_Ok; [| apply load_refcount with (str := str); [exact Hb | lia]].
  erewrite bind_Ok; [| apply store_refcount with (c := c); exact Hb].
  unfold to_uint32, wrap_unsigned. rewrite Z.mod_small by lia. reflexivity.
Qed.

Lemma release_string_spec (w : world) b c str :
  blocks w !! b = Some (buffer env c str) -> 1 <= c < 2 ^ 32 ->
  release_string env (b, 4) w
  = Ok tt (set_blocks (if c =? 1 then delete b (blocks w)
                       else <[b := buffer env (c - 1) str]> (blocks w)) w).
Proof.
  intros Hb Hc. unfold release_string.
  erewrite bind_Ok; [| apply load_refcount with (str := str); [exact Hb | lia]].
  erewrite bind_Ok; [| apply store_refcount with (c := c); exact Hb].
  unfold to_uint32, wrap_unsigned. rewrite Z.mod_small by lia.
  destruct (Z.eqb_spec c 1) as [->|Hne].
  - change (1 - 1 =? 0) with true. cbv iota.
    unfold free, get_string_refc. cbn [fst snd blocks set_blocks]. rewrite lookup_insert_eq.
    change (4 - sizeof_uint32 =? 0) with true. cbv iota.
    rewrite delete_insert_eq. reflexivity.
  - destruct (Z.eqb_spec (c - 1) 0); [lia | reflexivity].
Qed.

Lemma run_ops_spec (ops : list pool_op) (w : world) b c str :
  blocks w !! b = Some (buffer env c str) -> 1 <= c < 2 ^ 32 ->
  stays_live c ops = true ->
  run_ops env (b, 4) ops w
  = Ok tt (set_blocks (<[b := buffer env (count_after c ops) str]> (blocks w)) w)
  /\ 1 <= count_after c ops < 2 ^ 32.
Proof.
  revert w c. induction ops as [| [] ops IH]; intros w c Hb Hc Hlive.
  - split; [| exact Hc]. cbn. rewrite insert_id by exact Hb. now destruct w.
  - cbn in Hlive. apply andb_true_iff in Hlive as [H1 H2]. apply Z.ltb_lt in H1.
    cbn [run_ops count_after].
    erewrite bind_Ok; [| apply copy_string_spec; [exact Hb | lia | lia]].
    destruct (IH (set_blocks (<[b := buffer env (c + 1) str]> (blocks w)) w) (c + 1))
      as [Hrun Hcount]; [ now rewrite set_blocks_lookup, lookup_insert_eq | lia | exact H2 |].
    split; [| exact Hcount].
    rewrite Hrun, set_blocks_lookup, insert_insert_eq. reflexivity.
  - cbn in Hlive. apply andb_true_iff in Hlive as [H1 H2]. apply Z.ltb_lt in H1.
    cbn [run_ops count_after].
    erewrite bind_Ok; [| apply release_string_spec; [exact Hb | lia]].
    destruct (Z.eqb_spec c 1); [lia|].
    destruct (IH (set_blocks (<[b := buffer env (c - 1) str]> (blocks w)) w) (c - 1))
      as [Hrun Hcount]; [ now rewrite set_blocks_lookup, lookup_insert_eq | lia | exact H2 |].
    split; [| exact Hcount].
    rewrite Hrun, set_blocks_lookup, insert_insert_eq. reflexivity.
Qed.

Lemma length_cstring_bytes (str : string) :
  length (cstring_bytes str) = S (String.length str).
Proof.
  unfold cstring_bytes, list_byte_of_string. rewrite length_app, length_map.
  simpl. induction str as [| a str IH]; simpl; lia.
Qed.

Lemma store_bytes_spec (w : world) b (off : nat) bs new :
  blocks w !! b = Some bs -> (off + length new <= length bs)%nat ->
  store_bytes (b, Z.of_nat off) new w
  = Ok tt (set_blocks
             (<[b := take off bs ++ new ++ drop (off + length new) bs]> (blocks w)) w).
Proof.
  intros Hb Hlen. unfold store_bytes. cbn [fst snd]. rewrite Hb.
  destruct (Z.leb_spec 0 (Z.of_nat off)); [| lia].
  destruct (Z.leb_spec (Z.of_nat off + Z.of_nat (length new)) (Z.of_nat (length bs))); [| lia].
  cbn [andb]. now rewrite Nat2Z.id.
Qed.

(** [create_string] allocates one block: the count 1, then the characters *)
Lemma create_string_spec (str : string) (w : world) :
  exists w',
    create_string env str w = Ok (next_block w, 4) w'
    /\ blocks w' = <[next_block w := buffer env 1 str]> (blocks w).
Proof.
  pose proof (length_cstring_bytes str) as Hlen.
  set (b := next_block w).
  set (zeros := replicate (Z.to_nat (sizeof_uint32 + strlen str + 1)) x00).
  set (enc := encode32 (checkEndianness env) 1).
  assert (Hz : length zeros = (4 + length (cstring_bytes str))%nat).
  { unfold zeros. rewrite length_replicate, Hlen. unfold strlen, sizeof_uint32. lia. }
  assert (He : length enc = 4%nat) by apply length_encode32.
  unfold create_string.
  erewrite bind_Ok; [| reflexivity]. fold b zeros.
  unfold store_uint32. fold enc.
  erewrite bind_Ok.
  2:{ apply (store_bytes_spec _ b 0 zeros enc).
      - cbn [blocks]. apply lookup_insert_eq.
      - rewrite He, Hz. lia. }
  cbn [fst snd]. change (0 + sizeof_uint32) with (Z.of_nat 4).
  erewrite bind_Ok.
  2:{ apply (store_bytes_spec _ b 4 (take 0 zeros ++ enc ++ drop (0 + length enc) zeros)
               (cstring_bytes str)).
      - cbn [blocks set_blocks]. apply lookup_insert_eq.
      - rewrite !length_app, length_take, length_drop, He, Hz. lia. }
  eexists. split; [reflexivity|].
  cbn [blocks set_blocks]. rewrite !insert_insert_eq. f_equal.
  rewrite take_0. cbn [app]. rewrite He.
  rewrite take_app_length' by (symmetry; exact He).
  unfold buffer. fold enc. f_equal.
  rewrite drop_app_add' by (symmetry; exact He).
  rewrite drop_ge; [apply app_nil_r|]. rewrite length_drop, Hz. lia.
Qed.

(** X29.  For a buffer made by [create_string]: any interleaving of copies and
    releases that keeps a holder alive, followed by the release of the last
    holder, leaves the blocks as they were before the construction. *)
Theorem refcount_discipline (str : string) (ops : list pool_op) (w : world) :
  blocks w !! next_block w = None ->
  stays_live 1 ops = true -> count_after 1 ops = 1 ->
  exists w',
    (p <- create_string env str ;; run_ops env p ops ;; release_string env p) w = Ok tt w'
    /\ blocks w' = blocks w.
Proof.
  intros Hfresh Hlive Hcount.
  destruct (create_string_spec str w) as (w1 & Hcreate & Hb1).
  erewrite bind_Ok; [| exact Hcreate].
  assert (Hlook : blocks w1 !! next_block w = Some (buffer env 1 str))
    by (rewrite Hb1; apply lookup_insert_eq).
  destruct (run_ops_spec ops w1 (next_block w) 1 str Hlook ltac:(lia) Hlive) as [Hrun _].
  erewrite bind_Ok; [| exact Hrun]. rewrite Hcount.
  erewrite release_string_spec.
  2:{ cbn [blocks set_blocks]. apply lookup_insert_eq. }
  2:{ lia. }
  eexists. split; [reflexivity|].
  cbn [blocks set_blocks Z.eqb Pos.eqb]. rewrite delete_insert_eq, Hb1.
  rewrite delete_insert_eq. now apply delete_id.
Qed.
(** ** The same discipline, on handles *)

Lemma local_of_cstr_buffer (str : string) (w : world) :
  exists h w',
    local_of_cstr env str w = Ok h w'
    /\ local_t h = type.stateless_string
    /\ local_value h = v_string (next_block w, 4)
    /\ local_L h = None
    /\ local_tindex h = table_index_default
    /\ blocks w' = <[next_block w := buffer env 1 str]> (blocks w).
Proof.
  destruct (create_string_spec str w) as (w' & Hcreate & Hb).
  unfold local_of_cstr. erewrite bind_Ok; [| exact Hcreate].
  eexists _, _. split; [reflexivity|]. split_and!; try reflexivity. exact Hb.
Qed.

Lemma local_copy_stateless (h : local) (p : char_ptr) (w : world) :
  local_t h = type.stateless_string -> local_value h = v_string p ->
  local_copy env h w =
    (p' <- copy_string env p ;;
     ret {| local_s := local_s h; local_L := local_L h;
            local_t := type.stateless_string; local_value := v_string p';
            local_tindex := table_index_default; local_cargs := 0 |}) w.
Proof.
  intros Ht Hv. unfold local_copy, copy_value, is_ref_type. fields.
  rewrite Ht, Hv. cbn [type.eqb orb read_string]. norm. fields.
  cbn [type.eqb]. norm. reflexivity.
Qed.

Lemma local_dtor_stateless (h : local) (p : char_ptr) (w : world) :
  local_t h = type.stateless_string -> local_value h = v_string p ->
  local_tindex h = table_index_default ->
  local_dtor env h w = release_string env p w.
Proof.
  intros Ht Hv Hti. unfold local_dtor, release, is_table, is_ref_type.
  rewrite Ht. cbn [type.eqb orb]. norm. rewrite Ht, Hv.
  cbn [type.eqb orb read_string]. rewrite andb_false_r. norm.
  unfold bind, ret.
  destruct (release_string env p w) as [[] w' | | |]; try reflexivity.
  now rewrite Hti.
Qed.

(** X30.  A handle made from a literal, a copy of it, and the destruction of
    both: the blocks are what they were. *)
Lemma stateless_handles_discipline (str : string) (w : world) :
  blocks w !! next_block w = None ->
  exists w',
    (h1 <- local_of_cstr env str ;;
     h2 <- local_copy env h1 ;;
     local_dtor env h1 ;;
     local_dtor env h2) w = Ok tt w'
    /\ blocks w' = blocks w.
Proof.
  intros Hfresh. set (b := next_block w).
  destruct (local_of_cstr_buffer str w) as (h1 & w1 & Hmk & Ht & Hv & _ & Hti & Hb1).
  fold b in Hv, Hb1.
  erewrite bind_Ok; [| exact Hmk].
  assert (Hl1 : blocks w1 !! b = Some (buffer env 1 str))
    by (rewrite Hb1; apply lookup_insert_eq).
  erewrite bind_Ok.
  2:{ rewrite (local_copy_stateless h1 (b, 4)) by assumption.
      erewrite bind_Ok; [| apply copy_string_spec with (c := 1) (str := str);
                           [exact Hl1 | lia | lia]].
      reflexivity. }
  erewrite bind_Ok.
  2:{ rewrite (local_dtor_stateless h1 (b, 4)) by assumption.
      apply release_string_spec with (c := 1 + 1) (str := str); [| lia].
      cbn [blocks set_blocks]. apply lookup_insert_eq. }
  change (1 + 1 =? 1) with false. change (1 + 1 - 1) with 1. cbv iota.
  erewrite local_dtor_stateless by reflexivity.
  erewrite release_string_spec with (c := 1) (str := str).
  2:{ cbn [blocks set_blocks]. apply lookup_insert_eq. }
  2:{ lia. }
  eexists. split; [reflexivity|].
  change (1 =? 1) with true. cbn [blocks set_blocks].
  rewrite !delete_insert_eq, Hb1, delete_insert_eq. now apply delete_id.
Qed.

End Pool.

(* ===================================================================== *)
(** * The code on concrete inputs *)
(* ===================================================================== *)

Section Runs.
Context (env : environment).

(** ** Calls *)

(** A call that returns exactly one value yields that value as a handle. *)
Lemma call_with_one_result :
  match local_call env (anchored env type.function 2) [] sample_world with
  | Ok (r, _) w' =>
      local_t r = type.integer /\ local_value r = v_integer 7
  | _ => False
  end.
Proof. vm_compute. split_and!; reflexivity. Qed.

(** C1. Under the table return policy, a call that returns the two values
    10 and 20 yields a handle of a fresh table (address 1), but the table
    holds [0 -> the table itself] and [1 -> 20]: [create_table] leaves the
    new table on the stack, so index [-1] is the table and index [-2] the
    last result.  The first result, 10, is stored nowhere and stays on the
    stack.  A call that returns nothing yields a handle whose tag was never
    initialised. *)
Theorem table_return_misplaces_results :
  match local_call env (anchored env type.function 3) [] sample_world with
  | Ok (r, _) w' =>
      local_t r = type.table
      /\ referent r w' = Some (LTable 1)
      /\ table_at w' L0 1 = Some [(num 1, num 20); (num 0, LTable 1)]
      /\ stack_of w' L0 = Some [num 10]
  | _ => False
  end
  /\
  match local_call env (anchored env type.function 1) [] sample_world with
  | Ok (r, _) w' =>
      local_t r = indeterminate_type env
      /\ local_value r = v_indeterminate
  | _ => False
  end.
Proof. split; vm_compute; split_and!; reflexivity. Qed.

(** C2. The stack of the sample interpreter is empty before each call.
    After a call that returns one value the value is still on the stack
    (depth 1), and after a call that returns two values the first of them
    is (depth 1); only the call without results and the call that raises
    leave the depth at 0. *)
Theorem call_leaves_result_on_stack :
  stack_depth sample_world L0 = Some 0%nat
  /\ match local_call env (anchored env type.function 2) [] sample_world with
     | Ok _ w' => stack_of w' L0 = Some [num 7]
     | _ => False
     end
  /\ match local_call env (anchored env type.function 3) [] sample_world with
     | Ok _ w' => stack_of w' L0 = Some [num 10]
     | _ => False
     end
  /\ match local_call env (anchored env type.function 1) [] sample_world with
     | Ok _ w' => stack_of w' L0 = Some []
     | _ => False
     end
  /\ match local_call env (anchored env type.function 4) [] sample_world with
     | Throw e w' => e = runtime_error "boom" /\ stack_of w' L0 = Some []
     | _ => False
     end.
Proof. split_and!; vm_compute; split_and?; reflexivity. Qed.

(** C3. Invoking a table handle without arguments is not rejected: the
    overload without parameters has no [check_is_function], so the table is
    pushed and the protected call runs (and fails inside the interpreter,
    which surfaces as a [runtime_error]).  With one argument the same
    handle is rejected before anything is called. *)
Theorem call_without_arguments_is_unchecked :
  pcalls_of sample_world L0 = Some 0%nat
  /\ match local_call env (anchored env type.table 5) [] sample_world with
     | Throw e w' =>
         e = runtime_error "attempt to call a table value"
         /\ pcalls_of w' L0 = Some 1%nat
     | _ => False
     end
  /\ match local_call env (anchored env type.table 5)
             [local_of_bool env true] sample_world with
     | Throw e w' =>
         e = logic_error "Cannot call a local that is not a function"
         /\ pcalls_of w' L0 = Some 0%nat
     | _ => False
     end.
Proof. split_and!; vm_compute; split_and?; reflexivity. Qed.

(** ** Globals *)

(** C5. With the number 7 on top of the stack, [set_global] of a handle
    that holds [true] under the name "x" stores 7 under "x" and leaves
    [true] on the stack: [lua_setglobal] runs before the handle is pushed.
    [get_global] then returns a handle that holds the integer 7. *)
Theorem set_global_stores_old_top :
  match
    (lua_pushinteger L0 7 ;;
     h <- local_of_state_bool env (Some 0%nat) true ;;
     state_set_global env (Some 0%nat) h "x" ;;
     g <- state_get_global env (Some 0%nat) "x" ;;
     ret (h, g)) sample_world
  with
  | Ok (h, g) w' =>
      local_t h = type.boolean /\ local_value h = v_boolean true
      /\ local_t g = type.integer /\ local_value g = v_integer 7
      /\ global_at w' L0 "x" = Some (num 7)
      /\ stack_of w' L0 = Some [LBoolean true]
  | _ => False
  end.
Proof. vm_compute. split_and!; reflexivity. Qed.

(** ** Numbers *)

Lemma numberToInteger_three_and_a_half :
  numberToInteger env three_and_a_half = 4.
Proof.
  unfold numberToInteger, double_words.
  destruct (checkEndianness env); vm_compute; reflexivity.
Qed.

Lemma numberToInteger_three : numberToInteger env three = 3.
Proof.
  unfold numberToInteger, double_words.
  destruct (checkEndianness env); vm_compute; reflexivity.
Qed.

(** The conversion rounds halves to the even neighbour: 0.5, 1.5, 2.5 and
    -2.5 give 0, 2, 2 and -2. *)
Lemma numberToInteger_rounds_half_to_even :
  numberToInteger env (Double.make 1 (-1)) = 0
  /\ numberToInteger env (Double.make 3 (-1)) = 2
  /\ numberToInteger env (Double.make 5 (-1)) = 2
  /\ numberToInteger env (Double.make (-5) (-1)) = -2.
Proof.
  unfold numberToInteger, double_words.
  destruct (checkEndianness env); vm_compute; split_and!; reflexivity.
Qed.

(** C6. [set_as_number] never keeps the number tag: given 3.5 the handle
    becomes the integer 4, because [integerize] converts without comparing
    the number with its integer part.  The constructor from a number never
    classifies: given 3.0 the handle keeps the tag number.  On a handle
    with the tag number, [to_integer] rounds to nearest even: 3.5 gives
    4. *)
Theorem set_as_number_always_integer (w : world) :
  (exists h, set_as_number env (local_default env) three_and_a_half w = Ok h w
             /\ local_t h = type.integer /\ local_value h = v_integer 4)
  /\ (exists h, set_as_number env (local_default env) three w = Ok h w
                /\ local_t h = type.integer /\ local_value h = v_integer 3)
  /\ local_t (local_of_number env three) = type.number
  /\ local_t (local_of_number env three_and_a_half) = type.number
  /\ to_integer env (local_of_number env three_and_a_half) w = Ok 4 w.
Proof.
  assert (Hset : forall n,
    set_as_number env (local_default env) n w =
    Ok (with_t type.integer
          (with_value (v_integer (numberToInteger env n))
             (with_value (v_number n)
                (with_t type.number (local_default env))))) w)
    by reflexivity.
  repeat split.
  - eexists. rewrite Hset, numberToInteger_three_and_a_half.
    repeat split; reflexivity.
  - eexists. rewrite Hset, numberToInteger_three.
    repeat split; reflexivity.
  - unfold to_integer, local_of_number, mk_local. fields.
    cbn [type.eqb read_number]. norm.
    now rewrite numberToInteger_three_and_a_half.
Qed.

(** ** Stateless strings *)

(** The constructor from a literal allocates the count in front of the
    characters; copies share the buffer, and the last destructor frees
    it. *)
Lemma stateless_string_lifecycle :
  match
    (h1 <- local_of_cstr env "x" ;;
     h2 <- local_copy env h1 ;;
     local_dtor env h1 ;;
     s <- to_string env h2 ;;
     local_dtor env h2 ;;
     ret (local_value h1, s)) sample_world
  with
  | Ok (v, s) w' =>
      v = v_string (0%nat, 4) /\ s = Some "x"
      /\ live_buffers w' = live_buffers sample_world
  | _ => False
  end.
Proof. destruct env as [[] ? ? ? ? ?]; vm_compute; split_and!; reflexivity. Qed.

(** C7. [set_as_string] on a handle without a context allocates a buffer
    of [strlen + 1] bytes that holds the characters only, and stores the
    address of its first byte.  There is no reference count in front of
    the characters: releasing or copying the handle reads four bytes
    before the start of the block. *)
Theorem set_as_string_buffer_lacks_refcount :
  match set_as_string env (local_default env) "x" sample_world with
  | Ok h w' =>
      local_t h = type.stateless_string
      /\ local_value h = v_string (0%nat, 0)
      /\ blocks w' !! 0%nat = Some (cstring_bytes "x")
      /\ get_string_refc (0%nat, 0) = (0%nat, -4)
      /\ local_dtor env h w' = Undefined
      /\ local_copy env h w' = Undefined
  | _ => False
  end.
Proof. vm_compute. split_and!; reflexivity. Qed.

(** ** Assignment *)

(** C9. Assigning a handle to itself releases the payload and then copies
    from the released handle.  A table handle ends up with the reference
    [LUA_REFNIL]: its anchor is gone and it refers to nil.  A stateless
    string whose buffer has the count 1 frees the buffer and then reads
    the count of the freed buffer. *)
Theorem self_assignment_releases_payload :
  let h := anchored env type.table 5 in
  let w := set_locals {[ 0%nat := h ]} sample_world in
  referent h w = Some (LTable 0)
  /\ match local_assign_at env 0 0 w with
     | Ok _ w' =>
         match locals w' !! 0%nat with
         | Some h' =>
             local_t h' = type.table
             /\ local_value h' = v_ref LUA_REFNIL
             /\ referent h' w' = Some LNil
         | None => False
         end
     | _ => False
     end
  /\ match local_assign env h h sample_world with
     | Ok h' w' => local_value h' = v_ref LUA_REFNIL
                   /\ referent h' w' = Some LNil
     | _ => False
     end
  /\ (s <- local_of_cstr env "x" ;;
      store_local 0 s ;;
      local_assign_at env 0 0) sample_world = Undefined.
Proof.
  destruct env as [[] ? ? ? ? ?]; cbv zeta;
    split_and!; vm_compute; split_and?; reflexivity.
Qed.

End Runs.

(* ===================================================================== *)
(** * The registry as the anchor of handles *)
(* ===================================================================== *)

Lemma registry_get_set_eq n v st :
  Interp.registry_get n (Interp.registry_set n v st) = v.
Proof.
  unfold Interp.registry_get, Interp.registry_set. simpl.
  destruct v; simpl; rewrite ?lookup_delete_eq, ?lookup_insert_eq; reflexivity.
Qed.

Lemma registry_get_set_ne n m v st :
  n <> m ->
  Interp.registry_get m (Interp.registry_set n v st) = Interp.registry_get m st.
Proof.
  intros H. unfold Interp.registry_get, Interp.registry_set. simpl.
  destruct v; simpl; rewrite ?lookup_delete_ne, ?lookup_insert_ne by exact H;
    reflexivity.
Qed.

Lemma stack_of_put (p : nat) (st : lua_State) (w : world) :
  stack_of (put_interp p st w) (Some p) = Some (stack st).
Proof. unfold stack_of, interp_of. simpl. now rewrite lookup_insert_eq. Qed.

Lemma anchors_at_refl r st : anchors_at r st st.
Proof. unfold anchors_at. split_and!; auto. Qed.

Ltac top_query :=
  lua_step ltac:(eapply query_top; first [eassumption | reflexivity]).

Ltac type_tests :=
  cbn [Interp.isnil Interp.isboolean Interp.isnumber Interp.isstring
       Interp.isfunction Interp.iscfunction Interp.isuserdata
       Interp.islightuserdata Interp.isthread Interp.istable].

Section Anchors.
Context (env : environment).

(** [luaL_ref] on a value that is not nil *)
Lemma ref_anchor st v rest :
  stack st = v :: rest -> v <> LNil ->
  exists st',
    Interp.ref env st = LuaOk (next_ref env st) st'
    /\ Interp.registry_get (next_ref env st) st' = v
    /\ anchors_at (next_ref env st) (set_stack rest st) st'.
Proof.
  intros Hs Hv. unfold Interp.ref, next_ref, anchors_at. rewrite Hs.
  set (free := to_int (Interp.tointeger env (Interp.registry_get FREELIST_REF st))).
  assert (Hskip : forall s0 r0, Interp.registry_get r0 (set_stack rest s0)
                                = Interp.registry_get r0 s0) by reflexivity.
  destruct v; try (now destruct Hv);
    destruct (free =? 0) eqn:Hf;
    (eexists; split; [reflexivity|]; split; [apply registry_get_set_eq|];
     split_and!; try reflexivity;
     [ intros r Hr H0; rewrite registry_get_set_ne by congruence;
       rewrite ?Hskip; rewrite ?registry_get_set_ne by congruence; reflexivity ]).
Qed.

(** [luaL_unref] *)
Lemma unref_effect (r : Z) (st : lua_State) :
  exists st', Interp.unref r st = LuaOk tt st' /\ anchors_at r st st'.
Proof.
  unfold Interp.unref, anchors_at. destruct (0 <=? r).
  - eexists. split; [reflexivity|]. split_and!; try reflexivity.
    intros m Hm H0. rewrite !registry_get_set_ne by congruence. reflexivity.
  - exists st. split_and!; reflexivity || (intros; reflexivity).
Qed.

Lemma load_ref_value_no_type_anchor (this : local) (w : world) A st v rest :
  local_L this = Some A -> interps w !! A = Some st ->
  stack st = v :: rest -> v <> LNil ->
  exists st',
    load_ref_value_no_type env this (-1) w
      = Ok (with_value (v_ref (next_ref env st)) this) (put_interp A st' w)
    /\ Interp.registry_get (next_ref env st) st' = v
    /\ anchors_at (next_ref env st) st st'.
Proof.
  intros HL Hp Hs Hv. unfold load_ref_value_no_type. rewrite HL.
  unfold lua_pushvalue, luaL_ref_registry.
  lua_step ltac:(eapply pushvalue_top; exact Hs).
  destruct (ref_anchor (push v st) v (stack st) eq_refl Hv)
    as (st' & Href & Hget & Hst').
  lua_step ltac:(exact Href). norm.
  exists st'. split; [reflexivity|]. split; [exact Hget|].
  destruct st; exact Hst'.
Qed.

(** [load_value] on the top of the stack: the chain of type tests comes to
    the case analysis of [tag_of] and [payload_of]. *)
Lemma load_value_spec (lcl : local) (w : world) A st v rest :
  local_L lcl = Some A -> interps w !! A = Some st -> stack st = v :: rest ->
  exists st',
    load_value env lcl (-1) w
      = Ok (with_value (payload_of env v (local_value lcl) (next_ref env st))
              (with_t (tag_of env v) lcl))
           (put_interp A st' w)
    /\ anchors_at (next_ref env st) st st'
    /\ (ref_kind (tag_of env v) = true ->
        Interp.registry_get (next_ref env st) st' = v).
Proof.
  intros HL Hp Hs.
  assert (Href : forall t0, v <> LNil ->
    exists st',
      load_ref_value_no_type env (with_t t0 lcl) (-1) (put_interp A st w)
      = Ok (with_value (v_ref (next_ref env st)) (with_t t0 lcl))
           (put_interp A st' w)
      /\ Interp.registry_get (next_ref env st) st' = v
      /\ anchors_at (next_ref env st) st st').
  { intros t0 Hv.
    destruct (load_ref_value_no_type_anchor (with_t t0 lcl) (put_interp A st w)
                A st v rest HL (put_interp_lookup _ _ _) Hs Hv)
      as (st' & Hrun & Hget & Hst').
    rewrite put_interp_put in Hrun. eauto. }
  assert (Hsame : put_interp A st (put_interp A st w) = put_interp A st w)
    by apply put_interp_put.
  unfold load_value, load_ref_value. rewrite HL.
  unfold lua_isnil, lua_isboolean, lua_isnumber, lua_iscfunction,
    lua_islightuserdata, lua_toboolean, lua_tointeger, lua_tonumber,
    lua_tocfunction, lua_touserdata, lua_isstring, lua_isfunction,
    lua_isuserdata, lua_isthread, lua_istable.
  pose proof (anchors_at_refl (next_ref env st) st) as Hrefl.
  destruct v.
  - top_query. type_tests. norm. exists st. split_and!; auto; discriminate.
  - do 2 (top_query; type_tests). top_query. norm.
    exists st. destruct b; split_and!; auto; discriminate.
  - do 3 (top_query; type_tests). do 2 top_query.
    cbn [Interp.tointeger Interp.tonumber tag_of payload_of]. unfold integral.
    destruct (Double.eqb _ _) eqn:E; top_query; norm;
      exists st; split_and!; auto; discriminate.
  - do 3 (top_query; type_tests).
    cbn [tag_of payload_of Interp.tointeger Interp.tonumber]. unfold integral.
    destruct (str2number env str) as [n|] eqn:Hn.
    + cbn [default]. change (bool_decide (is_Some (Some n))) with true. cbv iota.
      do 2 top_query. cbn [Interp.tointeger Interp.tonumber]. rewrite Hn.
      cbn [default].
      destruct (Double.eqb _ _) eqn:E; top_query; norm;
        cbn [Interp.tointeger Interp.tonumber]; rewrite Hn; cbn [default];
        exists st; split_and!; auto; discriminate.
    + change (bool_decide (is_Some (@None lua_Number))) with false. cbv iota.
      do 2 (top_query; type_tests). top_query. type_tests. norm.
      destruct (Href type.string) as (st' & Hrun & Hget & Hst'); [discriminate|].
      rewrite Hrun. exists st'. split_and!; auto.
  - do 3 (top_query; type_tests). do 3 (top_query; type_tests).
    top_query; type_tests. norm.
    destruct (Href type.function) as (st' & Hrun & Hget & Hst'); [discriminate|].
    rewrite Hrun. exists st'. split_and!; auto.
  - do 4 (top_query; type_tests). top_query. norm.
    exists st. split_and!; auto; discriminate.
  - do 5 (top_query; type_tests). do 3 (top_query; type_tests). norm.
    destruct (Href type.userdata) as (st' & Hrun & Hget & Hst'); [discriminate|].
    rewrite Hrun. exists st'. split_and!; auto.
  - do 5 (top_query; type_tests). top_query. norm.
    exists st. split_and!; auto; discriminate.
  - do 5 (top_query; type_tests). do 4 (top_query; type_tests). norm.
    destruct (Href type.thread) as (st' & Hrun & Hget & Hst'); [discriminate|].
    rewrite Hrun. exists st'. split_and!; auto.
  - do 5 (top_query; type_tests). do 5 (top_query; type_tests). norm.
    destruct (Href type.table) as (st' & Hrun & Hget & Hst'); [discriminate|].
    rewrite Hrun. exists st'. split_and!; auto.
Qed.

End Anchors.

Lemma referent_put (l : local) (w : world) A st r :
  local_L l = Some A -> local_value l = v_ref r ->
  referent l (put_interp A st w) = Some (Interp.registry_get r st).
Proof.
  intros HL Hv. unfold referent, interp_of. rewrite Hv, HL. simpl.
  now rewrite lookup_insert_eq.
Qed.

Section AnchorRuns.
Context (env : environment).

Lemma payload_of_ref_kind (v : lval) (old : value_union) (r : Z) :
  ref_kind (tag_of env v) = true -> payload_of env v old r = v_ref r.
Proof.
  destruct v as [| |n|str| | | | | |]; cbn [tag_of payload_of ref_kind];
    try discriminate; try reflexivity.
  - destruct (integral n); discriminate.
  - destruct (str2number env str) as [n|]; [|reflexivity].
    destruct (integral n); discriminate.
Qed.

(** X1.  [load_ref_value_no_type] followed by [push_ref_value]: a value on
    top of the stack that is not nil is anchored under the reference that
    the registry hands out next, the stack is left as it was, and pushing
    the handle puts the same value on top once more. *)
Theorem anchor_round_trip (this : local) (w : world) A st v rest :
  local_L this = Some A -> interps w !! A = Some st ->
  stack st = v :: rest -> v <> LNil ->
  exists l' w',
    load_ref_value_no_type env this (-1) w = Ok l' w'
    /\ local_value l' = v_ref (next_ref env st)
    /\ local_t l' = local_t this
    /\ referent l' w' = Some v
    /\ stack_of w' (Some A) = Some (v :: rest)
    /\ exists w'', push_ref_value l' w' = Ok tt w''
                   /\ stack_of w'' (Some A) = Some (v :: v :: rest).
Proof.
  intros HL Hp Hs Hv.
  destruct (load_ref_value_no_type_anchor env this w A st v rest HL Hp Hs Hv)
    as (st' & Hrun & Hget & Hst' & _).
  eexists _, _. split; [exact Hrun|]. fields.
  split; [reflexivity|]. split; [reflexivity|]. split.
  { erewrite referent_put by (fields; eauto). now rewrite Hget. }
  split. { now rewrite stack_of_put, Hst', Hs. }
  unfold push_ref_value. fields. cbn [read_ref]. norm. rewrite HL.
  unfold lua_rawgeti_registry.
  eexists. split.
  - eapply lua_Ok; [apply put_interp_lookup | reflexivity].
  - rewrite put_interp_put, stack_of_put. unfold Interp.rawgeti_registry. simpl.
    now rewrite Hget, Hst', Hs.
Qed.

(** X2.  [load_value] classifies the value on top of the stack by the value
    alone: numbers and the strings that convert to a number become [integer]
    when the conversion to [lua_Integer] loses nothing and [number]
    otherwise, C functions and light userdata are told from functions and
    userdata, the reference kinds are anchored, and the stack is left as it
    was. *)
Theorem load_value_classifies (lcl : local) (w : world) A st v rest :
  local_L lcl = Some A -> interps w !! A = Some st -> stack st = v :: rest ->
  exists l' w',
    load_value env lcl (-1) w = Ok l' w'
    /\ local_t l' = tag_of env v
    /\ local_value l' = payload_of env v (local_value lcl) (next_ref env st)
    /\ stack_of w' (Some A) = Some (v :: rest)
    /\ (ref_kind (tag_of env v) = true -> referent l' w' = Some v).
Proof.
  intros HL Hp Hs.
  destruct (load_value_spec env lcl w A st v rest HL Hp Hs)
    as (st' & Hrun & (Hst' & _) & Hget).
  eexists _, _. split; [exact Hrun|]. fields. split_and!; try reflexivity.
  - now rewrite stack_of_put, Hst', Hs.
  - intros Hk. erewrite referent_put;
      [| exact HL | fields; apply payload_of_ref_kind; exact Hk].
    now rewrite (Hget Hk).
Qed.

End AnchorRuns.

(* ===================================================================== *)
(** * Copies of anchored handles *)
(* ===================================================================== *)

Section Copies.
Context (env : environment).

(** The copy constructor on a handle of a reference kind: the value is
    pushed, anchored a second time and popped. *)
Lemma local_copy_anchor (lcl : local) (w : world) A st r :
  ref_kind (local_t lcl) = true -> local_value lcl = v_ref r ->
  local_L lcl = Some A -> interps w !! A = Some st ->
  Interp.registry_get r st <> LNil ->
  exists st',
    local_copy env lcl w
    = Ok {| local_s := local_s lcl; local_L := Some A;
            local_t := local_t lcl; local_value := v_ref (next_ref env st);
            local_tindex := table_index_default; local_cargs := 0 |}
         (put_interp A st' w)
    /\ Interp.registry_get (next_ref env st) st' = Interp.registry_get r st
    /\ anchors_at (next_ref env st) st st'.
Proof.
  intros Hk Hv HL Hp Hnil. destruct lcl as [s L t v ti c]. simpl in *.
  subst L v.
  unfold local_copy, copy_value. rewrite is_ref_type_ref_kind. fields.
  rewrite Hk. unfold push_ref_value. fields. cbn [read_ref].
  unfold lua_rawgeti_registry, lua_pop.
  lua_step ltac:(reflexivity).
  match goal with
  | |- context [load_ref_value_no_type env ?l (-1)] =>
      destruct (load_ref_value_no_type_anchor env l
                  (put_interp A (push (Interp.registry_get r st) st) w) A
                  (push (Interp.registry_get r st) st)
                  (Interp.registry_get r st) (stack st)
                  eq_refl (put_interp_lookup _ _ _) eq_refl Hnil)
        as (st1 & Hrun & Hget & Hst1)
  end.
  rewrite put_interp_put in Hrun.
  norm. erewrite bind_Ok; [| exact Hrun]. fields.
  destruct Hst1 as (Hs1 & Ht1 & Hg1 & Hn1 & Hc1 & Hp1 & Hr1).
  lua_step ltac:(eapply pop_one; exact Hs1).
  norm. fields.
  assert (Hs : type.eqb t type.stateless_string = false)
    by (destruct t; try discriminate; reflexivity).
  rewrite Hs. eexists. split; [reflexivity|].
  split; [exact Hget|]. unfold anchors_at. split_and!; auto.
Qed.

(** The destructor on a handle of a reference kind *)
Lemma local_dtor_anchor_at (l : local) (w : world) A st r :
  ref_kind (local_t l) = true -> local_value l = v_ref r ->
  local_L l = Some A -> local_tindex l = table_index_default ->
  interps w !! A = Some st ->
  exists st',
    local_dtor env l w = Ok tt (put_interp A st' w) /\ anchors_at r st st'.
Proof.
  intros Hk Hv HL Hti Hp. destruct l as [s L t v ti c]. simpl in *.
  subst L v ti.
  destruct (unref_effect r st) as (st' & Hun & Hst').
  assert (Hrun :
    (if bool_decide (Some A ≠ (None : lua_State_ptr)) && ref_kind t
     then r0 <- read_ref (v_ref r) ;; luaL_unref_registry (Some A) r0
     else if type.eqb t type.stateless_string
          then p0 <- read_string (v_ref r) ;; release_string env p0
          else ret tt) w = Ok tt (put_interp A st' w)).
  { rewrite Hk. rewrite bool_decide_true by discriminate. cbn [andb read_ref].
    norm. unfold luaL_unref_registry. now apply lua_Ok with (st := st). }
  unfold local_dtor, release. unfold is_table at 1. fields.
  destruct (type.eqb t type.table) eqn:Ht.
  - norm. erewrite bind_Ok; [| apply table_index_assign_default].
    norm. fields. rewrite is_ref_type_ref_kind. fields.
    erewrite bind_Ok; [| exact Hrun]. norm. fields.
    exists st'. split; [reflexivity | exact Hst'].
  - norm. fields. rewrite is_ref_type_ref_kind. fields.
    erewrite bind_Ok; [| exact Hrun]. norm. fields.
    exists st'. split; [reflexivity | exact Hst'].
Qed.

(** X3.  The copy constructor on an anchored handle: the copy has the tag
    and the context of the original and a reference of its own, both
    references lead to the same value, and the stack is left as it was. *)
Theorem copy_shares_referent (lcl : local) (w : world) A st r v :
  ref_kind (local_t lcl) = true -> local_value lcl = v_ref r ->
  local_L lcl = Some A -> interps w !! A = Some st ->
  Interp.registry_get r st = v -> v <> LNil ->
  r <> next_ref env st -> r <> FREELIST_REF ->
  exists c w',
    local_copy env lcl w = Ok c w'
    /\ local_t c = local_t lcl /\ local_s c = local_s lcl
    /\ local_L c = local_L lcl
    /\ local_value c = v_ref (next_ref env st)
    /\ referent c w' = Some v
    /\ referent lcl w' = Some v
    /\ stack_of w' (Some A) = Some (stack st).
Proof.
  intros Hk Hv HL Hp Hr Hnil Hfresh H0. subst v.
  destruct (local_copy_anchor lcl w A st r Hk Hv HL Hp Hnil)
    as (st' & Hrun & Hget & Hs & _ & _ & _ & _ & _ & Hother).
  eexists _, _. split; [exact Hrun|]. fields.
  split_and!; auto.
  - erewrite referent_put by (fields; eauto). now rewrite Hget.
  - erewrite referent_put by eauto. now rewrite Hother.
  - now rewrite stack_of_put, Hs.
Qed.

(** X4.  A copy has a lifetime of its own: after the copy of an anchored
    handle is destroyed, the original still leads to its value, and the
    stack is as it was. *)
Theorem copy_has_own_lifetime (lcl : local) (w : world) A st r v :
  ref_kind (local_t lcl) = true -> local_value lcl = v_ref r ->
  local_L lcl = Some A -> interps w !! A = Some st ->
  Interp.registry_get r st = v -> v <> LNil ->
  r <> next_ref env st -> r <> FREELIST_REF ->
  exists w',
    (c <- local_copy env lcl ;; local_dtor env c) w = Ok tt w'
    /\ referent lcl w' = Some v
    /\ stack_of w' (Some A) = Some (stack st)
    /\ blocks w' = blocks w.
Proof.
  intros Hk Hv HL Hp Hr Hnil Hfresh H0. subst v.
  destruct (local_copy_anchor lcl w A st r Hk Hv HL Hp Hnil)
    as (st1 & Hrun & Hget & Hs1 & _ & _ & _ & _ & _ & Hother1).
  erewrite bind_Ok; [| exact Hrun].
  match goal with
  | |- context [local_dtor env ?c _] =>
      destruct (local_dtor_anchor_at c (put_interp A st1 w) A st1
                  (next_ref env st) Hk eq_refl eq_refl eq_refl
                  (put_interp_lookup _ _ _))
        as (st2 & Hdtor & Hs2 & _ & _ & _ & _ & _ & Hother2)
  end.
  rewrite put_interp_put in Hdtor.
  eexists. split; [exact Hdtor|]. split_and!.
  - erewrite referent_put by eauto. rewrite Hother2, Hother1 by auto.
    reflexivity.
  - now rewrite stack_of_put, Hs2, Hs1.
  - reflexivity.
Qed.

End Copies.

(* ===================================================================== *)
(** * Numbers as table keys *)
(* ===================================================================== *)

Lemma shr_1_nonneg mrs : 0 <= shr_m mrs -> 0 <= shr_m (shr_1 mrs).
Proof.
  destruct mrs as [m r s]. simpl.
  destruct m as [|p|p]; [| destruct p | lia]; simpl; lia.
Qed.

Lemma iter_pos_shr_1_nonneg p mrs :
  0 <= shr_m mrs -> 0 <= shr_m (SpecFloat.iter_pos shr_1 p mrs).
Proof.
  revert mrs. induction p as [p IH|p IH|]; intros mrs H; simpl.
  - apply IH. apply IH. apply shr_1_nonneg. exact H.
  - apply IH. apply IH. exact H.
  - apply shr_1_nonneg. exact H.
Qed.

Lemma shr_fexp_nonneg m e l :
  0 <= m -> 0 <= shr_m (fst (shr_fexp Double.prec Double.emax m e l)).
Proof.
  intros H. unfold shr_fexp, shr.
  assert (H0 : 0 <= shr_m (shr_record_of_loc m l))
    by (destruct l as [|[]]; exact H).
  destruct (_ - e); simpl; auto. now apply iter_pos_shr_1_nonneg.
Qed.

Lemma round_nearest_even_nonneg m l : 0 <= m -> 0 <= round_nearest_even m l.
Proof.
  intros H. unfold round_nearest_even.
  destruct l as [|[]]; try destruct (Z.even m); lia.
Qed.

Lemma binary_round_aux_not_nan sx mx ex lx :
  0 <= mx ->
  Double.isnan (binary_round_aux Double.prec Double.emax sx mx ex lx) = false.
Proof.
  intros H. unfold binary_round_aux.
  pose proof (shr_fexp_nonneg mx ex lx H) as H1.
  destruct (shr_fexp Double.prec Double.emax mx ex lx) as [mrs' e'].
  simpl in H1.
  pose proof (shr_fexp_nonneg
                (round_nearest_even (shr_m mrs') (loc_of_shr_record mrs'))
                e' loc_Exact (round_nearest_even_nonneg _ _ H1)) as H2.
  destruct (shr_fexp Double.prec Double.emax _ e' loc_Exact) as [mrs'' e''].
  simpl in H2.
  destruct (shr_m mrs'') as [|m|m]; [reflexivity | | lia].
  now destruct (e'' <=? _).
Qed.

(** The conversion of an integer is never a NaN. *)
Lemma of_Z_not_nan (i : Z) : Double.isnan (Double.of_Z i) = false.
Proof.
  unfold Double.of_Z, Double.make, binary_normalize.
  destruct i as [|p|p]; [reflexivity | |];
    unfold binary_round;
    destruct (shl_align _ _ _) as [mz ez];
    apply binary_round_aux_not_nan; lia.
Qed.

(** A number that is not a NaN equals itself. *)
Lemma eqb_refl_not_nan (n : lua_Number) :
  Double.isnan n = false -> Double.eqb n n = true.
Proof.
  unfold Double.eqb, SFeqb, SFcompare.
  destruct n as [[]|[]| |[] m e]; try discriminate; intros _; try reflexivity;
    rewrite Z.compare_refl, Pos.compare_cont_refl; reflexivity.
Qed.

Lemma raweq_refl_valid_key (k : lval) :
  valid_key k = true -> lval_raweq k k = true.
Proof.
  destruct k; simpl; try discriminate; intros H.
  - now destruct b.
  - apply eqb_refl_not_nan. now apply negb_true_iff.
  - apply String.eqb_refl.
  - apply Nat.eqb_refl.
  - apply Z.eqb_refl.
  - apply Nat.eqb_refl.
  - apply Z.eqb_refl.
  - apply Nat.eqb_refl.
  - apply Nat.eqb_refl.
Qed.

Lemma tab_get_remove (k : lval) (tb : table_body) :
  tab_get k (tab_remove k tb) = LNil.
Proof.
  induction tb as [|[k' v'] tb IH]; simpl; [reflexivity|].
  destruct (lval_raweq k k') eqn:E; simpl; [exact IH|]. now rewrite E.
Qed.

(** Reading a table at a key after writing it there *)
Lemma tab_get_set (k v : lval) (tb : table_body) :
  valid_key k = true -> tab_get k (tab_set k v tb) = v.
Proof.
  intros H. unfold tab_set.
  destruct v; simpl; rewrite ?(raweq_refl_valid_key k H);
    try reflexivity. apply tab_get_remove.
Qed.

(* ===================================================================== *)
(** * Handles whose payload lives in the handle *)
(* ===================================================================== *)

Lemma pushed_value_kind (l : local) (v : lval) :
  pushed_value l = Some v -> value_kind (local_t l) = true.
Proof. unfold pushed_value. destruct (local_t l); now try discriminate. Qed.

Lemma pushed_value_parameter (l : local) :
  pushed_value (parameter l) = pushed_value l.
Proof. reflexivity. Qed.

Lemma push_value_plain (l : local) (v : lval) (w : world) A st :
  pushed_value l = Some v -> interps w !! A = Some st ->
  push_value l (Some A) w = Ok tt (put_interp A (push v st) w).
Proof.
  intros Hv Hp. unfold pushed_value in Hv. unfold push_value.
  destruct (local_t l); try discriminate;
    destruct (local_value l); try discriminate;
    injection Hv as <-; cbn; unfold lua; rewrite Hp; reflexivity.
Qed.

Lemma check_state_consistancy_ok (l : local) (L : lua_State_ptr) (w : world) :
  consistent_with l L -> check_state_consistancy l L w = Ok tt w.
Proof.
  intros [H|H]; unfold check_state_consistancy; rewrite H.
  - rewrite bool_decide_false by (intros X; now apply X). reflexivity.
  - rewrite (bool_decide_false (L <> L)) by (intros X; now apply X).
    now rewrite andb_false_r.
Qed.

Lemma state_alive_put (w : world) s A p st :
  state_alive w s A -> state_alive (put_interp p st w) s A.
Proof. intros H. exact H. Qed.

Lemma index2adr_second st a b rest :
  stack st = a :: b :: rest -> Interp.index2adr st (-2) = Some b.
Proof.
  intros H. unfold Interp.index2adr, Interp.index2pos. rewrite H.
  assert (Hn : (- Z.of_nat (length (a :: b :: rest)) <=? -2) = true).
  { apply Z.leb_le. simpl length. lia. }
  rewrite Hn. reflexivity.
Qed.

Lemma gettable_second st k a rest tb :
  stack st = k :: LTable a :: rest -> tables (heap st) !! a = Some tb ->
  Interp.gettable (-2) st
  = LuaOk tt (set_stack (tab_get k tb :: LTable a :: rest) st).
Proof.
  intros Hs Htb. unfold Interp.gettable.
  rewrite (index2adr_second _ _ _ _ Hs), Hs, Htb. reflexivity.
Qed.

Lemma settable_third st v k a rest tb :
  stack st = v :: k :: LTable a :: rest -> tables (heap st) !! a = Some tb ->
  valid_key k = true ->
  Interp.settable (-3) st
  = LuaOk tt
      (set_stack (LTable a :: rest)
         (set_heap
            (set_tables (<[a := tab_set k v tb]> (tables (heap st))) (heap st))
            st)).
Proof.
  intros Hs Htb Hk. unfold Interp.settable.
  rewrite (index2adr_third _ _ _ _ _ Hs), Hs, Htb.
  destruct k; try discriminate; try reflexivity.
  simpl in Hk. apply negb_true_iff in Hk. now rewrite Hk.
Qed.

Section Parameters.
Context (env : environment).

Lemma local_of_state_alive (w : world) s A :
  state_alive w s A ->
  local_of_state env s w
  = Ok (mk_local env s (Some A) (indeterminate_type env) v_indeterminate) w.
Proof.
  intros (sa & -> & Hsa). unfold local_of_state.
  erewrite bind_Ok; [| apply deref_state_Ok; exact Hsa]. reflexivity.
Qed.

(** A parameter of a value kind: the copy and its destruction touch
    nothing, whatever the body does. *)
Lemma by_value_plain {B : Type} (arg : local) (body : local -> M B) (w : world) :
  value_kind (local_t arg) = true ->
  by_value env arg body w = body (parameter arg) w.
Proof.
  intros Hk. unfold by_value, local_copy.
  erewrite bind_Ok; [| apply copy_value_plain; exact Hk].
  cbn [local_tindex]. fold (parameter arg). unfold finally.
  destruct (body (parameter arg) w) as [b w'|e w'|e w'|]; try reflexivity.
  - unfold bind. now rewrite local_dtor_plain.
  - now rewrite local_dtor_plain.
Qed.

End Parameters.

(* ===================================================================== *)
(** * Globals and tables *)
(* ===================================================================== *)

Section Containers.
Context (env : environment).

(** X5.  [state::get_global] with a name without an embedded NUL hands out
    a handle classified from the global of that name, nil when there is
    none, and leaves the stack and the global as they were. *)
Theorem get_global_reads_binding (w : world) s A st (n : string) v :
  state_alive w s A -> interps w !! A = Some st ->
  no_nul n = true ->
  global_at w (Some A) n = Some v ->
  exists l w',
    state_get_global env s n w = Ok l w'
    /\ local_t l = tag_of env v
    /\ local_value l = payload_of env v v_indeterminate (next_ref env st)
    /\ local_s l = s /\ local_L l = Some A
    /\ stack_of w' (Some A) = Some (stack st)
    /\ global_at w' (Some A) n = Some v
    /\ (ref_kind (tag_of env v) = true -> referent l w' = Some v).
Proof.
  intros Hs Hp _ Hv. pose proof Hs as (sa & -> & Hsa).
  assert (Hv' : v = default LNil (globals (heap st) !! n)).
  { unfold global_at, interp_of in Hv. cbn [mbind option_bind] in Hv.
    rewrite Hp in Hv. cbn [mbind option_bind] in Hv. now injection Hv. }
  clear Hv.
  unfold state_get_global.
  erewrite bind_Ok; [| apply deref_state_Ok; exact Hsa]. fields.
  unfold lua_getglobal. lua_step ltac:(reflexivity). rewrite <- Hv'.
  norm. erewrite bind_Ok; [| apply local_of_state_alive; exact Hs].
  destruct (load_value_spec env
              (mk_local env (Some sa) (Some A) (indeterminate_type env)
                 v_indeterminate)
              (put_interp A (push v st) w) A (push v st) v (stack st)
              eq_refl (put_interp_lookup _ _ _) eq_refl)
    as (st' & Hrun & (Hs' & _ & Hg' & _) & Hget).
  rewrite put_interp_put in Hrun.
  erewrite bind_Ok; [| exact Hrun].
  unfold lua_pop. lua_step ltac:(eapply pop_one; exact Hs'). norm.
  eexists _, _. split; [reflexivity|]. fields.
  change (next_ref env (push v st)) with (next_ref env st) in *.
  split_and!; try reflexivity.
  - now rewrite stack_of_put.
  - unfold global_at, interp_of. simpl. rewrite lookup_insert_eq. simpl.
    now rewrite Hg', Hv'.
  - intros Hk. erewrite referent_put;
      [| reflexivity | fields; apply payload_of_ref_kind; exact Hk].
    change (Interp.registry_get (next_ref env st) (set_stack (stack st) st'))
      with (Interp.registry_get (next_ref env st) st').
    now rewrite (Hget Hk).
Qed.

(** X6.  The four table accessors refuse a handle that is not a table before
    they touch the interpreter. *)
Theorem table_access_needs_table
    (this key value : local) (k : lua_Integer) (w : world) :
  local_t this <> type.table ->
  value_kind (local_t key) = true -> value_kind (local_t value) = true ->
  table_set env this key value w = Throw not_a_table w
  /\ table_set_integer env this k value w = Throw not_a_table w
  /\ table_get env this key w = Throw not_a_table w
  /\ table_get_integer env this k w = Throw not_a_table w.
Proof.
  intros Ht Hk Hv.
  assert (Hc : forall {B} (m : M B),
    bind (check_is_table this) (fun _ => m) w = Throw not_a_table w).
  { intros B m. unfold bind, check_is_table.
    destruct (local_t this); try reflexivity. now destruct Ht. }
  unfold table_set, table_set_integer, table_get.
  rewrite !by_value_plain by assumption.
  unfold table_set_body, table_set_integer_body, table_get_body,
    table_get_integer.
  change (local_t (parameter key)) with (local_t key).
  split_and!; apply Hc.
Qed.

Lemma next_ref_registry (st st' : lua_State) :
  registry (heap st') = registry (heap st) -> next_ref env st' = next_ref env st.
Proof.
  intros H. unfold next_ref, Interp.registry_get, Interp.registry_objlen.
  now rewrite H.
Qed.

(** The container is pushed, then the key and the value; [lua_settable]
    consumes the two and the container is popped. *)
Lemma table_store_run (this value : local) (push_key : M unit) (w : world)
    A st a tb k v :
  table_handle w this A st a tb ->
  (forall w0 st0, interps w0 !! A = Some st0 ->
     push_key w0 = Ok tt (put_interp A (push k st0) w0)) ->
  pushed_value value = Some v -> valid_key k = true ->
  exists st',
    (push_ref_value this ;;
     push_key ;;
     push_value value (Some A) ;;
     lua_settable (Some A) (-3) ;;
     lua_pop (Some A) 1) w = Ok tt (put_interp A st' w)
    /\ stack st' = stack st
    /\ registry (heap st') = registry (heap st)
    /\ tables (heap st') = <[a := tab_set k v tb]> (tables (heap st)).
Proof.
  intros (Ht & HL & Hp & (r & Hr & Ha) & Htb) Hkey Hv Hvalid.
  unfold push_ref_value. rewrite Hr. cbn [read_ref]. norm. rewrite HL.
  unfold lua_rawgeti_registry. lua_step ltac:(reflexivity). rewrite Ha.
  erewrite bind_Ok; [| apply Hkey; apply put_interp_lookup].
  rewrite put_interp_put.
  erewrite bind_Ok;
    [| eapply push_value_plain; [exact Hv | apply put_interp_lookup]].
  rewrite put_interp_put.
  unfold lua_settable, lua_pop.
  lua_step ltac:(eapply settable_third; [reflexivity | exact Htb | exact Hvalid]).
  eexists. split.
  - erewrite lua_Ok; [| apply put_interp_lookup | eapply pop_one; reflexivity].
    now rewrite put_interp_put.
  - split_and!; reflexivity.
Qed.

(** The container is pushed, then the key; [lua_gettable] replaces the key
    by the entry, which is loaded and popped.  The container stays. *)
Lemma table_fetch_run (this : local) (push_key : M unit) (w : world)
    A st a tb k :
  table_handle w this A st a tb -> state_alive w (local_s this) A ->
  (forall w0 st0, interps w0 !! A = Some st0 ->
     push_key w0 = Ok tt (put_interp A (push k st0) w0)) ->
  exists st',
    (push_ref_value this ;;
     push_key ;;
     lua_gettable (Some A) (-2) ;;
     lcl <- local_of_state env (local_s this) ;;
     lcl <- load_value env lcl (-1) ;;
     lua_pop (Some A) 1 ;;
     ret lcl) w
    = Ok (with_value
            (payload_of env (tab_get k tb) v_indeterminate (next_ref env st))
            (with_t (tag_of env (tab_get k tb))
               (mk_local env (local_s this) (Some A) (indeterminate_type env)
                  v_indeterminate)))
         (put_interp A st' w)
    /\ stack st' = LTable a :: stack st
    /\ tables (heap st') = tables (heap st)
    /\ (ref_kind (tag_of env (tab_get k tb)) = true ->
        Interp.registry_get (next_ref env st) st' = tab_get k tb).
Proof.
  intros (Ht & HL & Hp & (r & Hr & Ha) & Htb) Hs Hkey.
  unfold push_ref_value. rewrite Hr. cbn [read_ref]. norm. rewrite HL.
  unfold lua_rawgeti_registry. lua_step ltac:(reflexivity). rewrite Ha.
  erewrite bind_Ok; [| apply Hkey; apply put_interp_lookup].
  rewrite put_interp_put.
  unfold lua_gettable, lua_pop.
  lua_step ltac:(eapply gettable_second; [reflexivity | exact Htb]).
  norm. erewrite bind_Ok; [| apply local_of_state_alive; exact Hs].
  match goal with
  | |- context [put_interp A ?s3 w] =>
      destruct (load_value_spec env
                  (mk_local env (local_s this) (Some A) (indeterminate_type env)
                     v_indeterminate)
                  (put_interp A s3 w) A s3 (tab_get k tb)
                  (LTable a :: stack st)
                  eq_refl (put_interp_lookup _ _ _) eq_refl)
        as (st' & Hrun & (Hs' & Ht' & _) & Hget)
  end.
  rewrite put_interp_put in Hrun.
  erewrite bind_Ok; [| exact Hrun].
  lua_step ltac:(eapply pop_one; exact Hs'). norm.
  eexists. split; [reflexivity|]. split_and!; try reflexivity.
  - exact Ht'.
  - exact Hget.
Qed.

Lemma push_key_integer (i : lua_Integer) A (w0 : world) st0 :
  interps w0 !! A = Some st0 ->
  lua_pushinteger (Some A) i w0
  = Ok tt (put_interp A (push (LNumber (Double.of_Z i)) st0) w0).
Proof. intros H. unfold lua_pushinteger. now apply lua_Ok with (st := st0). Qed.


Lemma table_set_integer_run
    (this value : local) (i : lua_Integer) (w : world) A st a tb v :
  table_handle w this A st a tb ->
  pushed_value value = Some v -> consistent_with value (Some A) ->
  exists st',
    table_set_integer env this i value w = Ok tt (put_interp A st' w)
    /\ stack st' = stack st
    /\ registry (heap st') = registry (heap st)
    /\ tables (heap st')
       = <[a := tab_set (LNumber (Double.of_Z i)) v tb]> (tables (heap st)).
Proof.
  intros Hth Hv Hcv. pose proof Hth as (Ht & HL & _).
  assert (Hvalid : valid_key (LNumber (Double.of_Z i)) = true).
  { simpl. now rewrite of_Z_not_nan. }
  destruct (table_store_run this (parameter value)
              (lua_pushinteger (Some A) i) w A st a tb _ v Hth
              (push_key_integer i A) Hv Hvalid)
    as (st1 & Hset & Hrest).
  unfold table_set_integer.
  rewrite by_value_plain by (eapply pushed_value_kind; eauto).
  unfold table_set_integer_body, check_is_table.
  rewrite Ht. cbn [type.eqb negb]. norm. rewrite HL.
  erewrite bind_Ok; [| apply check_state_consistancy_ok; exact Hcv].
  eauto.
Qed.

Lemma table_get_integer_run
    (this : local) (i : lua_Integer) (w : world) A st a tb :
  table_handle w this A st a tb -> state_alive w (local_s this) A ->
  exists st',
    table_get_integer env this i w
    = Ok (with_value
            (payload_of env (tab_get (LNumber (Double.of_Z i)) tb)
               v_indeterminate (next_ref env st))
            (with_t (tag_of env (tab_get (LNumber (Double.of_Z i)) tb))
               (mk_local env (local_s this) (Some A) (indeterminate_type env)
                  v_indeterminate)))
         (put_interp A st' w)
    /\ stack st' = LTable a :: stack st
    /\ tables (heap st') = tables (heap st).
Proof.
  intros Hth Hs. pose proof Hth as (Ht & HL & _).
  destruct (table_fetch_run this (lua_pushinteger (Some A) i)
              w A st a tb _ Hth Hs (push_key_integer i A))
    as (st' & Hrun & Hs' & Ht' & _).
  unfold table_get_integer, check_is_table.
  rewrite Ht. cbn [type.eqb negb]. norm. rewrite HL. eauto.
Qed.

(** X7.  [table_set] with a key and a value of value kinds stores the pair
    in the table that the handle leads to and leaves the stack as it was.
    The key is not a C function: every push of a C function makes a closure
    of its own, which is no key that the table has. *)
Theorem table_set_stores
    (this key value : local) (w : world) A st a tb k v :
  table_handle w this A st a tb ->
  pushed_value key = Some k -> pushed_value value = Some v ->
  consistent_with key (Some A) -> consistent_with value (Some A) ->
  valid_key k = true -> Interp.iscfunction k = false ->
  exists w',
    table_set env this key value w = Ok tt w'
    /\ table_at w' (Some A) a = Some (tab_set k v tb)
    /\ stack_of w' (Some A) = Some (stack st).
Proof.
  intros Hth Hk Hv Hck Hcv Hvalid _.
  pose proof Hth as (Ht & HL & Hp & _).
  destruct (table_store_run this (parameter value)
              (push_value (parameter key) (Some A)) w A st a tb k v Hth
              (fun w0 st0 => push_value_plain _ k w0 A st0 Hk) Hv Hvalid)
    as (st' & Hrun & Hs' & _ & Ht').
  unfold table_set.
  rewrite by_value_plain by (eapply pushed_value_kind; eauto).
  rewrite by_value_plain by (eapply pushed_value_kind; eauto).
  unfold table_set_body, check_is_table. rewrite Ht. cbn [type.eqb negb]. norm.
  rewrite HL.
  erewrite bind_Ok; [| apply check_state_consistancy_ok; exact Hck].
  erewrite bind_Ok; [| apply check_state_consistancy_ok; exact Hcv].
  eexists. split; [exact Hrun|]. split.
  - unfold table_at, interp_of. simpl. rewrite lookup_insert_eq. simpl.
    rewrite Ht'. apply lookup_insert_eq.
  - now rewrite stack_of_put, Hs'.
Qed.

(** X8.  [table_get] with a key of a value kind that is not a C function
    hands out a handle classified from the entry under that key, nil when
    there is none, and leaves the table it read from on the stack. *)
Theorem table_get_leaves_table
    (this key : local) (w : world) A st a tb k :
  table_handle w this A st a tb -> state_alive w (local_s this) A ->
  pushed_value key = Some k -> consistent_with key (Some A) ->
  Interp.iscfunction k = false ->
  exists l w',
    table_get env this key w = Ok l w'
    /\ local_t l = tag_of env (tab_get k tb)
    /\ local_value l
       = payload_of env (tab_get k tb) v_indeterminate (next_ref env st)
    /\ stack_of w' (Some A) = Some (LTable a :: stack st)
    /\ table_at w' (Some A) a = Some tb.
Proof.
  intros Hth Hs Hk Hck _.
  pose proof Hth as (Ht & HL & Hp & _ & Htb).
  destruct (table_fetch_run this (push_value (parameter key) (Some A))
              w A st a tb k Hth Hs
              (fun w0 st0 => push_value_plain _ k w0 A st0 Hk))
    as (st' & Hrun & Hs' & Ht' & _).
  unfold table_get.
  rewrite by_value_plain by (eapply pushed_value_kind; eauto).
  unfold table_get_body, check_is_table. rewrite Ht. cbn [type.eqb negb]. norm.
  rewrite HL.
  erewrite bind_Ok; [| apply check_state_consistancy_ok; exact Hck].
  eexists _, _. split; [exact Hrun|]. fields.
  split_and!; try reflexivity.
  - now rewrite stack_of_put, Hs'.
  - unfold table_at, interp_of. simpl. rewrite lookup_insert_eq. simpl.
    rewrite Ht'. exact Htb.
Qed.

(** X9.  Writing a table at an integer key and reading it back at that key:
    the handle that comes back is classified from the value written,
    whatever the key and whatever was there before. *)
Theorem table_integer_round_trip
    (this value : local) (i : lua_Integer) (w : world) A st a tb v :
  table_handle w this A st a tb -> state_alive w (local_s this) A ->
  pushed_value value = Some v -> consistent_with value (Some A) ->
  exists l w',
    (table_set_integer env this i value ;; table_get_integer env this i) w
    = Ok l w'
    /\ local_t l = tag_of env v
    /\ local_value l = payload_of env v v_indeterminate (next_ref env st)
    /\ stack_of w' (Some A) = Some (LTable a :: stack st).
Proof.
  intros Hth Hs Hv Hcv.
  pose proof Hth as (Ht & HL & Hp & (r & Hr & Ha) & Htb).
  destruct (table_set_integer_run this value i w A st a tb v Hth Hv Hcv)
    as (st1 & Hset & Hs1 & Hr1 & Ht1).
  assert (Hth1 : table_handle (put_interp A st1 w) this A st1 a
                   (tab_set (LNumber (Double.of_Z i)) v tb)).
  { unfold table_handle. split_and!; auto.
    - apply put_interp_lookup.
    - exists r. split; [exact Hr|]. unfold Interp.registry_get in *.
      now rewrite Hr1.
    - rewrite Ht1. apply lookup_insert_eq. }
  destruct (table_get_integer_run this i (put_interp A st1 w) A st1 a _ Hth1
              (state_alive_put w _ A A st1 Hs))
    as (st2 & Hget & Hs2 & _).
  rewrite put_interp_put in Hget.
  rewrite tab_get_set in Hget by (simpl; now rewrite of_Z_not_nan).
  rewrite (next_ref_registry _ _ Hr1) in Hget.
  erewrite bind_Ok; [| exact Hset].
  eexists _, _. split; [exact Hget|]. fields.
  split_and!; try reflexivity.
  now rewrite stack_of_put, Hs2, Hs1.
Qed.

End Containers.

(* ===================================================================== *)
(** * Strings *)
(* ===================================================================== *)

Lemma until_nul_terminated (bs : list byte) :
  forallb (fun b => negb (Byte.eqb b x00)) bs = true ->
  until_nul (bs ++ [x00]) = Some bs.
Proof.
  induction bs as [|b bs IH]; simpl; [reflexivity|].
  intros H. apply andb_true_iff in H as [Hb Hbs].
  apply negb_true_iff in Hb. rewrite Hb, (IH Hbs). reflexivity.
Qed.

Section Strings.
Context (env : environment).

(** Reading the characters of a buffer made by [create_string] *)
Lemma load_cstring_buffer (w : world) b c str :
  blocks w !! b = Some (buffer env c str) -> no_nul str = true ->
  load_cstring (b, 4) w = Ok str w.
Proof.
  intros Hb Hn. unfold load_cstring. cbn [fst snd]. rewrite Hb.
  unfold buffer. rewrite length_app, length_encode32.
  destruct (Z.leb_spec 4 (Z.of_nat (4 + length (cstring_bytes str)))); [| lia].
  cbn [Z.leb Z.compare andb].
  change (Z.to_nat 4) with 4%nat.
  rewrite drop_app_length' by (symmetry; apply length_encode32).
  unfold cstring_bytes. rewrite until_nul_terminated by exact Hn.
  now rewrite string_of_list_byte_of_string.
Qed.

(** A handle of a value kind has nothing to release. *)
Lemma release_plain (l : local) (w : world) :
  value_kind (local_t l) = true -> release env l w = Ok l w.
Proof.
  intros Hk. destruct l as [s L t v ti c]. simpl in Hk.
  destruct t; try discriminate;
    unfold release, is_table, is_ref_type; fields;
    cbn [type.eqb orb]; norm; fields; cbn [type.eqb orb];
    rewrite andb_false_r; reflexivity.
Qed.

(** X10.  A handle made from a literal without a context reads back as the
    literal, although [is_string] does not count it as a string; reading
    allocates and frees nothing. *)
Theorem stateless_string_reads_back (str : string) (w : world) :
  no_nul str = true ->
  exists h w',
    local_of_cstr env str w = Ok h w'
    /\ to_string env h w' = Ok (Some str) w'
    /\ is_string h = false
    /\ local_L h = None.
Proof.
  intros Hn.
  destruct (local_of_cstr_buffer env str w)
    as (h & w' & Hmk & Ht & Hv & HL & _ & Hb).
  exists h, w'. split; [exact Hmk|]. split_and!.
  - unfold to_string. rewrite Ht, Hv. cbn [type.eqb read_string]. norm.
    erewrite bind_Ok; [reflexivity|].
    apply load_cstring_buffer with (c := 1); [|exact Hn].
    rewrite Hb. apply lookup_insert_eq.
  - unfold is_string. now rewrite Ht.
  - exact HL.
Qed.

(** Pushing a string and anchoring it *)
Lemma anchor_pushed_string (this : local) (w : world) A st str :
  local_L this = Some A -> interps w !! A = Some st ->
  exists st',
    (lua_pushstring (Some A) str ;; load_ref_value_no_type env this (-1)) w
    = Ok (with_value (v_ref (next_ref env st)) this) (put_interp A st' w)
    /\ stack st' = LString str :: stack st
    /\ Interp.registry_get (next_ref env st) st' = LString str
    /\ tables (heap st') = tables (heap st)
    /\ globals (heap st') = globals (heap st).
Proof.
  intros HL Hp. unfold lua_pushstring. lua_step ltac:(reflexivity).
  destruct (load_ref_value_no_type_anchor env this
              (put_interp A (push (LString str) st) w) A
              (push (LString str) st) (LString str) (stack st)
              HL (put_interp_lookup _ _ _) eq_refl ltac:(discriminate))
    as (st' & Hrun & Hget & Hs' & Ht' & Hg' & _).
  rewrite put_interp_put in Hrun.
  exists st'. split; [exact Hrun|]. split_and!; auto.
Qed.

(** X11.  The constructor from a context and a literal without an embedded
    NUL anchors the string with the tag [string], also when the literal
    converts to a number, and leaves the string on the stack. *)
Theorem bound_string_ctor_leaves_string (s : state_ptr) (str : string)
    (w : world) A st :
  state_alive w s A -> interps w !! A = Some st -> no_nul str = true ->
  exists h w',
    local_of_state_cstr env s str w = Ok h w'
    /\ local_t h = type.string
    /\ local_value h = v_ref (next_ref env st)
    /\ referent h w' = Some (LString str)
    /\ stack_of w' (Some A) = Some (LString str :: stack st).
Proof.
  intros (sa & -> & Hsa) Hp _. unfold local_of_state_cstr.
  erewrite bind_Ok; [| apply deref_state_Ok; exact Hsa]. fields.
  unfold load_ref_value. fields.
  unfold lua_pushstring, lua_isstring. lua_step ltac:(reflexivity).
  top_query. type_tests. norm.
  destruct (load_ref_value_no_type_anchor env
              (with_t type.string
                 (mk_local env (Some sa) (Some A) type.string v_indeterminate))
              (put_interp A (push (LString str) st) w) A
              (push (LString str) st) (LString str) (stack st)
              eq_refl (put_interp_lookup _ _ _) eq_refl ltac:(discriminate))
    as (st' & Hrun & Hget & Hs' & _).
  rewrite put_interp_put in Hrun.
  eexists _, _. split; [exact Hrun|]. fields. split_and!; try reflexivity.
  - erewrite referent_put by reflexivity. now rewrite Hget.
  - now rewrite stack_of_put, Hs'.
Qed.

(** [set_as_string] on a handle of a value kind that has a context *)
Lemma set_as_string_bound (this : local) (str : string) (w : world) A st :
  value_kind (local_t this) = true -> local_L this = Some A ->
  local_s this <> None -> interps w !! A = Some st ->
  exists st',
    set_as_string env this str w
    = Ok (with_value (v_ref (next_ref env st)) (with_t type.string this))
         (put_interp A st' w)
    /\ stack st' = stack st
    /\ Interp.registry_get (next_ref env st) st' = LString str.
Proof.
  intros Hk HL Hs Hp. unfold set_as_string. rewrite HL.
  unfold check_state. destruct (local_s this) as [sa|] eqn:Hsa; [|now destruct Hs].
  norm. erewrite bind_Ok; [| apply release_plain; exact Hk]. fields.
  rewrite HL.
  destruct (anchor_pushed_string (with_t type.string this) w A st str HL Hp)
    as (st' & Hrun & Hs' & Hget & _).
  unfold bind at 1 in Hrun.
  unfold lua_pushstring in *. 
  destruct (lua (Some A) (Interp.pushlval (LString str)) w) as [[] w1| | |] eqn:E;
    try discriminate.
  erewrite bind_Ok; [| exact E].
  erewrite bind_Ok; [| exact Hrun]. fields. rewrite HL.
  unfold lua_pop. lua_step ltac:(eapply pop_one; exact Hs'). norm.
  eexists. split; [reflexivity|]. split; [reflexivity|]. exact Hget.
Qed.

(** X12.  [set_as_string] of a literal without an embedded NUL on a handle
    with a context, then [to_string]: the handle becomes a string anchored
    in the registry, the string reads back, and the stack is left as it
    was. *)
Theorem bound_string_round_trip (this : local) (str : string) (w : world) A st :
  value_kind (local_t this) = true -> local_L this = Some A ->
  local_s this <> None -> interps w !! A = Some st -> no_nul str = true ->
  exists h w',
    (h <- set_as_string env this str ;; s <- to_string env h ;; ret (h, s)) w
    = Ok (h, Some str) w'
    /\ local_t h = type.string
    /\ referent h w' = Some (LString str)
    /\ stack_of w' (Some A) = Some (stack st).
Proof.
  intros Hk HL Hs Hp _.
  destruct (set_as_string_bound this str w A st Hk HL Hs Hp)
    as (st' & Hrun & Hs' & Hget).
  erewrite bind_Ok; [| exact Hrun].
  unfold to_string, push_ref_value. fields. cbn [type.eqb read_ref]. norm.
  rewrite HL. unfold lua_rawgeti_registry, lua_tostring, lua_pop.
  lua_step ltac:(reflexivity). rewrite Hget.
  lua_step ltac:(eapply tostring_top_string; reflexivity).
  lua_step ltac:(eapply pop_one; reflexivity). norm.
  eexists _, _. split; [reflexivity|]. fields. split_and!; try reflexivity.
  - erewrite referent_put by (fields; eauto).
    change (Interp.registry_get (next_ref env st) (set_stack (stack st') _))
      with (Interp.registry_get (next_ref env st) st').
    now rewrite Hget.
  - now rewrite stack_of_put, Hs'.
Qed.

(** X13.  [state::create_string] builds on a handle whose tag was never
    set: when the indeterminate tag is not one of the value kinds,
    [release] reads a member of the union that was never written. *)
Theorem create_string_reads_unset_tag (s : state_ptr) (str : string)
    (w : world) A :
  state_alive w s A ->
  value_kind (indeterminate_type env) = false ->
  state_create_string env s str w = Undefined.
Proof.
  intros Hs Hk. pose proof Hs as (sa & -> & Hsa).
  unfold state_create_string.
  erewrite bind_Ok; [| apply local_of_state_alive; exact Hs].
  unfold set_as_string, mk_local, check_state, release, is_table, is_ref_type.
  fields. norm.
  destruct (indeterminate_type env); try discriminate;
    cbn [type.eqb orb andb]; norm; fields; cbn [type.eqb orb andb];
    rewrite ?bool_decide_true by discriminate; reflexivity.
Qed.

End Strings.

(* ===================================================================== *)
(** * Calls with arguments *)
(* ===================================================================== *)

Lemma put_interp_same (w : world) A st :
  interps w !! A = Some st -> put_interp A st w = w.
Proof.
  intros H. destruct w. unfold put_interp, set_interps. simpl in *.
  now rewrite insert_id.
Qed.

Lemma bind_ext {A B : Type} (m : M A) (k1 k2 : A -> M B) (w : world) :
  (forall a w', k1 a w' = k2 a w') -> bind m k1 w = bind m k2 w.
Proof. intros H. unfold bind. destruct (m w); auto. Qed.

Section Arguments.
Context (env : environment).

(** Arguments of value kinds: the parameter objects are made and destroyed
    without a trace. *)
Lemma by_values_plain {B : Type} (args : list local)
    (body : list local -> M B) (w : world) :
  Forall (fun a => value_kind (local_t a) = true) args ->
  by_values env args body w = body (map parameter args) w.
Proof.
  intros H. revert body. induction H as [|arg args Hk _ IH]; intros body.
  - reflexivity.
  - cbn [by_values map]. rewrite by_value_plain by exact Hk. apply IH.
Qed.

Lemma push_call_args_app (this : local) (xs ys : list local) (w : world) :
  push_call_args env this (xs ++ ys) w
  = (this1 <- push_call_args env this xs ;; push_call_args env this1 ys) w.
Proof.
  revert this w. induction xs as [|x xs IH]; intros this w.
  - reflexivity.
  - cbn [app push_call_args]. rewrite bind_assoc. apply bind_ext.
    intros a w'. apply IH.
Qed.

(** Pushing arguments of value kinds that belong to the callee's
    interpreter, or to none *)
Lemma push_call_args_plain (A : nat) (args : list local) :
  forall (vs : list lval) (this : local) (w : world) (st : lua_State),
  Forall2 (fun a v => pushed_value a = Some v) args vs ->
  Forall (fun a => consistent_with a (Some A)) args ->
  local_L this = Some A -> interps w !! A = Some st ->
  0 <= local_cargs this < 2 ^ 32 ->
  exists this' st',
    push_call_args env this args w = Ok this' (put_interp A st' w)
    /\ stack st' = rev vs ++ stack st
    /\ heap st' = heap st /\ closures st' = closures st
    /\ pcalls st' = pcalls st
    /\ local_cargs this'
       = (local_cargs this + Z.of_nat (length args)) mod 2 ^ 32
    /\ local_L this' = Some A /\ local_s this' = local_s this.
Proof.
  induction args as [|arg args IH]; intros vs this w st Hvs Hc HL Hp Hn.
  - inversion Hvs; subst. exists this, st. cbn [push_call_args].
    rewrite (put_interp_same w A st Hp). split; [reflexivity|].
    split_and!; auto. cbn [length]. rewrite Z.add_0_r, Z.mod_small; lia.
  - inversion Hvs as [|? v ? vs' Hv Hvs']; subst.
    inversion Hc as [|? ? Hca Hc']; subst.
    cbn [push_call_args]. unfold push_call_arg.
    rewrite bind_assoc || idtac.
    assert (Hstep :
      by_value env arg (push_call_args_body this) w
      = Ok (with_cargs (to_uint32 (local_cargs this + 1)) this)
           (put_interp A (push v st) w)).
    { rewrite by_value_plain by (eapply pushed_value_kind; eauto).
      unfold push_call_args_body. rewrite HL.
      erewrite bind_Ok; [| apply check_state_consistancy_ok; exact Hca].
      erewrite bind_Ok; [| eapply push_value_plain; [exact Hv | exact Hp]].
      reflexivity. }
    erewrite bind_Ok; [| exact Hstep].
    destruct (IH vs' (with_cargs (to_uint32 (local_cargs this + 1)) this)
                (put_interp A (push v st) w) (push v st) Hvs' Hc' HL
                (put_interp_lookup _ _ _))
      as (this' & st' & Hrun & Hs' & Hh' & Hcl' & Hpc' & Hcargs & HL' & Hs'').
    { fields. unfold to_uint32, wrap_unsigned. apply Z.mod_pos_bound. lia. }
    rewrite put_interp_put in Hrun.
    exists this', st'. split; [exact Hrun|]. split_and!; auto.
    + rewrite Hs'. cbn [rev]. rewrite <- app_assoc. reflexivity.
    + rewrite Hcargs. fields. unfold to_uint32, wrap_unsigned.
      rewrite Zplus_mod_idemp_l. f_equal. cbn [length]. lia.
Qed.

Lemma body_of_closures (st st' : lua_State) (f : lval) :
  closures st' = closures st ->
  Interp.body_of env st' f = Interp.body_of env st f.
Proof. intros H. destruct f; simpl; now rewrite ?H. Qed.

(** A protected call with arguments: the callee receives them first to
    last, and the function and the arguments are replaced by the results or
    by the error value. *)
Lemma pcall_arguments st vs f rest body res h' :
  stack st = rev vs ++ f :: rest ->
  Interp.body_of env st f = Some body -> body vs (heap st) = (res, h') ->
  Interp.pcall env (Z.of_nat (length vs)) st =
    LuaOk (match res with CallReturn _ => 0 | CallError _ => LUA_ERRRUN end)
      {| stack := match res with
                  | CallReturn rs => rev rs ++ rest
                  | CallError e => e :: rest
                  end;
         heap := h'; closures := closures st; pcalls := S (pcalls st) |}.
Proof.
  intros Hs Hbody Hres. unfold Interp.pcall.
  assert (Hlen : length (rev vs) = length vs) by apply length_rev.
  assert (Hn : (0 <=? Z.of_nat (length vs))
               && (Z.of_nat (length vs) <? Z.of_nat (length (stack st))) = true).
  { apply andb_true_iff. split; [apply Z.leb_le; lia|]. apply Z.ltb_lt.
    rewrite Hs, length_app, Hlen. simpl. lia. }
  rewrite Hn, Nat2Z.id, Hs.
  rewrite lookup_app_r by lia. rewrite Hlen, Nat.sub_diag. cbn [lookup list_lookup].
  rewrite Hbody.
  rewrite take_app_length' by (symmetry; exact Hlen). rewrite rev_involutive, Hres.
  replace (drop (S (length vs)) (rev vs ++ f :: rest)) with rest.
  2:{ change (rev vs ++ f :: rest) with (rev vs ++ [f] ++ rest).
      rewrite app_assoc. rewrite drop_app_length'; [reflexivity|].
      rewrite length_app, Hlen. simpl. lia. }
  destruct res; reflexivity.
Qed.

(** The run of [operator()] up to the protected call *)
Lemma local_call_reaches_pcall (w : world) (this : local) (args : list local)
    (vs : list lval) A st body res h' :
  invocable env w this A st body -> local_t this = type.function ->
  Forall2 (fun a v => pushed_value a = Some v) args vs ->
  Forall (fun a => consistent_with a (Some A)) args ->
  Z.of_nat (length args) < 2 ^ 31 ->
  body vs (heap st) = (res, h') ->
  exists this',
    local_call env this args w
    = (status <- ret (match res with
                      | CallReturn _ => 0
                      | CallError _ => LUA_ERRRUN
                      end) ;;
       r <- (let L := local_L this' in
             if negb (status =? 0) then
               err <- lua_tostring env L (-1) ;;
               lua_pop L 1 ;;
               match err with
               | Some what => throw (runtime_error what)
               | None => undefined
               end
             else
             currTop <- lua_gettop L ;;
             let retc :=
               to_int (to_uint32 (- (Z.of_nat (length args) + 1
                                     + Z.of_nat (length (stack st)))
                                  + currTop + local_cargs this' + 1)) in
             if retc =? 0 then local_of_state env (local_s this')
             else if retc =? 1 then
               lcl <- local_of_state env (local_s this') ;;
               load_value env lcl (-1)
             else
               tbl <- state_create_table env (local_s this') retc 0 ;;
               do_call_loop env this' tbl 0 (Z.to_nat retc) ;;
               lua_pop L retc ;;
               ret tbl) ;;
       ret (r, this'))
      (put_interp A
         {| stack := match res with
                     | CallReturn rs => rev rs ++ stack st
                     | CallError e => e :: stack st
                     end;
            heap := h'; closures := closures st; pcalls := S (pcalls st) |} w)
    /\ local_L this' = Some A /\ local_s this' = local_s this
    /\ local_cargs this' = Z.of_nat (length args).
Proof.
  intros (HL & Hp & (sa & Hs & Hsa) & r & Hval & Hbody) Ht Hvs Hc Hn Hres.
  assert (Hplain : Forall (fun a => value_kind (local_t a) = true) args).
  { clear -Hvs. induction Hvs; constructor; eauto using pushed_value_kind. }
  assert (Hvs' : Forall2 (fun a v => pushed_value a = Some v)
                   (map parameter args) vs).
  { clear -Hvs. induction Hvs; constructor; auto. }
  assert (Hc' : Forall (fun a => consistent_with a (Some A))
                  (map parameter args)).
  { clear -Hc. induction Hc; constructor; auto. }
  unfold local_call. rewrite by_values_plain by exact Hplain.
  assert (Hcall :
    (this1 <- prep_call this ;;
     this2 <- push_call_args env this1 (map parameter args) ;;
     r <- do_call env this2 ;; ret (r, this2)) w
    = local_call_body env this (map parameter args) w).
  { unfold local_call_body. destruct (map parameter args); [reflexivity|].
    unfold check_is_function. rewrite Ht. reflexivity. }
  rewrite <- Hcall. clear Hcall.
  unfold prep_call, push_ref_value. rewrite Hval, HL. cbn [read_ref].
  unfold lua_rawgeti_registry. lua_step ltac:(reflexivity). norm.
  destruct (push_call_args_plain A (map parameter args) vs (with_cargs 0 this)
              (put_interp A (push (Interp.registry_get r st) st) w)
              (push (Interp.registry_get r st) st) Hvs' Hc' HL
              (put_interp_lookup _ _ _) ltac:(fields; lia))
    as (this' & st' & Hrun & Hs' & Hh' & Hcl' & Hpc' & Hcargs & HL' & Hs'').
  rewrite put_interp_put in Hrun.
  change (stack (push (Interp.registry_get r st) st))
    with (Interp.registry_get r st :: stack st) in Hs'.
  change (heap (push (Interp.registry_get r st) st)) with (heap st) in Hh'.
  change (closures (push (Interp.registry_get r st) st))
    with (closures st) in Hcl'.
  change (pcalls (push (Interp.registry_get r st) st)) with (pcalls st) in Hpc'.
  erewrite bind_Ok; [| exact Hrun].
  rewrite length_map in Hcargs. fields. rewrite Z.add_0_l in Hcargs.
  rewrite Z.mod_small in Hcargs by lia.
  exists this'. split; [| split_and!; auto].
  unfold do_call. rewrite HL', Hcargs.
  unfold lua_gettop, lua_pcall.
  lua_step ltac:(reflexivity).
  assert (Hint : to_int (Z.of_nat (length args)) = Z.of_nat (length args)).
  { unfold to_int, wrap_signed. rewrite Z.mod_small by lia.
    destruct (Z.ltb_spec (Z.of_nat (length args)) (2 ^ (32 - 1))); [reflexivity|lia]. }
  rewrite Hint.
  assert (Hlen : length args = length vs).
  { clear -Hvs. induction Hvs; simpl; auto. }
  lua_step ltac:(rewrite Hlen; eapply pcall_arguments;
                 [ exact Hs'
                 | rewrite (body_of_closures st st') by exact Hcl'; exact Hbody
                 | rewrite Hh'; exact Hres ]).
  rewrite Hcl', Hpc', Hs', length_app, length_rev. cbn [length].
  rewrite <- Hlen.
  replace (Z.of_nat (length args + S (length (stack st))))
    with (Z.of_nat (length args) + 1 + Z.of_nat (length (stack st))) by lia.
  reflexivity.
Qed.

(** X14.  A call with arguments of value kinds: the callee receives the
    values of the arguments in the order they were written, and an error
    that it raises for them comes back as a [runtime_error] with the message
    of the callee, the stack as it was before the call. *)
Theorem call_passes_arguments_in_order (w : world) (this : local)
    (args : list local) (vs : list lval) A st body msg h' :
  invocable env w this A st body -> local_t this = type.function ->
  Forall2 (fun a v => pushed_value a = Some v) args vs ->
  Forall (fun a => consistent_with a (Some A)) args ->
  Z.of_nat (length args) < 2 ^ 31 ->
  body vs (heap st) = (CallError (LString msg), h') ->
  exists w',
    local_call env this args w = Throw (runtime_error msg) w'
    /\ stack_of w' (Some A) = Some (stack st)
    /\ pcalls_of w' (Some A) = Some (S (pcalls st)).
Proof.
  intros Hinv Ht Hvs Hc Hn Hres.
  destruct (local_call_reaches_pcall w this args vs A st body _ h'
              Hinv Ht Hvs Hc Hn Hres) as (this' & Hrun & HL' & _).
  rewrite Hrun. norm. change (negb (LUA_ERRRUN =? 0)) with true. cbv iota.
  rewrite HL'. unfold lua_tostring, lua_pop.
  lua_step ltac:(eapply tostring_top_string; reflexivity).
  lua_step ltac:(eapply pop_one; reflexivity).
  norm. eexists. split; [reflexivity|].
  unfold stack_of, pcalls_of, interp_of. simpl. now rewrite lookup_insert_eq.
Qed.

(** X15.  A call with arguments whose callee returns nothing: the stack is
    as it was before the call, the handle that comes back carries the tag
    that the constructor never set, and the callee handle keeps the count of
    the arguments. *)
Theorem call_without_results_is_balanced (w : world) (this : local)
    (args : list local) (vs : list lval) A st body h' :
  invocable env w this A st body -> local_t this = type.function ->
  Forall2 (fun a v => pushed_value a = Some v) args vs ->
  Forall (fun a => consistent_with a (Some A)) args ->
  Z.of_nat (length args) < 2 ^ 31 ->
  body vs (heap st) = (CallReturn [], h') ->
  exists res this' w',
    local_call env this args w = Ok (res, this') w'
    /\ local_t res = indeterminate_type env
    /\ local_cargs this' = Z.of_nat (length args)
    /\ stack_of w' (Some A) = Some (stack st)
    /\ pcalls_of w' (Some A) = Some (S (pcalls st)).
Proof.
  intros Hinv Ht Hvs Hc Hn Hres.
  destruct (local_call_reaches_pcall w this args vs A st body _ h'
              Hinv Ht Hvs Hc Hn Hres) as (this' & Hrun & HL' & Hs' & Hcargs).
  destruct Hinv as (_ & _ & (sa & Hs & Hsa) & _).
  rewrite Hrun. norm. change (negb (0 =? 0)) with false. cbv iota.
  rewrite HL'. unfold lua_gettop. lua_step ltac:(reflexivity).
  cbn [stack rev app]. rewrite Hcargs.
  replace (- (Z.of_nat (length args) + 1 + Z.of_nat (length (stack st)))
           + Z.of_nat (length (stack st)) + Z.of_nat (length args) + 1)
    with 0 by lia.
  change (to_int (to_uint32 0) =? 0) with true. cbv iota.
  rewrite Hs', Hs.
  erewrite bind_Ok;
    [| apply local_of_state_alive; exists sa; split; [reflexivity | exact Hsa]].
  norm. eexists _, _, _. split; [reflexivity|]. split_and!; auto.
  - unfold stack_of, interp_of. simpl. now rewrite lookup_insert_eq.
  - unfold pcalls_of, interp_of. simpl. now rewrite lookup_insert_eq.
Qed.

(** X16.  An argument that belongs to another interpreter stops the call
    after the arguments before it were pushed: the function and those
    arguments stay on the stack. *)
Theorem foreign_argument_leaves_stack (w : world) (this : local)
    (good more : list local) (bad : local) (vs : list lval)
    A B st body :
  invocable env w this A st body -> local_t this = type.function ->
  Forall2 (fun a v => pushed_value a = Some v) good vs ->
  Forall (fun a => consistent_with a (Some A)) good ->
  value_kind (local_t bad) = true -> local_L bad = Some B -> B <> A ->
  Forall (fun a => value_kind (local_t a) = true) more ->
  exists w',
    local_call env this (good ++ bad :: more) w = Throw inconsistent w'
    /\ (exists f, referent this w = Some f
                  /\ stack_of w' (Some A) = Some (rev vs ++ f :: stack st))
    /\ pcalls_of w' (Some A) = Some (pcalls st).
Proof.
  intros (HL & Hp & (sa & Hs & Hsa) & r & Hval & Hbody) Ht Hvs Hc Hk HB Hne Hmore.
  assert (Hplain : Forall (fun a => value_kind (local_t a) = true)
                     (good ++ bad :: more)).
  { apply Forall_app. split.
    - clear -Hvs. induction Hvs; constructor; eauto using pushed_value_kind.
    - constructor; assumption. }
  assert (Hvs' : Forall2 (fun a v => pushed_value a = Some v)
                   (map parameter good) vs).
  { clear -Hvs. induction Hvs; constructor; auto. }
  assert (Hc' : Forall (fun a => consistent_with a (Some A))
                  (map parameter good)).
  { clear -Hc. induction Hc; constructor; auto. }
  unfold local_call. rewrite by_values_plain by exact Hplain.
  rewrite map_app. cbn [map].
  assert (Hcall :
    (this1 <- prep_call this ;;
     this2 <- push_call_args env this1
                (map parameter good ++ parameter bad :: map parameter more) ;;
     r <- do_call env this2 ;; ret (r, this2)) w
    = local_call_body env this
        (map parameter good ++ parameter bad :: map parameter more) w).
  { unfold local_call_body.
    destruct (map parameter good ++ parameter bad :: map parameter more) eqn:E.
    - now destruct (map parameter good).
    - unfold check_is_function. rewrite Ht. reflexivity. }
  rewrite <- Hcall. clear Hcall.
  unfold prep_call, push_ref_value. rewrite Hval, HL. cbn [read_ref].
  unfold lua_rawgeti_registry. lua_step ltac:(reflexivity). norm.
  destruct (push_call_args_plain A (map parameter good) vs (with_cargs 0 this)
              (put_interp A (push (Interp.registry_get r st) st) w)
              (push (Interp.registry_get r st) st) Hvs' Hc' HL
              (put_interp_lookup _ _ _) ltac:(fields; lia))
    as (this' & st' & Hrun & Hs' & Hh' & Hcl' & Hpc' & Hcargs & HL' & Hs'').
  rewrite put_interp_put in Hrun.
  change (stack (push (Interp.registry_get r st) st))
    with (Interp.registry_get r st :: stack st) in Hs'.
  change (pcalls (push (Interp.registry_get r st) st)) with (pcalls st) in Hpc'.
  eexists. split.
  - apply bind_Throw. rewrite push_call_args_app.
    erewrite bind_Ok; [| exact Hrun].
    cbn [push_call_args]. apply bind_Throw. unfold push_call_arg.
    rewrite by_value_plain by exact Hk.
    unfold push_call_args_body, check_state_consistancy, parameter. fields.
    rewrite HB, HL'.
    rewrite bool_decide_true by discriminate.
    rewrite bool_decide_true by congruence.
    reflexivity.
  - split.
    + exists (Interp.registry_get r st). split.
      * unfold referent, interp_of. rewrite Hval, HL. simpl. now rewrite Hp.
      * rewrite stack_of_put, Hs'. reflexivity.
    + unfold pcalls_of, interp_of. simpl. rewrite lookup_insert_eq. simpl.
      now rewrite Hpc'.
Qed.

End Arguments.

(* ===================================================================== *)
(** * Element proxies *)
(* ===================================================================== *)

Lemma pop_two st a b rest :
  stack st = a :: b :: rest -> Interp.pop 2 st = LuaOk tt (set_stack rest st).
Proof.
  intros H. unfold Interp.pop. rewrite H.
  destruct (Z.leb_spec 2 (Z.of_nat (length (a :: b :: rest)))) as [_|Hlt].
  - reflexivity.
  - simpl length in Hlt. lia.
Qed.

Section Proxies.
Context (env : environment).

(** X17.  The constructor of a proxy anchors the key: the reference of the
    key is the one that the registry hands out next, it leads to the value
    of the key, and the stack is left as it was. *)
Theorem proxy_ctor_anchors_key (s : state_ptr) (tblRef : Z) (idx : local)
    (w : world) A st k :
  state_alive w s A -> interps w !! A = Some st ->
  pushed_value idx = Some k -> k <> LNil -> consistent_with idx (Some A) ->
  exists ti w',
    table_index_ctor env s tblRef idx w = Ok ti w'
    /\ ti_s ti = s /\ ti_tblRef ti = tblRef
    /\ ti_idxRef ti = next_ref env st
    /\ (st' ← interp_of w' (Some A);
        Some (Interp.registry_get (ti_idxRef ti) st')) = Some k
    /\ stack_of w' (Some A) = Some (stack st).
Proof.
  intros (sa & -> & Hsa) Hp Hk Hnil Hc. unfold table_index_ctor.
  erewrite bind_Ok; [| apply deref_state_Ok; exact Hsa]. fields.
  erewrite bind_Ok; [| apply check_state_consistancy_ok; exact Hc].
  erewrite bind_Ok; [| eapply push_value_plain; [exact Hk | exact Hp]].
  destruct (ref_anchor env (push k st) k (stack st) eq_refl Hnil)
    as (st' & Href & Hget & Hs' & _).
  unfold luaL_ref_registry. lua_step ltac:(exact Href). norm.
  eexists _, _. split; [reflexivity|]. fields. split_and!; try reflexivity.
  - unfold interp_of. simpl. rewrite lookup_insert_eq. simpl.
    now rewrite <- Hget.
  - now rewrite stack_of_put, Hs'.
Qed.

(** Reading through a bound proxy *)
Lemma proxy_fetch_run (ti : table_index) (w : world) A st a tb k :
  bound_proxy w ti A st a tb k ->
  exists st',
    table_index_get_value env ti w
    = Ok (with_value
            (payload_of env (tab_get k tb) v_indeterminate (next_ref env st))
            (with_t (tag_of env (tab_get k tb))
               (mk_local env (ti_s ti) (Some A) (indeterminate_type env)
                  v_indeterminate)))
         (put_interp A st' w)
    /\ stack st' = stack st
    /\ tables (heap st') = tables (heap st)
    /\ (ref_kind (tag_of env (tab_get k tb)) = true ->
        Interp.registry_get (next_ref env st) st' = tab_get k tb).
Proof.
  intros (Hs & Hp & Hne & Ha & Htb & Hk). pose proof Hs as (sa & Hsa & Hst).
  unfold table_index_get_value, table_index_check_valid. rewrite Hsa. norm.
  destruct (Z.eqb_spec (ti_tblRef ti) LUA_REFNIL) as [E|_]; [now destruct Hne|].
  erewrite bind_Ok; [| apply deref_state_Ok; exact Hst]. fields.
  unfold lua_rawgeti_registry, lua_gettable, lua_pop.
  lua_step ltac:(reflexivity). rewrite Ha.
  lua_step ltac:(reflexivity).
  change (Interp.registry_get (ti_idxRef ti) (push (LTable a) st))
    with (Interp.registry_get (ti_idxRef ti) st). rewrite Hk.
  lua_step ltac:(eapply gettable_second; [reflexivity | exact Htb]).
  norm. rewrite <- Hsa.
  erewrite bind_Ok; [| apply local_of_state_alive; exact Hs].
  match goal with
  | |- context [put_interp A ?s3 w] =>
      destruct (load_value_spec env
                  (mk_local env (ti_s ti) (Some A) (indeterminate_type env)
                     v_indeterminate)
                  (put_interp A s3 w) A s3 (tab_get k tb)
                  (LTable a :: stack st)
                  eq_refl (put_interp_lookup _ _ _) eq_refl)
        as (st' & Hrun & (Hs' & Ht' & _) & Hget)
  end.
  rewrite put_interp_put in Hrun.
  erewrite bind_Ok; [| exact Hrun].
  lua_step ltac:(eapply pop_two; exact Hs'). norm.
  eexists. split; [reflexivity|]. split_and!; try reflexivity.
  - exact Ht'.
  - exact Hget.
Qed.


(** X18.  Reading through a bound proxy whose key is not a C function hands
    out a handle classified from the entry under the key of the proxy, nil
    when there is none; the table and the entry are popped, so the stack is
    left as it was. *)
Theorem proxy_read_is_balanced (ti : table_index) (w : world) A st a tb k :
  bound_proxy w ti A st a tb k -> Interp.iscfunction k = false ->
  exists l w',
    table_index_to_local env ti w = Ok l w'
    /\ local_t l = tag_of env (tab_get k tb)
    /\ local_value l
       = payload_of env (tab_get k tb) v_indeterminate (next_ref env st)
    /\ local_s l = ti_s ti
    /\ stack_of w' (Some A) = Some (stack st)
    /\ table_at w' (Some A) a = Some tb.
Proof.
  intros Hb _. pose proof Hb as (_ & _ & _ & _ & Htb & _).
  destruct (proxy_fetch_run ti w A st a tb k Hb) as (st' & Hrun & Hs' & Ht' & _).
  unfold table_index_to_local.
  eexists _, _. split; [exact Hrun|]. fields. split_and!; try reflexivity.
  - now rewrite stack_of_put, Hs'.
  - unfold table_at, interp_of. simpl. rewrite lookup_insert_eq. simpl.
    now rewrite Ht'.
Qed.




(** X22.  A proxy without a context, as the default constructor makes it:
    reading and writing through it throw, copying it dereferences the null
    pointer, and so does its destructor when it holds a key. *)
Theorem contextless_proxy_operations (ti : table_index) (rhs : local)
    (w : world) :
  ti_s ti = None -> value_kind (local_t rhs) = true ->
  table_index_to_local env ti w = Throw invalid_proxy w
  /\ table_index_assign_local env ti rhs w = Throw invalid_proxy w
  /\ table_index_copy env ti w = Undefined
  /\ (ti_idxRef ti <> LUA_REFNIL -> table_index_dtor ti w = Undefined)
  /\ (ti_idxRef ti = LUA_REFNIL -> table_index_dtor ti w = Ok tt w).
Proof.
  intros H Hk. split_and!.
  - unfold table_index_to_local, table_index_get_value,
      table_index_check_valid. now rewrite H.
  - unfold table_index_assign_local. rewrite by_value_plain by exact Hk.
    unfold table_index_assign_local_body, table_index_check_valid.
    now rewrite H.
  - unfold table_index_copy. now rewrite H.
  - intros Hne. unfold table_index_dtor.
    destruct (Z.eqb_spec (ti_idxRef ti) LUA_REFNIL); [contradiction|].
    now rewrite H.
  - intros He. unfold table_index_dtor. now rewrite He.
Qed.


End Proxies.

(* ===================================================================== *)
(** * Mutators, lengths and the life of a context *)
(* ===================================================================== *)

(** [luaL_unref] links the slot in front of the free list. *)
Lemma unref_links (r : Z) (st : lua_State) :
  0 < r ->
  exists st',
    Interp.unref r st = LuaOk tt st'
    /\ stack st' = stack st
    /\ Interp.registry_get FREELIST_REF st' = LNumber (Double.of_Z r)
    /\ Interp.registry_get r st' = Interp.registry_get FREELIST_REF st.
Proof.
  intros Hr. unfold Interp.unref.
  destruct (Z.leb_spec 0 r); [|lia].
  eexists. split; [reflexivity|]. split; [reflexivity|]. split.
  - apply registry_get_set_eq.
  - rewrite registry_get_set_ne by (unfold FREELIST_REF; lia).
    apply registry_get_set_eq.
Qed.

Section Members.
Context (env : environment).

(** [release] on an anchored handle whose proxy is the default one *)
Lemma release_anchor (l : local) (w : world) A st r :
  ref_kind (local_t l) = true -> local_value l = v_ref r -> 0 < r ->
  local_L l = Some A -> local_tindex l = table_index_default ->
  interps w !! A = Some st ->
  exists st',
    release env l w = Ok l (put_interp A st' w)
    /\ stack st' = stack st
    /\ Interp.registry_get FREELIST_REF st' = LNumber (Double.of_Z r)
    /\ Interp.registry_get r st' = Interp.registry_get FREELIST_REF st.
Proof.
  intros Hk Hv Hr HL Hti Hp. destruct l as [s L t v ti c]. simpl in *.
  subst L v ti.
  destruct (unref_links r st Hr) as (st' & Hun & Hrest).
  assert (Hrun :
    (if bool_decide (Some A ≠ (None : lua_State_ptr)) && ref_kind t
     then r0 <- read_ref (v_ref r) ;; luaL_unref_registry (Some A) r0
     else if type.eqb t type.stateless_string
          then p0 <- read_string (v_ref r) ;; release_string env p0
          else ret tt) w = Ok tt (put_interp A st' w)).
  { rewrite Hk. rewrite bool_decide_true by discriminate. cbn [andb read_ref].
    norm. unfold luaL_unref_registry. now apply lua_Ok with (st := st). }
  exists st'. split; [| exact Hrest].
  unfold release. unfold is_table at 1. fields.
  destruct (type.eqb t type.table) eqn:Ht.
  - norm. erewrite bind_Ok; [| apply table_index_assign_default].
    norm. fields. rewrite is_ref_type_ref_kind. fields.
    erewrite bind_Ok; [| exact Hrun]. reflexivity.
  - norm. fields. rewrite is_ref_type_ref_kind. fields.
    erewrite bind_Ok; [| exact Hrun]. reflexivity.
Qed.

(** X23.  The mutators to the value kinds on an anchored handle: the
    reference is given back to the registry, whose free list now starts at
    it, the handle takes the new tag and payload, and the stack is left as
    it was. *)
Theorem mutators_release_anchor (this : local) (w : world) A st r
    (b : bool) (i : lua_Integer) (f : lua_CFunction) (p : void_ptr) :
  ref_kind (local_t this) = true -> local_value this = v_ref r -> 0 < r ->
  local_L this = Some A -> local_tindex this = table_index_default ->
  interps w !! A = Some st ->
  exists w',
    stack_of w' (Some A) = Some (stack st)
    /\ referent this w' = Some (Interp.registry_get FREELIST_REF st)
    /\ (exists h, set_as_nil env this w = Ok h w'
                  /\ pushed_value h = Some LNil)
    /\ (exists h, set_as_boolean env this b w = Ok h w'
                  /\ pushed_value h = Some (LBoolean b)
                  /\ to_boolean h w' = Ok b w')
    /\ (exists h, set_as_integer env this i w = Ok h w'
                  /\ pushed_value h = Some (LNumber (Double.of_Z i))
                  /\ to_integer env h w' = Ok i w')
    /\ (exists h, set_as_cfunction env this f w = Ok h w'
                  /\ pushed_value h = Some (LCFunction f)
                  /\ to_cfunction h w' = Ok f w')
    /\ (exists h, set_as_lightuserdata env this p w = Ok h w'
                  /\ pushed_value h = Some (LLightuserdata p)
                  /\ to_userdata h w' = Ok p w').
Proof.
  intros Hk Hv Hr HL Hti Hp.
  destruct (release_anchor this w A st r Hk Hv Hr HL Hti Hp)
    as (st' & Hrel & Hs' & _ & Hslot).
  exists (put_interp A st' w). split_and!.
  - now rewrite stack_of_put, Hs'.
  - erewrite referent_put by eauto. now rewrite Hslot.
  - eexists. unfold set_as_nil. erewrite bind_Ok; [| exact Hrel].
    split; reflexivity.
  - eexists. unfold set_as_boolean. erewrite bind_Ok; [| exact Hrel].
    split_and!; reflexivity.
  - eexists. unfold set_as_integer. erewrite bind_Ok; [| exact Hrel].
    split_and!; reflexivity.
  - eexists. unfold set_as_cfunction. erewrite bind_Ok; [| exact Hrel].
    split_and!; reflexivity.
  - eexists. unfold set_as_lightuserdata. erewrite bind_Ok; [| exact Hrel].
    split_and!; reflexivity.
Qed.

(** X24.  A handle of a C function: [is_function] counts it as a function,
    but [operator()] with arguments refuses it, and [operator()] without
    arguments reads the reference member of a union that holds a function
    pointer. *)
Theorem cfunction_handle_is_not_callable (this arg : local)
    (args : list local) (f : lua_CFunction) (w : world) :
  local_t this = type.cfunction -> local_value this = v_cfunction f ->
  Forall (fun a => value_kind (local_t a) = true) (arg :: args) ->
  is_function this = true
  /\ local_call env this (arg :: args) w = Throw not_a_function w
  /\ local_call env this [] w = Undefined.
Proof.
  intros Ht Hv Hargs. split_and!.
  - unfold is_function. now rewrite Ht.
  - unfold local_call. rewrite by_values_plain by exact Hargs. cbn [map].
    unfold local_call_body, check_is_function. now rewrite Ht.
  - unfold local_call, by_values, local_call_body, prep_call, push_ref_value.
    now rewrite Hv.
Qed.

Section WithUserdata.
Context (udata_size : nat -> Z).

Lemma objlen_top_string st str rest :
  stack st = LString str :: rest ->
  objlen env udata_size (-1) st = LuaOk (strlen str) st.
Proof.
  intros H. unfold objlen. rewrite (index2pos_top _ _ _ H), H. reflexivity.
Qed.

(** X26.  The length of a string handle is the number of characters of the
    literal it was made from, for the strings of the interpreter and for
    the stateless ones; the stack is left as it was, and no block is
    allocated or freed. *)
Theorem length_of_strings (this : local) (str : string) (w : world) A st :
  value_kind (local_t this) = true -> local_L this = Some A ->
  local_s this <> None -> interps w !! A = Some st -> no_nul str = true ->
  (exists h w',
     (h <- set_as_string env this str ;;
      n <- local_length env udata_size h ;; ret (h, n)) w
     = Ok (h, strlen str) w'
     /\ local_t h = type.string
     /\ stack_of w' (Some A) = Some (stack st))
  /\ (exists h w',
        (h <- local_of_cstr env str ;;
         n <- local_length env udata_size h ;; ret (h, n)) w
        = Ok (h, strlen str) w'
        /\ local_t h = type.stateless_string).
Proof.
  intros Hk HL Hs Hp Hn. split.
  - destruct (set_as_string_bound env this str w A st Hk HL Hs Hp)
      as (st' & Hrun & Hs' & Hget).
    erewrite bind_Ok; [| exact Hrun].
    unfold local_length, push_ref_value. fields. cbn [type.eqb orb read_ref].
    norm. rewrite HL. unfold lua_rawgeti_registry, lua_objlen, lua_pop.
    lua_step ltac:(reflexivity). rewrite Hget.
    lua_step ltac:(eapply objlen_top_string; reflexivity).
    lua_step ltac:(eapply pop_one; reflexivity). norm.
    eexists _, _. split; [reflexivity|]. fields. split; [reflexivity|].
    now rewrite stack_of_put, Hs'.
  - destruct (local_of_cstr_buffer env str w)
      as (h & w' & Hmk & Ht & Hv & _ & _ & Hb).
    erewrite bind_Ok; [| exact Hmk].
    unfold local_length. rewrite Ht, Hv. cbn [type.eqb orb read_string]. norm.
    erewrite bind_Ok.
    2:{ apply (load_cstring_buffer env _ _ 1 str); [|exact Hn].
        rewrite Hb. apply lookup_insert_eq. }
    norm. eexists _, _. split; [reflexivity|]. exact Ht.
Qed.

End WithUserdata.

(** X27.  [duplicate_ref] anchors the value of the handle a second time and
    keeps the new reference only: the old reference still leads to the
    value and is not given back, and the stack is left as it was. *)
Theorem duplicate_ref_keeps_old_anchor (this : local) (w : world) A st r v :
  ref_kind (local_t this) = true -> local_value this = v_ref r ->
  local_L this = Some A -> interps w !! A = Some st ->
  Interp.registry_get r st = v -> v <> LNil ->
  r <> next_ref env st -> r <> FREELIST_REF ->
  exists h w',
    duplicate_ref env this w = Ok (next_ref env st, h) w'
    /\ local_value h = v_ref (next_ref env st)
    /\ referent h w' = Some v
    /\ referent this w' = Some v
    /\ stack_of w' (Some A) = Some (stack st).
Proof.
  intros Hk Hv HL Hp Hr Hnil Hfresh H0. subst v.
  unfold duplicate_ref. rewrite is_ref_type_ref_kind, Hk. cbn [assert]. norm.
  rewrite Hv. cbn [read_ref]. norm. rewrite HL.
  unfold lua_rawgeti_registry, luaL_ref_registry.
  lua_step ltac:(reflexivity).
  destruct (ref_anchor env (push (Interp.registry_get r st) st)
              (Interp.registry_get r st) (stack st) eq_refl Hnil)
    as (st' & Href & Hget & Hs' & _ & _ & _ & _ & _ & Hother).
  lua_step ltac:(exact Href). norm.
  eexists _, _. split; [reflexivity|]. fields. split_and!; try reflexivity.
  - erewrite referent_put by (fields; eauto). exact (f_equal Some Hget).
  - erewrite referent_put by eauto. now rewrite Hother.
  - now rewrite stack_of_put, Hs'.
Qed.

(** X28.  [push_value] followed by [load_value]: a handle that holds nil, a
    boolean, a C function or a light userdata comes back from the stack with
    the tag it had, and with the payload it had unless it is nil. *)
Theorem push_load_round_trip (h lcl : local) (w : world) A st v :
  pushed_value h = Some v -> Interp.isnumber env v = false ->
  local_L lcl = Some A -> interps w !! A = Some st ->
  exists l' w',
    (push_value h (Some A) ;; load_value env lcl (-1)) w = Ok l' w'
    /\ local_t l' = local_t h
    /\ (local_t h <> type.nil -> local_value l' = local_value h)
    /\ stack_of w' (Some A) = Some (v :: stack st).
Proof.
  intros Hv Hnum HL Hp.
  erewrite bind_Ok; [| eapply push_value_plain; [exact Hv | exact Hp]].
  destruct (load_value_spec env lcl (put_interp A (push v st) w) A
              (push v st) v (stack st) HL (put_interp_lookup _ _ _) eq_refl)
    as (st' & Hrun & (Hs' & _) & _).
  rewrite put_interp_put in Hrun.
  eexists _, _. split; [exact Hrun|]. fields.
  unfold pushed_value in Hv.
  split_and!.
  - destruct (local_t h); try discriminate;
      destruct (local_value h); try discriminate;
      injection Hv as <-; try discriminate; reflexivity.
  - intros Hnil.
    destruct (local_t h); try discriminate; try (now destruct Hnil);
      destruct (local_value h); try discriminate;
      injection Hv as <-; try discriminate; reflexivity.
  - now rewrite stack_of_put, Hs'.
Qed.

End Members.

(* ===================================================================== *)
(** * Instances *)
(* ===================================================================== *)

(** A table handle of interpreter 0 and a string key of interpreter 1 *)
Lemma table_get_rejects_foreign_key_witness :
  let this := anchored sample_env type.table 5 in
  let key := mk_local sample_env (Some 1%nat) (Some 1%nat) type.string (v_ref 1) in
  (local_t this = type.table /\ local_L this = Some 0%nat
   /\ attached sample_world key 1 /\ 0%nat <> 1%nat)
  /\ exists w',
       table_get sample_env this key sample_world = Throw inconsistent w'
       /\ forall L, stack_depth w' L = stack_depth sample_world L.
Proof.
  cbv zeta.
  assert (Hatt : attached sample_world
            (mk_local sample_env (Some 1%nat) (Some 1%nat) type.string (v_ref 1))
            1).
  { split; [reflexivity|]. split; [vm_compute; eauto|].
    right. split; [reflexivity|]. exists 1. reflexivity. }
  split.
  - split_and!; [reflexivity | reflexivity | exact Hatt | lia].
  - apply (table_get_rejects_foreign_key sample_env sample_world
             (anchored sample_env type.table 5)
             (mk_local sample_env (Some 1%nat) (Some 1%nat) type.string (v_ref 1))
             0%nat 1%nat); [reflexivity | reflexivity | exact Hatt | lia].
Defined.

(** Moving the table handle anchored at reference 5, and the [state] that
    owns interpreter 0 *)
Lemma move_transfers_ownership_witness :
  let lcl := anchored sample_env type.table 5 in
  let st := {| state_L := Some 0%nat |} in
  local_tindex lcl = table_index_default
  /\ local_t (snd (local_move lcl)) = type.nil
  /\ local_dtor sample_env (snd (local_move lcl)) sample_world = Ok tt sample_world
  /\ referent (fst (local_move lcl)) sample_world = Some (LTable 0)
  /\ state_dtor (snd (state_move st)) sample_world = Ok tt sample_world
  /\ state_L (fst (state_move st)) = Some 0%nat.
Proof.
  cbv zeta.
  pose proof (move_transfers_ownership sample_env sample_world
                (anchored sample_env type.table 5)
                {| state_L := Some 0%nat |} eq_refl) as H.
  cbv zeta in H.
  destruct H as (H1 & _ & H3 & _ & _ & _ & _ & _ & H9 & _ & H11 & H12).
  split_and!; [reflexivity | exact H1 | exact H3 | | exact H12 | exact H11].
  rewrite H9. reflexivity.
Defined.

(** ** Instances of the further properties *)

(** Decides a hypothesis on the sample world by evaluation. *)
Ltac instance :=
  first
    [ reflexivity
    | apply put_interp_lookup
    | (vm_compute; reflexivity)
    | (let X := fresh in intros X; vm_compute in X; discriminate)
    | (let X := fresh in intros X; vm_compute in X; lia)
    | (left; reflexivity)
    | (right; reflexivity)
    | (constructor; instance)
    | (eexists; split; instance)
    | (split; instance)
    | (progress (unfold state_alive, table_handle, bound_proxy, invocable,
                 consistent_with); instance) ].

(** The string ["s"] on top of the stack of the sample interpreter *)
Lemma anchor_round_trip_witness :
  let env := sample_env in
  let v := LString "s" in
  let rest := @nil lval in
  let this := anchored sample_env type.string 0 in
  let w := with_top v in
  let A := 0%nat in
  let st := push v sample_interp in
  ((local_L this = Some A) /\
   (interps w !! A = Some st) /\
   (stack st = v :: rest) /\
   (v <> LNil))
  /\
  (exists l' w',
    load_ref_value_no_type env this (-1) w = Ok l' w'
    /\ local_value l' = v_ref (next_ref env st)
    /\ local_t l' = local_t this
    /\ referent l' w' = Some v
    /\ stack_of w' (Some A) = Some (v :: rest)
    /\ exists w'', push_ref_value l' w' = Ok tt w''
                   /\ stack_of w'' (Some A) = Some (v :: v :: rest)).
Proof.
  intros env v rest this w A st.
  assert (Hyps : (local_L this = Some A) /\
   (interps w !! A = Some st) /\
   (stack st = v :: rest) /\
   (v <> LNil)).
  { split_and!; instance. }
  split; [exact Hyps|].
  destruct Hyps as (Hy0 & Hy1 & Hy2 & Hy3).
  exact (anchor_round_trip env this w A st v rest
           Hy0 Hy1 Hy2 Hy3).
Defined.

(** The number 7 on top of the stack of the sample interpreter *)
Lemma load_value_classifies_witness :
  let env := sample_env in
  let v := num 7 in
  let rest := @nil lval in
  let lcl := anchored sample_env type.nil 0 in
  let w := with_top v in
  let A := 0%nat in
  let st := push v sample_interp in
  ((local_L lcl = Some A) /\
   (interps w !! A = Some st) /\
   (stack st = v :: rest))
  /\
  (exists l' w',
    load_value env lcl (-1) w = Ok l' w'
    /\ local_t l' = tag_of env v
    /\ local_value l' = payload_of env v (local_value lcl) (next_ref env st)
    /\ stack_of w' (Some A) = Some (v :: rest)
    /\ (ref_kind (tag_of env v) = true -> referent l' w' = Some v)).
Proof.
  intros env v rest lcl w A st.
  assert (Hyps : (local_L lcl = Some A) /\
   (interps w !! A = Some st) /\
   (stack st = v :: rest)).
  { split_and!; instance. }
  split; [exact Hyps|].
  destruct Hyps as (Hy0 & Hy1 & Hy2).
  exact (load_value_classifies env lcl w A st v rest
           Hy0 Hy1 Hy2).
Defined.

(** The table handle anchored at reference 5 *)
Lemma copy_shares_referent_witness :
  let env := sample_env in
  let lcl := anchored sample_env type.table 5 in
  let w := sample_world in
  let A := 0%nat in
  let st := sample_interp in
  let r := 5 in
  let v := LTable 0 in
  ((ref_kind (local_t lcl) = true) /\
   (local_value lcl = v_ref r) /\
   (local_L lcl = Some A) /\
   (interps w !! A = Some st) /\
   (Interp.registry_get r st = v) /\
   (v <> LNil) /\
   (r <> next_ref env st) /\
   (r <> FREELIST_REF))
  /\
  (exists c w',
    local_copy env lcl w = Ok c w'
    /\ local_t c = local_t lcl /\ local_s c = local_s lcl
    /\ local_L c = local_L lcl
    /\ local_value c = v_ref (next_ref env st)
    /\ referent c w' = Some v
    /\ referent lcl w' = Some v
    /\ stack_of w' (Some A) = Some (stack st)).
Proof.
  intros env lcl w A st r v.
  assert (Hyps : (ref_kind (local_t lcl) = true) /\
   (local_value lcl = v_ref r) /\
   (local_L lcl = Some A) /\
   (interps w !! A = Some st) /\
   (Interp.registry_get r st = v) /\
   (v <> LNil) /\
   (r <> next_ref env st) /\
   (r <> FREELIST_REF)).
  { split_and!; instance. }
  split; [exact Hyps|].
  destruct Hyps as (Hy0 & Hy1 & Hy2 & Hy3 & Hy4 & Hy5 & Hy6 & Hy7).
  exact (copy_shares_referent env lcl w A st r v
           Hy0 Hy1 Hy2 Hy3 Hy4 Hy5 Hy6 Hy7).
Defined.

(** The table handle anchored at reference 5, copied and the copy destroyed *)
Lemma copy_has_own_lifetime_witness :
  let env := sample_env in
  let lcl := anchored sample_env type.table 5 in
  let w := sample_world in
  let A := 0%nat in
  let st := sample_interp in
  let r := 5 in
  let v := LTable 0 in
  ((ref_kind (local_t lcl) = true) /\
   (local_value lcl = v_ref r) /\
   (local_L lcl = Some A) /\
   (interps w !! A = Some st) /\
   (Interp.registry_get r st = v) /\
   (v <> LNil) /\
   (r <> next_ref env st) /\
   (r <> FREELIST_REF))
  /\
  (exists w',
    (c <- local_copy env lcl ;; local_dtor env c) w = Ok tt w'
    /\ referent lcl w' = Some v
    /\ stack_of w' (Some A) = Some (stack st)
    /\ blocks w' = blocks w).
Proof.
  intros env lcl w A st r v.
  assert (Hyps : (ref_kind (local_t lcl) = true) /\
   (local_value lcl = v_ref r) /\
   (local_L lcl = Some A) /\
   (interps w !! A = Some st) /\
   (Interp.registry_get r st = v) /\
   (v <> LNil) /\
   (r <> next_ref env st) /\
   (r <> FREELIST_REF)).
  { split_and!; instance. }
  split; [exact Hyps|].
  destruct Hyps as (Hy0 & Hy1 & Hy2 & Hy3 & Hy4 & Hy5 & Hy6 & Hy7).
  exact (copy_has_own_lifetime env lcl w A st r v
           Hy0 Hy1 Hy2 Hy3 Hy4 Hy5 Hy6 Hy7).
Defined.

(** The global [x] bound to the string ["s"] *)
Lemma get_global_reads_binding_witness :
  let env := sample_env in
  let n := "x"%string in
  let v := LString "s" in
  let w := with_global n v in
  let A := 0%nat in
  let st := interp_with_global n v in
  let s := Some 0%nat : state_ptr in
  ((state_alive w s A) /\
   (interps w !! A = Some st) /\
   (no_nul n = true) /\
   (global_at w (Some A) n = Some v))
  /\
  (exists l w',
    state_get_global env s n w = Ok l w'
    /\ local_t l = tag_of env v
    /\ local_value l = payload_of env v v_indeterminate (next_ref env st)
    /\ local_s l = s /\ local_L l = Some A
    /\ stack_of w' (Some A) = Some (stack st)
    /\ global_at w' (Some A) n = Some v
    /\ (ref_kind (tag_of env v) = true -> referent l w' = Some v)).
Proof.
  intros env n v w A st s.
  assert (Hyps : (state_alive w s A) /\
   (interps w !! A = Some st) /\
   (no_nul n = true) /\
   (global_at w (Some A) n = Some v)).
  { split_and!; instance. }
  split; [exact Hyps|].
  destruct Hyps as (Hy0 & Hy1 & Hy2 & Hy3).
  exact (get_global_reads_binding env w s A st n v
           Hy0 Hy1 Hy2 Hy3).
Defined.

(** A boolean handle used as a table *)
Lemma table_access_needs_table_witness :
  let env := sample_env in
  let this := flag_of 0 true in
  let key := local_of_bool sample_env true in
  let value := local_of_number sample_env three in
  let k := 1 in
  let w := sample_world in
  ((local_t this <> type.table) /\
   (value_kind (local_t key) = true) /\
   (value_kind (local_t value) = true))
  /\
  (table_set env this key value w = Throw not_a_table w
  /\ table_set_integer env this k value w = Throw not_a_table w
  /\ table_get env this key w = Throw not_a_table w
  /\ table_get_integer env this k w = Throw not_a_table w).
Proof.
  intros env this key value k w.
  assert (Hyps : (local_t this <> type.table) /\
   (value_kind (local_t key) = true) /\
   (value_kind (local_t value) = true)).
  { split_and!; instance. }
  split; [exact Hyps|].
  destruct Hyps as (Hy0 & Hy1 & Hy2).
  exact (table_access_needs_table env this key value k w
           Hy0 Hy1 Hy2).
Defined.

(** A table that holds 7 under the key [true], which is given the value 3.5 *)
Lemma table_set_stores_witness :
  let env := sample_env in
  let this := anchored sample_env type.table 5 in
  let a := 0%nat in
  let tb := [(LBoolean true, num 7)] in
  let w := with_table tb in
  let A := 0%nat in
  let st := interp_with_table tb in
  let key := local_of_bool sample_env true in
  let value := local_of_number sample_env three_and_a_half in
  let k := LBoolean true in
  let v := LNumber three_and_a_half in
  ((table_handle w this A st a tb) /\
   (pushed_value key = Some k) /\
   (pushed_value value = Some v) /\
   (consistent_with key (Some A)) /\
   (consistent_with value (Some A)) /\
   (valid_key k = true) /\
   (Interp.iscfunction k = false))
  /\
  (exists w',
    table_set env this key value w = Ok tt w'
    /\ table_at w' (Some A) a = Some (tab_set k v tb)
    /\ stack_of w' (Some A) = Some (stack st)).
Proof.
  intros env this a tb w A st key value k v.
  assert (Hyps : (table_handle w this A st a tb) /\
   (pushed_value key = Some k) /\
   (pushed_value value = Some v) /\
   (consistent_with key (Some A)) /\
   (consistent_with value (Some A)) /\
   (valid_key k = true) /\
   (Interp.iscfunction k = false)).
  { split_and!; instance. }
  split; [exact Hyps|].
  destruct Hyps as (Hy0 & Hy1 & Hy2 & Hy3 & Hy4 & Hy5 & Hy6).
  exact (table_set_stores env this key value w A st a tb k v
           Hy0 Hy1 Hy2 Hy3 Hy4 Hy5 Hy6).
Defined.

(** A table that holds 7 under the key [true], read at that key *)
Lemma table_get_leaves_table_witness :
  let env := sample_env in
  let this := anchored sample_env type.table 5 in
  let a := 0%nat in
  let tb := [(LBoolean true, num 7)] in
  let w := with_table tb in
  let A := 0%nat in
  let st := interp_with_table tb in
  let key := local_of_bool sample_env true in
  let k := LBoolean true in
  ((table_handle w this A st a tb) /\
   (state_alive w (local_s this) A) /\
   (pushed_value key = Some k) /\
   (consistent_with key (Some A)) /\
   (Interp.iscfunction k = false))
  /\
  (exists l w',
    table_get env this key w = Ok l w'
    /\ local_t l = tag_of env (tab_get k tb)
    /\ local_value l
       = payload_of env (tab_get k tb) v_indeterminate (next_ref env st)
    /\ stack_of w' (Some A) = Some (LTable a :: stack st)
    /\ table_at w' (Some A) a = Some tb).
Proof.
  intros env this a tb w A st key k.
  assert (Hyps : (table_handle w this A st a tb) /\
   (state_alive w (local_s this) A) /\
   (pushed_value key = Some k) /\
   (consistent_with key (Some A)) /\
   (Interp.iscfunction k = false)).
  { split_and!; instance. }
  split; [exact Hyps|].
  destruct Hyps as (Hy0 & Hy1 & Hy2 & Hy3 & Hy4).
  exact (table_get_leaves_table env this key w A st a tb k
           Hy0 Hy1 Hy2 Hy3 Hy4).
Defined.

(** The empty table of the sample interpreter written and read at the key 1 *)
Lemma table_integer_round_trip_witness :
  let env := sample_env in
  let this := anchored sample_env type.table 5 in
  let w := sample_world in
  let A := 0%nat in
  let st := sample_interp in
  let a := 0%nat in
  let tb := @nil (lval * lval) in
  let value := local_of_bool sample_env true in
  let i := 1 in
  let v := LBoolean true in
  ((table_handle w this A st a tb) /\
   (state_alive w (local_s this) A) /\
   (pushed_value value = Some v) /\
   (consistent_with value (Some A)))
  /\
  (exists l w',
    (table_set_integer env this i value ;; table_get_integer env this i) w
    = Ok l w'
    /\ local_t l = tag_of env v
    /\ local_value l = payload_of env v v_indeterminate (next_ref env st)
    /\ stack_of w' (Some A) = Some (LTable a :: stack st)).
Proof.
  intros env this w A st a tb value i v.
  assert (Hyps : (table_handle w this A st a tb) /\
   (state_alive w (local_s this) A) /\
   (pushed_value value = Some v) /\
   (consistent_with value (Some A))).
  { split_and!; instance. }
  split; [exact Hyps|].
  destruct Hyps as (Hy0 & Hy1 & Hy2 & Hy3).
  exact (table_integer_round_trip env this value i w A st a tb v
           Hy0 Hy1 Hy2 Hy3).
Defined.

(** The literal ["x"] *)
Lemma stateless_string_reads_back_witness :
  let env := sample_env in
  let str := "x"%string in
  let w := sample_world in
  ((no_nul str = true))
  /\
  (exists h w',
    local_of_cstr env str w = Ok h w'
    /\ to_string env h w' = Ok (Some str) w'
    /\ is_string h = false
    /\ local_L h = None).
Proof.
  intros env str w.
  assert (Hy0 : no_nul str = true) by instance.
  split; [exact Hy0|].
  exact (stateless_string_reads_back env str w Hy0).
Defined.

(** The literal ["42"] in the sample interpreter *)
Lemma bound_string_ctor_leaves_string_witness :
  let env := sample_env in
  let w := sample_world in
  let A := 0%nat in
  let st := sample_interp in
  let s := Some 0%nat : state_ptr in
  let str := "42"%string in
  ((state_alive w s A) /\
   (interps w !! A = Some st) /\
   (no_nul str = true))
  /\
  (exists h w',
    local_of_state_cstr env s str w = Ok h w'
    /\ local_t h = type.string
    /\ local_value h = v_ref (next_ref env st)
    /\ referent h w' = Some (LString str)
    /\ stack_of w' (Some A) = Some (LString str :: stack st)).
Proof.
  intros env w A st s str.
  assert (Hyps : (state_alive w s A) /\
   (interps w !! A = Some st) /\
   (no_nul str = true)).
  { split_and!; instance. }
  split; [exact Hyps|].
  destruct Hyps as (Hy0 & Hy1 & Hy2).
  exact (bound_string_ctor_leaves_string env s str w A st
           Hy0 Hy1 Hy2).
Defined.

(** A boolean handle of the sample interpreter turned into the string ["x"] *)
Lemma bound_string_round_trip_witness :
  let env := sample_env in
  let w := sample_world in
  let A := 0%nat in
  let st := sample_interp in
  let this := flag_of 0 true in
  let str := "x"%string in
  ((value_kind (local_t this) = true) /\
   (local_L this = Some A) /\
   (local_s this <> None) /\
   (interps w !! A = Some st) /\
   (no_nul str = true))
  /\
  (exists h w',
    (h <- set_as_string env this str ;; s <- to_string env h ;; ret (h, s)) w
    = Ok (h, Some str) w'
    /\ local_t h = type.string
    /\ referent h w' = Some (LString str)
    /\ stack_of w' (Some A) = Some (stack st)).
Proof.
  intros env w A st this str.
  assert (Hyps : (value_kind (local_t this) = true) /\
   (local_L this = Some A) /\
   (local_s this <> None) /\
   (interps w !! A = Some st) /\
   (no_nul str = true)).
  { split_and!; instance. }
  split; [exact Hyps|].
  destruct Hyps as (Hy0 & Hy1 & Hy2 & Hy3 & Hy4).
  exact (bound_string_round_trip env this str w A st
           Hy0 Hy1 Hy2 Hy3 Hy4).
Defined.

(** The sample host, whose unset tag reads as [userdata] *)
Lemma create_string_reads_unset_tag_witness :
  let env := sample_env in
  let s := Some 0%nat : state_ptr in
  let str := "x"%string in
  let w := sample_world in
  let A := 0%nat in
  ((state_alive w s A) /\
   (value_kind (indeterminate_type env) = false))
  /\
  (state_create_string env s str w = Undefined).
Proof.
  intros env s str w A.
  assert (Hyps : (state_alive w s A) /\
   (value_kind (indeterminate_type env) = false)).
  { split_and!; instance. }
  split; [exact Hyps|].
  destruct Hyps as (Hy0 & Hy1).
  exact (create_string_reads_unset_tag env s str w A
           Hy0 Hy1).
Defined.

(** The closure that raises ["boom"], called with [true] and 3 *)
Lemma call_passes_arguments_in_order_witness :
  let env := sample_env in
  let w := sample_world in
  let A := 0%nat in
  let st := sample_interp in
  let this := anchored sample_env type.function 4 in
  let args := [local_of_bool sample_env true; local_of_number sample_env three] in
  let vs := [LBoolean true; LNumber three] in
  let body := raising (LString "boom") in
  let msg := "boom"%string in
  let h' := heap sample_interp in
  ((invocable env w this A st body) /\
   (local_t this = type.function) /\
   (Forall2 (fun a v => pushed_value a = Some v) args vs) /\
   (Forall (fun a => consistent_with a (Some A)) args) /\
   (Z.of_nat (length args) < 2 ^ 31) /\
   (body vs (heap st) = (CallError (LString msg), h')))
  /\
  (exists w',
    local_call env this args w = Throw (runtime_error msg) w'
    /\ stack_of w' (Some A) = Some (stack st)
    /\ pcalls_of w' (Some A) = Some (S (pcalls st))).
Proof.
  intros env w A st this args vs body msg h'.
  assert (Hyps : (invocable env w this A st body) /\
   (local_t this = type.function) /\
   (Forall2 (fun a v => pushed_value a = Some v) args vs) /\
   (Forall (fun a => consistent_with a (Some A)) args) /\
   (Z.of_nat (length args) < 2 ^ 31) /\
   (body vs (heap st) = (CallError (LString msg), h'))).
  { split_and!; instance. }
  split; [exact Hyps|].
  destruct Hyps as (Hy0 & Hy1 & Hy2 & Hy3 & Hy4 & Hy5).
  exact (call_passes_arguments_in_order env w this args vs A st body msg h'
           Hy0 Hy1 Hy2 Hy3 Hy4 Hy5).
Defined.

(** The closure that returns nothing, called with [true] and 3 *)
Lemma call_without_results_is_balanced_witness :
  let env := sample_env in
  let w := sample_world in
  let A := 0%nat in
  let st := sample_interp in
  let this := anchored sample_env type.function 1 in
  let args := [local_of_bool sample_env true; local_of_number sample_env three] in
  let vs := [LBoolean true; LNumber three] in
  let body := returning [] in
  let h' := heap sample_interp in
  ((invocable env w this A st body) /\
   (local_t this = type.function) /\
   (Forall2 (fun a v => pushed_value a = Some v) args vs) /\
   (Forall (fun a => consistent_with a (Some A)) args) /\
   (Z.of_nat (length args) < 2 ^ 31) /\
   (body vs (heap st) = (CallReturn [], h')))
  /\
  (exists res this' w',
    local_call env this args w = Ok (res, this') w'
    /\ local_t res = indeterminate_type env
    /\ local_cargs this' = Z.of_nat (length args)
    /\ stack_of w' (Some A) = Some (stack st)
    /\ pcalls_of w' (Some A) = Some (S (pcalls st))).
Proof.
  intros env w A st this args vs body h'.
  assert (Hyps : (invocable env w this A st body) /\
   (local_t this = type.function) /\
   (Forall2 (fun a v => pushed_value a = Some v) args vs) /\
   (Forall (fun a => consistent_with a (Some A)) args) /\
   (Z.of_nat (length args) < 2 ^ 31) /\
   (body vs (heap st) = (CallReturn [], h'))).
  { split_and!; instance. }
  split; [exact Hyps|].
  destruct Hyps as (Hy0 & Hy1 & Hy2 & Hy3 & Hy4 & Hy5).
  exact (call_without_results_is_balanced env w this args vs A st body h'
           Hy0 Hy1 Hy2 Hy3 Hy4 Hy5).
Defined.

(** The closure that returns nothing, called with [true] and a handle of interpreter 1 *)
Lemma foreign_argument_leaves_stack_witness :
  let env := sample_env in
  let w := sample_world in
  let A := 0%nat in
  let st := sample_interp in
  let this := anchored sample_env type.function 1 in
  let good := [local_of_bool sample_env true] in
  let more := @nil local in
  let bad := flag_of 1 false in
  let vs := [LBoolean true] in
  let B := 1%nat in
  let body := returning [] in
  ((invocable env w this A st body) /\
   (local_t this = type.function) /\
   (Forall2 (fun a v => pushed_value a = Some v) good vs) /\
   (Forall (fun a => consistent_with a (Some A)) good) /\
   (value_kind (local_t bad) = true) /\
   (local_L bad = Some B) /\
   (B <> A) /\
   (Forall (fun a => value_kind (local_t a) = true) more))
  /\
  (exists w',
    local_call env this (good ++ bad :: more) w = Throw inconsistent w'
    /\ (exists f, referent this w = Some f
                  /\ stack_of w' (Some A) = Some (rev vs ++ f :: stack st))
    /\ pcalls_of w' (Some A) = Some (pcalls st)).
Proof.
  intros env w A st this good more bad vs B body.
  assert (Hyps : (invocable env w this A st body) /\
   (local_t this = type.function) /\
   (Forall2 (fun a v => pushed_value a = Some v) good vs) /\
   (Forall (fun a => consistent_with a (Some A)) good) /\
   (value_kind (local_t bad) = true) /\
   (local_L bad = Some B) /\
   (B <> A) /\
   (Forall (fun a => value_kind (local_t a) = true) more)).
  { split_and!; instance. }
  split; [exact Hyps|].
  destruct Hyps as (Hy0 & Hy1 & Hy2 & Hy3 & Hy4 & Hy5 & Hy6 & Hy7).
  exact (foreign_argument_leaves_stack env w this good more bad vs A B st body
           Hy0 Hy1 Hy2 Hy3 Hy4 Hy5 Hy6 Hy7).
Defined.

(** A proxy for the table at reference 5 under the key [true] *)
Lemma proxy_ctor_anchors_key_witness :
  let env := sample_env in
  let w := sample_world in
  let A := 0%nat in
  let st := sample_interp in
  let s := Some 0%nat : state_ptr in
  let tblRef := 5 in
  let idx := local_of_bool sample_env true in
  let k := LBoolean true in
  ((state_alive w s A) /\
   (interps w !! A = Some st) /\
   (pushed_value idx = Some k) /\
   (k <> LNil) /\
   (consistent_with idx (Some A)))
  /\
  (exists ti w',
    table_index_ctor env s tblRef idx w = Ok ti w'
    /\ ti_s ti = s /\ ti_tblRef ti = tblRef
    /\ ti_idxRef ti = next_ref env st
    /\ (st' ← interp_of w' (Some A);
        Some (Interp.registry_get (ti_idxRef ti) st')) = Some k
    /\ stack_of w' (Some A) = Some (stack st)).
Proof.
  intros env w A st s tblRef idx k.
  assert (Hyps : (state_alive w s A) /\
   (interps w !! A = Some st) /\
   (pushed_value idx = Some k) /\
   (k <> LNil) /\
   (consistent_with idx (Some A))).
  { split_and!; instance. }
  split; [exact Hyps|].
  destruct Hyps as (Hy0 & Hy1 & Hy2 & Hy3 & Hy4).
  exact (proxy_ctor_anchors_key env s tblRef idx w A st k
           Hy0 Hy1 Hy2 Hy3 Hy4).
Defined.

(** The sample proxy on a table that holds ["old"] under its key *)
Lemma proxy_read_is_balanced_witness :
  let env := sample_env in
  let ti := sample_proxy in
  let a := 0%nat in
  let k := LFunction 0 in
  let tb := [(LFunction 0, LString "old")] in
  let w := with_table tb in
  let A := 0%nat in
  let st := interp_with_table tb in
  ((bound_proxy w ti A st a tb k) /\
   (Interp.iscfunction k = false))
  /\
  (exists l w',
    table_index_to_local env ti w = Ok l w'
    /\ local_t l = tag_of env (tab_get k tb)
    /\ local_value l
       = payload_of env (tab_get k tb) v_indeterminate (next_ref env st)
    /\ local_s l = ti_s ti
    /\ stack_of w' (Some A) = Some (stack st)
    /\ table_at w' (Some A) a = Some tb).
Proof.
  intros env ti a k tb w A st.
  assert (Hyps : (bound_proxy w ti A st a tb k) /\
   (Interp.iscfunction k = false)).
  { split_and!; instance. }
  split; [exact Hyps|].
  destruct Hyps as (Hy0 & Hy1).
  exact (proxy_read_is_balanced env ti w A st a tb k
           Hy0 Hy1).
Defined.




(** The default-constructed proxy *)
Lemma contextless_proxy_operations_witness :
  let env := sample_env in
  let ti := table_index_default in
  let rhs := local_of_bool sample_env true in
  let w := sample_world in
  ((ti_s ti = None) /\
   (value_kind (local_t rhs) = true))
  /\
  (table_index_to_local env ti w = Throw invalid_proxy w
  /\ table_index_assign_local env ti rhs w = Throw invalid_proxy w
  /\ table_index_copy env ti w = Undefined
  /\ (ti_idxRef ti <> LUA_REFNIL -> table_index_dtor ti w = Undefined)
  /\ (ti_idxRef ti = LUA_REFNIL -> table_index_dtor ti w = Ok tt w)).
Proof.
  intros env ti rhs w.
  assert (Hyps : (ti_s ti = None) /\
   (value_kind (local_t rhs) = true)).
  { split_and!; instance. }
  split; [exact Hyps|].
  destruct Hyps as (Hy0 & Hy1).
  exact (contextless_proxy_operations env ti rhs w
           Hy0 Hy1).
Defined.

(** The table handle anchored at reference 5 *)
Lemma mutators_release_anchor_witness :
  let env := sample_env in
  let w := sample_world in
  let A := 0%nat in
  let st := sample_interp in
  let this := anchored sample_env type.table 5 in
  let r := 5 in
  let b := true in
  let i := 7 in
  let f := 1 in
  let p := 2 in
  ((ref_kind (local_t this) = true) /\
   (local_value this = v_ref r) /\
   (0 < r) /\
   (local_L this = Some A) /\
   (local_tindex this = table_index_default) /\
   (interps w !! A = Some st))
  /\
  (exists w',
    stack_of w' (Some A) = Some (stack st)
    /\ referent this w' = Some (Interp.registry_get FREELIST_REF st)
    /\ (exists h, set_as_nil env this w = Ok h w'
                  /\ pushed_value h = Some LNil)
    /\ (exists h, set_as_boolean env this b w = Ok h w'
                  /\ pushed_value h = Some (LBoolean b)
                  /\ to_boolean h w' = Ok b w')
    /\ (exists h, set_as_integer env this i w = Ok h w'
                  /\ pushed_value h = Some (LNumber (Double.of_Z i))
                  /\ to_integer env h w' = Ok i w')
    /\ (exists h, set_as_cfunction env this f w = Ok h w'
                  /\ pushed_value h = Some (LCFunction f)
                  /\ to_cfunction h w' = Ok f w')
    /\ (exists h, set_as_lightuserdata env this p w = Ok h w'
                  /\ pushed_value h = Some (LLightuserdata p)
                  /\ to_userdata h w' = Ok p w')).
Proof.
  intros env w A st this r b i f p.
  assert (Hyps : (ref_kind (local_t this) = true) /\
   (local_value this = v_ref r) /\
   (0 < r) /\
   (local_L this = Some A) /\
   (local_tindex this = table_index_default) /\
   (interps w !! A = Some st)).
  { split_and!; instance. }
  split; [exact Hyps|].
  destruct Hyps as (Hy0 & Hy1 & Hy2 & Hy3 & Hy4 & Hy5).
  exact (mutators_release_anchor env this w A st r b i f p
           Hy0 Hy1 Hy2 Hy3 Hy4 Hy5).
Defined.

(** A handle of the C function at address 9 *)
Lemma cfunction_handle_is_not_callable_witness :
  let env := sample_env in
  let this := local_of_cfunction sample_env 9 in
  let arg := local_of_bool sample_env true in
  let args := @nil local in
  let f := 9 in
  let w := sample_world in
  ((local_t this = type.cfunction) /\
   (local_value this = v_cfunction f) /\
   (Forall (fun a => value_kind (local_t a) = true) (arg :: args)))
  /\
  (is_function this = true
  /\ local_call env this (arg :: args) w = Throw not_a_function w
  /\ local_call env this [] w = Undefined).
Proof.
  intros env this arg args f w.
  assert (Hyps : (local_t this = type.cfunction) /\
   (local_value this = v_cfunction f) /\
   (Forall (fun a => value_kind (local_t a) = true) (arg :: args))).
  { split_and!; instance. }
  split; [exact Hyps|].
  destruct Hyps as (Hy0 & Hy1 & Hy2).
  exact (cfunction_handle_is_not_callable env this arg args f w
           Hy0 Hy1 Hy2).
Defined.

(** The literal ["abc"] *)
Lemma length_of_strings_witness :
  let env := sample_env in
  let w := sample_world in
  let A := 0%nat in
  let st := sample_interp in
  let udata_size := fun _ : nat => 0 in
  let this := flag_of 0 true in
  let str := "abc"%string in
  ((value_kind (local_t this) = true) /\
   (local_L this = Some A) /\
   (local_s this <> None) /\
   (interps w !! A = Some st) /\
   (no_nul str = true))
  /\
  ((exists h w',
     (h <- set_as_string env this str ;;
      n <- local_length env udata_size h ;; ret (h, n)) w
     = Ok (h, strlen str) w'
     /\ local_t h = type.string
     /\ stack_of w' (Some A) = Some (stack st))
  /\ (exists h w',
        (h <- local_of_cstr env str ;;
         n <- local_length env udata_size h ;; ret (h, n)) w
        = Ok (h, strlen str) w'
        /\ local_t h = type.stateless_string)).
Proof.
  intros env w A st udata_size this str.
  assert (Hyps : (value_kind (local_t this) = true) /\
   (local_L this = Some A) /\
   (local_s this <> None) /\
   (interps w !! A = Some st) /\
   (no_nul str = true)).
  { split_and!; instance. }
  split; [exact Hyps|].
  destruct Hyps as (Hy0 & Hy1 & Hy2 & Hy3 & Hy4).
  exact (length_of_strings env udata_size this str w A st
           Hy0 Hy1 Hy2 Hy3 Hy4).
Defined.

(** The table handle anchored at reference 5 *)
Lemma duplicate_ref_keeps_old_anchor_witness :
  let env := sample_env in
  let this := anchored sample_env type.table 5 in
  let w := sample_world in
  let A := 0%nat in
  let st := sample_interp in
  let r := 5 in
  let v := LTable 0 in
  ((ref_kind (local_t this) = true) /\
   (local_value this = v_ref r) /\
   (local_L this = Some A) /\
   (interps w !! A = Some st) /\
   (Interp.registry_get r st = v) /\
   (v <> LNil) /\
   (r <> next_ref env st) /\
   (r <> FREELIST_REF))
  /\
  (exists h w',
    duplicate_ref env this w = Ok (next_ref env st, h) w'
    /\ local_value h = v_ref (next_ref env st)
    /\ referent h w' = Some v
    /\ referent this w' = Some v
    /\ stack_of w' (Some A) = Some (stack st)).
Proof.
  intros env this w A st r v.
  assert (Hyps : (ref_kind (local_t this) = true) /\
   (local_value this = v_ref r) /\
   (local_L this = Some A) /\
   (interps w !! A = Some st) /\
   (Interp.registry_get r st = v) /\
   (v <> LNil) /\
   (r <> next_ref env st) /\
   (r <> FREELIST_REF)).
  { split_and!; instance. }
  split; [exact Hyps|].
  destruct Hyps as (Hy0 & Hy1 & Hy2 & Hy3 & Hy4 & Hy5 & Hy6 & Hy7).
  exact (duplicate_ref_keeps_old_anchor env this w A st r v
           Hy0 Hy1 Hy2 Hy3 Hy4 Hy5 Hy6 Hy7).
Defined.

(** A handle of the C function at address 9, pushed on the sample interpreter *)
Lemma push_load_round_trip_witness :
  let env := sample_env in
  let w := sample_world in
  let A := 0%nat in
  let st := sample_interp in
  let h := local_of_cfunction sample_env 9 in
  let lcl := anchored sample_env type.nil 0 in
  let v := LCFunction 9 in
  ((pushed_value h = Some v) /\
   (Interp.isnumber env v = false) /\
   (local_L lcl = Some A) /\
   (interps w !! A = Some st))
  /\
  (exists l' w',
    (push_value h (Some A) ;; load_value env lcl (-1)) w = Ok l' w'
    /\ local_t l' = local_t h
    /\ (local_t h <> type.nil -> local_value l' = local_value h)
    /\ stack_of w' (Some A) = Some (v :: stack st)).
Proof.
  intros env w A st h lcl v.
  assert (Hyps : (pushed_value h = Some v) /\
   (Interp.isnumber env v = false) /\
   (local_L lcl = Some A) /\
   (interps w !! A = Some st)).
  { split_and!; instance. }
  split; [exact Hyps|].
  destruct Hyps as (Hy0 & Hy1 & Hy2 & Hy3).
  exact (push_load_round_trip env h lcl w A st v
           Hy0 Hy1 Hy2 Hy3).
Defined.

(** One copy and one release between the construction and the last release *)
Lemma refcount_discipline_witness :
  let env := sample_env in
  let str := "x"%string in
  let ops := [Retain; Release] in
  let w := sample_world in
  ((blocks w !! next_block w = None) /\
   (stays_live 1 ops = true) /\
   (count_after 1 ops = 1))
  /\
  (exists w',
    (p <- create_string env str ;; run_ops env p ops ;; release_string env p) w = Ok tt w'
    /\ blocks w' = blocks w).
Proof.
  intros env str ops w.
  assert (Hyps : (blocks w !! next_block w = None) /\
   (stays_live 1 ops = true) /\
   (count_after 1 ops = 1)).
  { split_and!; instance. }
  split; [exact Hyps|].
  destruct Hyps as (Hy0 & Hy1 & Hy2).
  exact (refcount_discipline env str ops w
           Hy0 Hy1 Hy2).
Defined.

(** The literal ["x"] in the sample world *)
Lemma stateless_handles_discipline_witness :
  let env := sample_env in
  let str := "x"%string in
  let w := sample_world in
  ((blocks w !! next_block w = None))
  /\
  (exists w',
    (h1 <- local_of_cstr env str ;;
     h2 <- local_copy env h1 ;;
     local_dtor env h1 ;;
     local_dtor env h2) w = Ok tt w'
    /\ blocks w' = blocks w).
Proof.
  intros env str w.
  assert (Hy0 : blocks w !! next_block w = None) by instance.
  split; [exact Hy0|].
  exact (stateless_handles_discipline env str w Hy0).
Defined.


